(** * ElectrumX (Lambda): script walker and transaction (de)serializer

    A shallow embedding of [electrumx/lib/script.py] and
    [electrumx/lib/tx.py].  Python integers are [Z], [bytes] values are
    lists of [Byte.byte], Python exceptions are explicit error results,
    and the [while] loops of the script walker are iterated with a fuel
    that is shown to be sufficient. *)

From Stdlib Require Import String Strings.Byte.
From Stdlib Require Import ZArith List Lia Bool.
Import ListNotations.

Local Open Scope Z_scope.

(* ================================================================= *)
(** * Bytes and Python sequence primitives *)

Definition bytes := list byte.

Definition b2z (b : byte) : Z := Z.of_N (Byte.to_N b).

Definition z2b (z : Z) : byte :=
  match Byte.of_N (Z.to_N (z mod 256)) with
  | Some b => b
  | None => "000"%byte
  end.

(** [len(s)] *)
Definition len {A : Type} (l : list A) : Z := Z.of_nat (length l).

(** [s[i]]: negative indices count from the end; [None] is [IndexError]. *)
Definition getitem {A : Type} (l : list A) (i : Z) : option A :=
  let j := if i <? 0 then i + len l else i in
  if j <? 0 then None else nth_error l (Z.to_nat j).

(** Slice bounds are clamped into [0, len]. *)
Definition clamp (L i : Z) : Z :=
  if i <? 0 then Z.max 0 (i + L) else Z.min i L.

(** [s[a:b]] *)
Definition slice {A : Type} (l : list A) (a b : Z) : list A :=
  let a' := clamp (len l) a in
  let b' := clamp (len l) b in
  firstn (Z.to_nat (b' - a')) (skipn (Z.to_nat a') l).

(** [s[a:]] *)
Definition slice_from {A : Type} (l : list A) (a : Z) : list A :=
  skipn (Z.to_nat (clamp (len l) a)) l.

(** [bytes(n)]: [n] zero bytes. *)
Definition zero_bytes (n : nat) : bytes := repeat "000"%byte n.

(** The byte read by [script[n]], as a Python [int]. *)
Definition byte_at (s : bytes) (i : Z) : option Z := option_map b2z (getitem s i).

(** Little-endian value of a byte string, and the [w]-byte little-endian
    encoding of a value. *)
Fixpoint le_decode (bs : bytes) : Z :=
  match bs with
  | [] => 0
  | b :: r => b2z b + 256 * le_decode r
  end.

Fixpoint le_encode (w : nat) (v : Z) : bytes :=
  match w with
  | O => []
  | S w' => z2b v :: le_encode w' (v / 256)
  end.

(** Option monad, used where every exception is caught by one handler. *)
Definition obind {A B : Type} (o : option A) (k : A -> option B) : option B :=
  match o with
  | Some a => k a
  | None => None
  end.

Notation "x <- e ;; k" := (obind e (fun x => k))
  (at level 61, e at next level, right associativity).
Notation "' p <- e ;; k" := (obind e (fun p => k))
  (at level 61, p pattern, e at next level, right associativity).

(* ================================================================= *)
(** * Results of fallible code *)

Inductive result (E A : Type) : Type :=
| Ok (a : A)
| Err (e : E).
Arguments Ok {E A} a.
Arguments Err {E A} e.

(** Result of a loop run with a fuel: finished, left by an exception, or
    stopped by the fuel. *)
Inductive outcome (E A : Type) : Type :=
| Done (a : A)
| Raised (e : E)
| OutOfFuel.
Arguments Done {E A} a.
Arguments Raised {E A} e.
Arguments OutOfFuel {E A}.

(** The Python exceptions that the two modules can raise on malformed
    input. *)
Inductive exn : Type :=
| IndexError
| AssertionError
| StructError.

(** [ScriptError(msg)] of [script.py]. *)
Inductive script_exn : Type :=
| ScriptError (msg : string).

Definition to_option {E A : Type} (r : result E A) : option A :=
  match r with
  | Ok a => Some a
  | Err _ => None
  end.

(* ================================================================= *)
(** * [electrumx.lib.util]: struct packers and unpackers *)

(** Modelled from the spec: [electrumx/lib/util.py] is not among the
    sources.  The fixed-width readers are taken to be
    [struct.Struct(fmt).unpack_from(buffer, offset)], as their names say:
    a little-endian integer of [w] bytes read at [offset], a
    [struct.error] when fewer than [w] bytes are available there; a
    negative offset counts from the end of the buffer. *)
Definition unpack_from (w : nat) (signed : bool) (buffer : bytes) (offset : Z)
  : result exn Z :=
  let off := if offset <? 0 then offset + len buffer else offset in
  if (off <? 0) || (len buffer - off <? Z.of_nat w) then Err StructError
  else
    let u := le_decode (slice buffer off (off + Z.of_nat w)) in
    Ok (if signed && (2 ^ (8 * Z.of_nat w - 1) <=? u)
        then u - 2 ^ (8 * Z.of_nat w) else u).

Definition unpack_le_int32_from := unpack_from 4 true.
Definition unpack_le_int64_from := unpack_from 8 true.
Definition unpack_le_uint16_from := unpack_from 2 false.
Definition unpack_le_uint32_from := unpack_from 4 false.
Definition unpack_le_uint64_from := unpack_from 8 false.
Definition unpack_le_uint256_from := unpack_from 32 false.

(** Modelled from the spec: the packers of [electrumx/lib/util.py], taken
    to be [struct.Struct(fmt).pack]: the [w]-byte little-endian
    (two's-complement when signed) encoding, a [struct.error] ([None]
    here) when the value is outside the format's range. *)
Definition pack_le (w : nat) (signed : bool) (v : Z) : option bytes :=
  let lo := if signed then - 2 ^ (8 * Z.of_nat w - 1) else 0 in
  let hi := if signed then 2 ^ (8 * Z.of_nat w - 1) else 2 ^ (8 * Z.of_nat w) in
  if (lo <=? v) && (v <? hi) then Some (le_encode w (v mod 2 ^ (8 * Z.of_nat w)))
  else None.

Definition pack_le_int32 := pack_le 4 true.
Definition pack_le_int64 := pack_le 8 true.
Definition pack_le_uint16 := pack_le 2 false.
Definition pack_le_uint32 := pack_le 4 false.
Definition pack_le_uint64 := pack_le 8 false.
Definition pack_le_uint256 := pack_le 32 false.

(** Modelled from the spec: Bitcoin's varint, 1, 3, 5 or 9 bytes with a
    lead discriminator. *)
Definition pack_varint (n : Z) : option bytes :=
  if n <? 253 then pack_le 1 false n
  else if n <? 65536 then option_map (cons (z2b 253)) (pack_le_uint16 n)
  else if n <? 4294967296 then option_map (cons (z2b 254)) (pack_le_uint32 n)
  else option_map (cons (z2b 255)) (pack_le_uint64 n).

(** Modelled from the spec: varbytes, a varint length followed by that
    many bytes. *)
Definition pack_varbytes (data : bytes) : option bytes :=
  option_map (fun l => l ++ data) (pack_varint (len data)).

(* ================================================================= *)
(** * [electrumx.lib.script]: the opcode table *)

(** Modelled from the spec: [electrumx/lib/enum.py] is not among the
    sources.  [Enumeration] numbers the names in order, a pair
    [(name, value)] resetting the counter; the assertions of [script.py]
    and the values of the spec fix the numbering. *)
Inductive enum_entry : Type :=
| Auto (name : string)
| Fixed (name : string) (value : Z).

Fixpoint Enumeration (next : Z) (l : list enum_entry) : list (string * Z) :=
  match l with
  | [] => []
  | Auto x :: r => (x, next) :: Enumeration (next + 1) r
  | Fixed x i :: r => (x, i) :: Enumeration (i + 1) r
  end.

Fixpoint enum_lookup (t : list (string * Z)) (name : string) : Z :=
  match t with
  | [] => -1
  | (x, i) :: r => if String.eqb x name then i else enum_lookup r name
  end.

Definition OpCodes : list (string * Z) := Eval vm_compute in
  Enumeration 0 (List.app
   [Fixed "OP_0" 0; Fixed "OP_PUSHDATA1" 76;
    Auto "OP_PUSHDATA2"; Auto "OP_PUSHDATA4"; Auto "OP_1NEGATE";
    Auto "OP_RESERVED";
    Auto "OP_1"; Auto "OP_2"; Auto "OP_3"; Auto "OP_4"; Auto "OP_5";
    Auto "OP_6"; Auto "OP_7"; Auto "OP_8";
    Auto "OP_9"; Auto "OP_10"; Auto "OP_11"; Auto "OP_12"; Auto "OP_13";
    Auto "OP_14"; Auto "OP_15"; Auto "OP_16";
    Auto "OP_NOP"; Auto "OP_VER"; Auto "OP_IF"; Auto "OP_NOTIF";
    Auto "OP_VERIF"; Auto "OP_VERNOTIF";
    Auto "OP_ELSE"; Auto "OP_ENDIF"; Auto "OP_VERIFY"; Auto "OP_RETURN";
    Auto "OP_TOALTSTACK"; Auto "OP_FROMALTSTACK"; Auto "OP_2DROP";
    Auto "OP_2DUP"; Auto "OP_3DUP";
    Auto "OP_2OVER"; Auto "OP_2ROT"; Auto "OP_2SWAP"; Auto "OP_IFDUP";
    Auto "OP_DEPTH"; Auto "OP_DROP";
    Auto "OP_DUP"; Auto "OP_NIP"; Auto "OP_OVER"; Auto "OP_PICK";
    Auto "OP_ROLL"; Auto "OP_ROT";
    Auto "OP_SWAP"; Auto "OP_TUCK";
    Auto "OP_CAT"; Auto "OP_SUBSTR"; Auto "OP_LEFT"; Auto "OP_RIGHT";
    Auto "OP_SIZE";
    Auto "OP_INVERT"; Auto "OP_AND"; Auto "OP_OR"; Auto "OP_XOR";
    Auto "OP_EQUAL"; Auto "OP_EQUALVERIFY";
    Auto "OP_RESERVED1"; Auto "OP_RESERVED2";
    Auto "OP_1ADD"; Auto "OP_1SUB"; Auto "OP_2MUL"; Auto "OP_2DIV";
    Auto "OP_NEGATE"; Auto "OP_ABS";
    Auto "OP_NOT"; Auto "OP_0NOTEQUAL"; Auto "OP_ADD"; Auto "OP_SUB";
    Auto "OP_MUL"; Auto "OP_DIV"; Auto "OP_MOD";
    Auto "OP_LSHIFT"; Auto "OP_RSHIFT"; Auto "OP_BOOLAND"; Auto "OP_BOOLOR";
    Auto "OP_NUMEQUAL";
    Auto "OP_NUMEQUALVERIFY"; Auto "OP_NUMNOTEQUAL"; Auto "OP_LESSTHAN";
    Auto "OP_GREATERTHAN";
    Auto "OP_LESSTHANOREQUAL"; Auto "OP_GREATERTHANOREQUAL"; Auto "OP_MIN";
    Auto "OP_MAX";
    Auto "OP_WITHIN";
    Auto "OP_RIPEMD160"; Auto "OP_SHA1"; Auto "OP_SHA256"; Auto "OP_HASH160";
    Auto "OP_HASH256";
    Auto "OP_CODESEPARATOR"; Auto "OP_CHECKSIG"; Auto "OP_CHECKSIGVERIFY";
    Auto "OP_CHECKMULTISIG";
    Auto "OP_CHECKMULTISIGVERIFY";
    Auto "OP_NOP1";
    Auto "OP_CHECKLOCKTIMEVERIFY"; Auto "OP_CHECKSEQUENCEVERIFY"]
   [Fixed "OP_CHECKDATASIG" 186;
    Fixed "OP_CHECKDATASIGVERIFY" 187;
    Fixed "OP_REVERSEBYTES" 188;
    Fixed "OP_STATESEPERATOR" 189;
    Fixed "OP_STATESEPERATORINDEX_UTXO" 190;
    Fixed "OP_STATESEPERATORINDEX_OUTPUT" 191;
    Fixed "OP_PUSHINPUTREF" 208;
    Fixed "OP_REQUIREINPUTREF" 209;
    Fixed "OP_DISALLOWPUSHINPUTREF" 210;
    Fixed "OP_DISALLOWPUSHINPUTREFSIBLING" 211;
    Fixed "OP_REFHASHDATASUMMARY_UTXO" 212;
    Fixed "OP_REFHASHVALUESUM_UTXOS" 213;
    Fixed "OP_REFHASHDATASUMMARY_OUTPUT" 214;
    Fixed "OP_REFHASHVALUESUM_OUTPUTS" 215;
    Fixed "OP_PUSHINPUTREFSINGLETON" 216;
    Fixed "OP_REFTYPE_UTXO" 217;
    Fixed "OP_REFTYPE_OUTPUT" 218;
    Fixed "OP_REFVALUESUM_UTXOS" 219;
    Fixed "OP_REFVALUESUM_OUTPUTS" 220;
    Fixed "OP_REFOUTPUTCOUNT_UTXOS" 221;
    Fixed "OP_REFOUTPUTCOUNT_OUTPUTS" 222;
    Fixed "OP_REFOUTPUTCOUNTZEROVALUED_UTXOS" 223;
    Fixed "OP_REFOUTPUTCOUNTZEROVALUED_OUTPUTS" 224;
    Fixed "OP_REFDATASUMMARY_UTXO" 225;
    Fixed "OP_REFDATASUMMARY_OUTPUT" 226;
    Fixed "OP_CODESCRIPTHASHVALUESUM_UTXOS" 227;
    Fixed "OP_CODESCRIPTHASHVALUESUM_OUTPUTS" 228;
    Fixed "OP_CODESCRIPTHASHOUTPUTCOUNT_UTXOS" 229;
    Fixed "OP_CODESCRIPTHASHOUTPUTCOUNT_OUTPUTS" 230;
    Fixed "OP_CODESCRIPTHASHZEROVALUEDOUTPUTCOUNT_UTXOS" 231;
    Fixed "OP_CODESCRIPTHASHZEROVALUEDOUTPUTCOUNT_OUTPUTS" 232;
    Fixed "OP_CODESCRIPTBYTECODE_UTXO" 233;
    Fixed "OP_CODESCRIPTBYTECODE_OUTPUT" 234;
    Fixed "OP_STATESCRIPTBYTECODE_UTXO" 235;
    Fixed "OP_STATESCRIPTBYTECODE_OUTPUT" 236;
    Fixed "OP_PUSH_TX_STATE" 237]).

Definition OP_PUSHDATA1 : Z := Eval vm_compute in enum_lookup OpCodes "OP_PUSHDATA1".
Definition OP_PUSHDATA2 : Z := Eval vm_compute in enum_lookup OpCodes "OP_PUSHDATA2".
Definition OP_PUSHDATA4 : Z := Eval vm_compute in enum_lookup OpCodes "OP_PUSHDATA4".
Definition OP_RETURN : Z := Eval vm_compute in enum_lookup OpCodes "OP_RETURN".
Definition OP_CHECKSIG : Z := Eval vm_compute in enum_lookup OpCodes "OP_CHECKSIG".
Definition OP_CHECKSIGVERIFY : Z :=
  Eval vm_compute in enum_lookup OpCodes "OP_CHECKSIGVERIFY".
Definition OP_CHECKMULTISIG : Z :=
  Eval vm_compute in enum_lookup OpCodes "OP_CHECKMULTISIG".
Definition OP_CHECKMULTISIGVERIFY : Z :=
  Eval vm_compute in enum_lookup OpCodes "OP_CHECKMULTISIGVERIFY".
Definition OP_PUSHINPUTREF : Z :=
  Eval vm_compute in enum_lookup OpCodes "OP_PUSHINPUTREF".
Definition OP_REQUIREINPUTREF : Z :=
  Eval vm_compute in enum_lookup OpCodes "OP_REQUIREINPUTREF".
Definition OP_DISALLOWPUSHINPUTREF : Z :=
  Eval vm_compute in enum_lookup OpCodes "OP_DISALLOWPUSHINPUTREF".
Definition OP_DISALLOWPUSHINPUTREFSIBLING : Z :=
  Eval vm_compute in enum_lookup OpCodes "OP_DISALLOWPUSHINPUTREFSIBLING".
Definition OP_PUSHINPUTREFSINGLETON : Z :=
  Eval vm_compute in enum_lookup OpCodes "OP_PUSHINPUTREFSINGLETON".

(** The "paranoia" assertions of [script.py], as one boolean. *)
Definition opcode_assertions : bool :=
  (enum_lookup OpCodes "OP_DUP" =? 0x76) &&
  (enum_lookup OpCodes "OP_HASH160" =? 0xa9) &&
  (enum_lookup OpCodes "OP_EQUAL" =? 0x87) &&
  (enum_lookup OpCodes "OP_EQUALVERIFY" =? 0x88) &&
  (OP_CHECKSIG =? 0xac) &&
  (OP_CHECKMULTISIG =? 0xae) &&
  (OP_PUSHINPUTREF =? 0xd0) &&
  (OP_REQUIREINPUTREF =? 0xd1) &&
  (OP_DISALLOWPUSHINPUTREF =? 0xd2) &&
  (OP_DISALLOWPUSHINPUTREFSIBLING =? 0xd3) &&
  (OP_PUSHINPUTREFSINGLETON =? 0xd8) &&
  (enum_lookup OpCodes "OP_PUSH_TX_STATE" =? 0xed).

(* ================================================================= *)
(** * [electrumx.lib.script]: the script walker *)

(** [while cond: body] over a loop state; [body] returns [None] when the
    iteration raises. *)
Section While.
Context {S : Type}.
Variable cond : S -> bool.
Variable body : S -> option S.

Fixpoint while (fuel : nat) (s : S) : outcome unit S :=
  if cond s then
    match fuel with
    | O => OutOfFuel
    | Datatypes.S fuel' =>
        match body s with
        | Some s' => while fuel' s'
        | None => Raised tt
        end
    end
  else Done s.

(** The states in which the iterations of a run start. *)
Fixpoint trace (fuel : nat) (s : S) : list S :=
  if cond s then
    match fuel with
    | O => []
    | Datatypes.S fuel' =>
        s :: match body s with
             | Some s' => trace fuel' s'
             | None => []
             end
    end
  else [].

(** One iteration, and any number of iterations. *)
Definition iter_step (s s' : S) : Prop := cond s = true /\ body s = Some s'.

Inductive iter_steps : S -> S -> Prop :=
| iter_refl (s : S) : iter_steps s s
| iter_more (s s1 s2 : S) :
    iter_step s s1 -> iter_steps s1 s2 -> iter_steps s s2.
End While.

(** An element of the list returned by [get_ops]: an opcode [int], or a
    tuple [(op, data)]. *)
Inductive op_item : Type :=
| Bare (op : Z)
| Push (op : Z) (data : bytes).

(** The test [op == OP_PUSHINPUTREF or op == OP_REQUIREINPUTREF or ...]
    that the three walkers share. *)
Definition is_ref_opcode (op : Z) : bool :=
  (op =? OP_PUSHINPUTREF) || (op =? OP_REQUIREINPUTREF) ||
  (op =? OP_DISALLOWPUSHINPUTREF) || (op =? OP_DISALLOWPUSHINPUTREFSIBLING) ||
  (op =? OP_PUSHINPUTREFSINGLETON).

(** The [if/elif] chain that computes [dlen] under [op <= OP_PUSHDATA4],
    returning [(dlen, n)].  [otherwise] stands for what follows the
    [OP_PUSHDATA4] branch: a further [elif] in [get_ops], nothing in the
    other two walkers (where [dlen] would then be unbound).  Under
    [op <= OP_PUSHDATA4] one of the four tests holds and [otherwise] is
    not reached (lemma [pushdata_dlen_otherwise]). *)
Definition pushdata_dlen (script : bytes) (op n : Z)
    (otherwise : option (Z * Z)) : option (Z * Z) :=
  if op <? OP_PUSHDATA1 then Some (op, n)
  else if op =? OP_PUSHDATA1 then
    dlen <- byte_at script n ;;
    Some (dlen, n + 1)
  else if op =? OP_PUSHDATA2 then
    dlen <- to_option (unpack_le_uint16_from (slice script n (n + 2)) 0) ;;
    Some (dlen, n + 2)
  else if op =? OP_PUSHDATA4 then
    dlen <- to_option (unpack_le_uint32_from (slice script n (n + 4)) 0) ;;
    Some (dlen, n + 4)
  else otherwise.

(** ** [Script.get_ops] *)

(** Loop state of [get_ops]: the cursor [n] and the list [ops]. *)
Definition get_ops_body (script : bytes) (st : Z * list op_item)
  : option (Z * list op_item) :=
  let '(n, ops) := st in
  op <- byte_at script n ;;
  let n := n + 1 in
  if op <=? OP_PUSHDATA4 then
    (* Raw bytes follow *)
    '(dlen, n) <- pushdata_dlen script op n
                    (if is_ref_opcode op then Some (36, n) else None) ;;
    if n + dlen >? len script then None
    else Some (n + dlen, ops ++ [Push op (slice script n (n + dlen))])
  else Some (n, ops ++ [Bare op]).

Definition get_ops_cond (script : bytes) (st : Z * list op_item) : bool :=
  fst st <? len script.

Definition get_ops_fuel (fuel : nat) (script : bytes)
  : outcome script_exn (list op_item) :=
  match while (get_ops_cond script) (get_ops_body script) fuel (0, []) with
  | Done st => Done (snd st)
  | Raised _ => Raised (ScriptError "truncated script")
  | OutOfFuel => OutOfFuel
  end.

Definition get_ops (script : bytes) : outcome script_exn (list op_item) :=
  get_ops_fuel (length script) script.

(** ** [Script.get_push_input_refs] *)

Record refs_state : Type := mk_refs_state {
  rs_n : Z;
  all_refs : list bytes;
  normal_refs : list bytes;
  singleton_refs : list bytes
}.

Definition get_push_input_refs_body (script : bytes) (st : refs_state)
  : option refs_state :=
  let n := rs_n st in
  op <- byte_at script n ;;
  let n := n + 1 in
  n <- (if op <=? OP_PUSHDATA4 then
          (* Raw bytes follow *)
          '(dlen, n) <- pushdata_dlen script op n None ;;
          if n + dlen >? len script then None else Some (n + dlen)
        else Some n) ;;
  if is_ref_opcode op then
    let dlen := 36 in
    let '(all, normal, singleton) :=
      if (op =? OP_PUSHINPUTREF) || (op =? OP_PUSHINPUTREFSINGLETON) then
        let ref := slice script n (n + dlen) in
        if op =? OP_PUSHINPUTREF then
          (all_refs st ++ [ref], normal_refs st ++ [ref], singleton_refs st)
        else if op =? OP_PUSHINPUTREFSINGLETON then
          (all_refs st ++ [ref], normal_refs st, singleton_refs st ++ [ref])
        else (all_refs st ++ [ref], normal_refs st, singleton_refs st)
      else (all_refs st, normal_refs st, singleton_refs st) in
    if n + dlen >? len script then None
    else Some (mk_refs_state (n + dlen) all normal singleton)
  else Some (mk_refs_state n (all_refs st) (normal_refs st) (singleton_refs st)).

Definition get_push_input_refs_cond (script : bytes) (st : refs_state) : bool :=
  rs_n st <? len script.

Definition get_push_input_refs_fuel (fuel : nat) (script : bytes)
  : outcome script_exn (list bytes * list bytes * list bytes) :=
  match while (get_push_input_refs_cond script)
              (get_push_input_refs_body script) fuel
              (mk_refs_state 0 [] [] []) with
  | Done st => Done (all_refs st, normal_refs st, singleton_refs st)
  | Raised _ => Raised (ScriptError "get_push_input_refs script")
  | OutOfFuel => OutOfFuel
  end.

Definition get_push_input_refs (script : bytes)
  : outcome script_exn (list bytes * list bytes * list bytes) :=
  get_push_input_refs_fuel (length script) script.

(** ** [Script.zero_refs] *)

Record zero_state : Type := mk_zero_state {
  zs_n : Z;
  zs_ops : bytes;
  requires_sig : bool
}.

Definition is_sig_opcode (op : Z) : bool :=
  (op =? OP_CHECKSIG) || (op =? OP_CHECKSIGVERIFY) ||
  (op =? OP_CHECKMULTISIG) || (op =? OP_CHECKMULTISIGVERIFY).

Definition zero_refs_body (script : bytes) (st : zero_state)
  : option zero_state :=
  let n := zs_n st in
  op <- byte_at script n ;;
  let ops := zs_ops st ++ [z2b op] in
  let n := n + 1 in
  (* Refs are only zeroed when a check sig opcode is used *)
  let requires_sig := if is_sig_opcode op then true else requires_sig st in
  '(n, ops) <- (if op <=? OP_PUSHDATA4 then
                  (* Raw bytes follow *)
                  '(dlen, n) <- pushdata_dlen script op n None ;;
                  if n + dlen >? len script then None
                  else Some (n + dlen, ops ++ slice script n (n + dlen))
                else Some (n, ops)) ;;
  if is_ref_opcode op then
    let dlen := 36 in
    if n + dlen >? len script then None
    else Some (mk_zero_state (n + dlen) (ops ++ zero_bytes 36) requires_sig)
  else Some (mk_zero_state n ops requires_sig).

Definition zero_refs_cond (script : bytes) (st : zero_state) : bool :=
  zs_n st <? len script.

(** The state in which the loop of [zero_refs] ends. *)
Definition zero_refs_walk (fuel : nat) (script : bytes)
  : outcome unit zero_state :=
  while (zero_refs_cond script) (zero_refs_body script) fuel
        (mk_zero_state 0 [] false).

Definition zero_refs_fuel (fuel : nat) (script : bytes)
  : outcome script_exn bytes :=
  match zero_refs_walk fuel script with
  | Done st => Done (if requires_sig st then zs_ops st else script)
  | Raised _ => Raised (ScriptError "truncated script")
  | OutOfFuel => OutOfFuel
  end.

Definition zero_refs (script : bytes) : outcome script_exn bytes :=
  zero_refs_fuel (length script) script.

(** ** Opcode positions *)

(** Where the cursor of [zero_refs] and [get_push_input_refs] stands
    after the iteration that starts at [n]: past the opcode, a push
    payload with its length bytes, and the 36 bytes of a reference.
    [None] when that iteration raises. *)
Definition next_opcode (script : bytes) (n : Z) : option Z :=
  op <- byte_at script n ;;
  let n := n + 1 in
  n <- (if op <=? OP_PUSHDATA4 then
          '(dlen, n) <- pushdata_dlen script op n None ;;
          if n + dlen >? len script then None else Some (n + dlen)
        else Some n) ;;
  if is_ref_opcode op then
    if n + 36 >? len script then None else Some (n + 36)
  else Some n.

(** The positions that the cursor of those walkers takes: 0, and the
    position after an iteration that starts at such a position inside
    the script. *)
Definition opcode_position (script : bytes) (n : Z) : Prop :=
  iter_steps (fun n => n <? len script) (next_opcode script) 0 n.

(** The positions at which those walkers read an opcode, in order. *)
Definition opcode_positions (script : bytes) : list Z :=
  trace (fun n => n <? len script) (next_opcode script) (length script) 0.

(** ** Vocabulary of the statements about the walker *)

Definition item_opcode (it : op_item) : Z :=
  match it with
  | Bare op => op
  | Push op _ => op
  end.

(** The opcode byte of an op-item followed by its payload, if any. *)
Definition item_bytes (it : op_item) : bytes :=
  match it with
  | Bare op => [z2b op]
  | Push op data => z2b op :: data
  end.

Definition is_pushdata_opcode (op : Z) : bool :=
  (op =? OP_PUSHDATA1) || (op =? OP_PUSHDATA2) || (op =? OP_PUSHDATA4).

(** The length bytes that stand between a push opcode and a payload of
    [dlen] bytes: none below [OP_PUSHDATA1], else 1, 2 or 4 bytes. *)
Definition length_prefix (op dlen : Z) : bytes :=
  if op =? OP_PUSHDATA1 then le_encode 1 dlen
  else if op =? OP_PUSHDATA2 then le_encode 2 dlen
  else if op =? OP_PUSHDATA4 then le_encode 4 dlen
  else [].

(** The bytes of the script that an op-item was read from. *)
Definition item_wire (it : op_item) : bytes :=
  match it with
  | Bare op => [z2b op]
  | Push op data => z2b op :: length_prefix op (len data) ++ data
  end.

(** A signature-check opcode stands at an opcode position. *)
Definition has_sig_opcode (script : bytes) : Prop :=
  exists n op, opcode_position script n /\ byte_at script n = Some op /\
               is_sig_opcode op = true.

(** [l] merges [l1] and [l2], keeping the order of each. *)
Inductive Interleave {A : Type} : list A -> list A -> list A -> Prop :=
| interleave_nil : Interleave [] [] []
| interleave_left (x : A) (l1 l2 l : list A) :
    Interleave l1 l2 l -> Interleave (x :: l1) l2 (x :: l)
| interleave_right (x : A) (l1 l2 l : list A) :
    Interleave l1 l2 l -> Interleave l1 (x :: l2) (x :: l).

(** The opcode [op] stands at position [n]. *)
Definition opcode_at (script : bytes) (op n : Z) : bool :=
  match byte_at script n with
  | Some o => o =? op
  | None => false
  end.

(** The 36 bytes that follow the opcode at position [n]. *)
Definition ref_payload (script : bytes) (n : Z) : bytes :=
  slice script (n + 1) (n + 37).

(* ================================================================= *)
(** * [electrumx.lib.script]: predicates, templates and [push_data] *)

(** [a == b] on [bytes]. *)
Fixpoint bytes_eqb (a b : bytes) : bool :=
  match a, b with
  | [], [] => true
  | x :: a', y :: b' => Byte.eqb x y && bytes_eqb a' b'
  | _, _ => false
  end.

Definition OP_DUP : Z := Eval vm_compute in enum_lookup OpCodes "OP_DUP".
Definition OP_HASH160 : Z := Eval vm_compute in enum_lookup OpCodes "OP_HASH160".
Definition OP_EQUAL : Z := Eval vm_compute in enum_lookup OpCodes "OP_EQUAL".
Definition OP_EQUALVERIFY : Z :=
  Eval vm_compute in enum_lookup OpCodes "OP_EQUALVERIFY".

(** [is_unspendable_legacy] and [is_unspendable_genesis], as the truth
    value of what they return ([script and ...] returns the empty script
    itself, which is false, when the script is empty). *)
Definition is_unspendable_legacy (script : bytes) : bool :=
  bytes_eqb (slice script 0 2) [x00; x6a] ||
  (negb (len script =? 0) &&
   match byte_at script 0 with
   | Some b => b =? 0x6a
   | None => false
   end).

Definition is_unspendable_genesis (script : bytes) : bool :=
  bytes_eqb (slice script 0 2) [x00; x6a].

(** [pop != op], for a pattern element (an [int]) and an op-item: an
    [int] never equals a tuple. *)
Definition pattern_differs (pop : Z) (op : op_item) : bool :=
  match op with
  | Bare o => negb (pop =? o)
  | Push _ _ => true
  end.

(** [isinstance(op, tuple)] *)
Definition is_tuple (op : op_item) : bool :=
  match op with
  | Bare _ => false
  | Push _ _ => true
  end.

(** The loop of [_match_ops] over [zip(ops, pattern)]. *)
Fixpoint _match_ops_zip (ops : list op_item) (pattern : list Z) : bool :=
  match ops, pattern with
  | op :: ops', pop :: pattern' =>
      if pattern_differs pop op then
        (* -1 means 'data push', whose op is an (op, data) tuple *)
        if (pop =? -1) && is_tuple op then _match_ops_zip ops' pattern'
        else false
      else _match_ops_zip ops' pattern'
  | _, _ => true
  end.

Definition _match_ops (ops : list op_item) (pattern : list Z) : bool :=
  if negb (len ops =? len pattern) then false
  else _match_ops_zip ops pattern.

Definition TO_ADDRESS_OPS : list Z :=
  [OP_DUP; OP_HASH160; -1; OP_EQUALVERIFY; OP_CHECKSIG].
Definition TO_P2SH_OPS : list Z := [OP_HASH160; -1; OP_EQUAL].
Definition TO_PUBKEY_OPS : list Z := [-1; OP_CHECKSIG].

(** [Script.push_data]; [None] is the [struct.error] of
    [pack_le_uint32] on a length of [2^32] or more. *)
Definition push_data (data : bytes) : option bytes :=
  let n := len data in
  if n <? OP_PUSHDATA1 then Some ([z2b n] ++ data)
  else if n <? 256 then Some ([z2b OP_PUSHDATA1; z2b n] ++ data)
  else if n <? 65536 then
    p <- pack_le_uint16 n ;;
    Some ([z2b OP_PUSHDATA2] ++ p ++ data)
  else
    p <- pack_le_uint32 n ;;
    Some ([z2b OP_PUSHDATA4] ++ p ++ data).

Definition P2SH_script (hash160 : bytes) : option bytes :=
  p <- push_data hash160 ;;
  Some ([z2b OP_HASH160] ++ p ++ [z2b OP_EQUAL]).

Definition P2PKH_script (hash160 : bytes) : option bytes :=
  p <- push_data hash160 ;;
  Some ([z2b OP_DUP; z2b OP_HASH160] ++ p
        ++ [z2b OP_EQUALVERIFY; z2b OP_CHECKSIG]).

(** The op-items that [get_ops] can return: a bare opcode is above
    [OP_PUSHDATA4]; a pair has a push opcode, and a payload whose length
    is the opcode itself below [OP_PUSHDATA1] and fits the 1, 2 or 4
    length bytes otherwise. *)
Definition valid_item (it : op_item) : Prop :=
  match it with
  | Bare op => OP_PUSHDATA4 < op < 256
  | Push op data =>
      0 <= op <= OP_PUSHDATA4 /\
      (op < OP_PUSHDATA1 -> len data = op) /\
      (op = OP_PUSHDATA1 -> len data < 256) /\
      (op = OP_PUSHDATA2 -> len data < 65536) /\
      (op = OP_PUSHDATA4 -> len data < 4294967296)
  end.

(** The opcode that [push_data] chooses for a payload of [n] bytes. *)
Definition push_opcode (n : Z) : Z :=
  if n <? OP_PUSHDATA1 then n
  else if n <? 256 then OP_PUSHDATA1
  else if n <? 65536 then OP_PUSHDATA2
  else OP_PUSHDATA4.

(** An iteration of the walk of [zero_refs] and [get_push_input_refs]
    that raises starts at some opcode position. *)
Definition truncated (script : bytes) : Prop :=
  exists n, opcode_position script n /\ n < len script /\
            next_opcode script n = None.

(** The end of the iteration of [zero_refs] that starts at [n], and the
    bytes that this iteration walks over. *)
Definition segment_end (script : bytes) (n : Z) : Z :=
  match next_opcode script n with
  | Some n' => n'
  | None => n
  end.

Definition segment (script : bytes) (n : Z) : bytes :=
  slice script n (segment_end script n).

(** The segment with the 36 bytes after a reference opcode replaced by
    zeros. *)
Definition zeroed_segment (script : bytes) (n : Z) : bytes :=
  if match byte_at script n with
     | Some op => is_ref_opcode op
     | None => false
     end
  then slice script n (n + 1) ++ zero_bytes 36
  else segment script n.

(* ================================================================= *)
(** * [electrumx.lib.tx]: the records and their serializers *)

Record TxInput : Type := mk_TxInput {
  prev_hash : bytes;
  prev_idx : Z;
  script : bytes;
  sequence : Z
}.

Record TxOutPoint : Type := mk_TxOutPoint {
  hash : bytes;
  index : Z
}.

(** [TxContractOutput(type, outpoint, value, max_supply, metadata)]; the
    fields [type] and [value] carry a prefix here because [TxOutput] has
    a [value] of its own. *)
Record TxContractOutput : Type := mk_TxContractOutput {
  contract_type : Z;
  outpoint : TxOutPoint;
  contract_value : Z;
  max_supply : Z;
  metadata : bytes
}.

Record TxOutput : Type := mk_TxOutput {
  value : Z;
  pk_script : bytes;
  contract : option TxContractOutput
}.

Record Tx : Type := mk_Tx {
  version : Z;
  inputs : list TxInput;
  outputs : list TxOutput;
  locktime : Z
}.

(** [b''.join((p1, ..., pk))], where building any part may raise. *)
Fixpoint join (parts : list (option bytes)) : option bytes :=
  match parts with
  | [] => Some []
  | p :: r =>
      b <- p ;;
      bs <- join r ;;
      Some (b ++ bs)
  end.

Definition TxInput_serialize (i : TxInput) : option bytes :=
  join [ Some (prev_hash i);
         pack_le_uint32 (prev_idx i);
         pack_varbytes (script i);
         pack_le_uint32 (sequence i) ].

Definition TxOutPoint_serialize (o : TxOutPoint) : option bytes :=
  join [ Some (hash o); pack_le_uint32 (index o) ].

Definition TxContractOutput_serialize (c : TxContractOutput) : option bytes :=
  join [ pack_le_uint64 (contract_type c);
         TxOutPoint_serialize (outpoint c);
         pack_le_uint256 (contract_value c);
         pack_le_uint256 (max_supply c);
         pack_varbytes (metadata c) ].

Definition TxOutput_serialize (o : TxOutput) : option bytes :=
  match contract o with
  | Some c =>
      join [ TxContractOutput_serialize c;
             pack_le_uint64 (value o);
             pack_varbytes (pk_script o) ]
  | None =>
      join [ pack_le_int64 (value o);
             pack_varbytes (pk_script o) ]
  end.

Definition Tx_serialize (tx : Tx) : option bytes :=
  join [ pack_le_int32 (version tx);
         pack_varint (len (inputs tx));
         join (map TxInput_serialize (inputs tx));
         pack_varint (len (outputs tx));
         join (map TxOutput_serialize (outputs tx));
         pack_le_uint32 (locktime tx) ].

(* ================================================================= *)
(** * [electrumx.lib.tx]: the [Deserializer] *)

(** A method of [Deserializer]: it reads [self.binary], starts at
    [self.cursor], and returns a value and the new cursor, or raises. *)
Definition reader (A : Type) : Type := bytes -> Z -> outcome exn (A * Z).

Definition ret {A : Type} (a : A) : reader A := fun _ cursor => Done (a, cursor).

Definition rbind {A B : Type} (m : reader A) (k : A -> reader B) : reader B :=
  fun binary cursor =>
    match m binary cursor with
    | Done (a, cursor') => k a binary cursor'
    | Raised e => Raised e
    | OutOfFuel => OutOfFuel
    end.

Notation "x <~ e ;; k" := (rbind e (fun x => k))
  (at level 61, e at next level, right associativity).

Definition get_cursor : reader Z := fun _ cursor => Done (cursor, cursor).
Definition set_cursor (c : Z) : reader unit := fun _ _ => Done (tt, c).
Definition get_binary : reader bytes := fun binary cursor => Done (binary, cursor).
Definition out_of_fuel {A : Type} : reader A := fun _ _ => OutOfFuel.

Definition lift {A : Type} (r : result exn A) : reader A :=
  fun _ cursor =>
    match r with
    | Ok a => Done (a, cursor)
    | Err e => Raised e
    end.

(** [result, = unpack(self.binary, self.cursor); self.cursor += w]. *)
Definition read_unpacked (unpack : bytes -> Z -> result exn Z) (w : Z) : reader Z :=
  fun binary cursor =>
    match unpack binary cursor with
    | Ok v => Done (v, cursor + w)
    | Err e => Raised e
    end.

Definition _read_le_int32 : reader Z := read_unpacked unpack_le_int32_from 4.
Definition _read_le_int64 : reader Z := read_unpacked unpack_le_int64_from 8.
Definition _read_le_uint16 : reader Z := read_unpacked unpack_le_uint16_from 2.
Definition _read_le_uint32 : reader Z := read_unpacked unpack_le_uint32_from 4.
Definition _read_le_uint64 : reader Z := read_unpacked unpack_le_uint64_from 8.
Definition _read_uint256 : reader Z := read_unpacked unpack_le_uint256_from 32.

Definition _read_byte : reader Z :=
  fun binary cursor =>
    match byte_at binary cursor with
    | Some b => Done (b, cursor + 1)
    | None => Raised IndexError
    end.

Definition _read_nbytes (n : Z) : reader bytes :=
  fun binary cursor =>
    let end_ := cursor + n in
    if len binary >=? end_ then Done (slice binary cursor end_, end_)
    else Raised AssertionError.

Definition _read_varint : reader Z :=
  fun binary cursor =>
    match byte_at binary cursor with
    | None => Raised IndexError
    | Some n =>
        let cursor := cursor + 1 in
        if n <? 253 then Done (n, cursor)
        else if n =? 253 then _read_le_uint16 binary cursor
        else if n =? 254 then _read_le_uint32 binary cursor
        else _read_le_uint64 binary cursor
    end.

Definition _read_varbytes : reader bytes :=
  n <~ _read_varint ;; _read_nbytes n.

(** [[read() for _ in range(count)]].  Every [read] of the module
    consumes at least one byte, so a fuel of [len(binary)] is never
    exhausted (lemma [read_all_advances] below). *)
Fixpoint read_list {A : Type} (read : reader A) (fuel : nat) (count : Z)
  : reader (list A) :=
  if count <=? 0 then ret []
  else
    x <~ read ;;
    match fuel with
    | O => out_of_fuel
    | S fuel' =>
        xs <~ read_list read fuel' (count - 1) ;;
        ret (x :: xs)
    end.

Definition read_all {A : Type} (read : reader A) (count : Z) : reader (list A) :=
  fun binary cursor => read_list read (length binary) count binary cursor.

Definition _read_input : reader TxInput :=
  h <~ _read_nbytes 32 ;;
  i <~ _read_le_uint32 ;;
  s <~ _read_varbytes ;;
  q <~ _read_le_uint32 ;;
  ret (mk_TxInput h i s q).

Definition _read_inputs : reader (list TxInput) :=
  count <~ _read_varint ;; read_all _read_input count.

Definition _read_outpoint : reader TxOutPoint :=
  h <~ _read_nbytes 32 ;;
  i <~ _read_le_uint32 ;;
  ret (mk_TxOutPoint h i).

Definition _read_contract_out : reader TxContractOutput :=
  t <~ _read_le_uint64 ;;
  o <~ _read_outpoint ;;
  v <~ _read_uint256 ;;
  m <~ _read_uint256 ;;
  d <~ _read_varbytes ;;
  ret (mk_TxContractOutput t o v m d).

Section Deserializer.
(** [CONTRACT_FLAG] and [MAX_CONTRACT_TYPE] are imported from
    [electrumx.lib.util], which is not among the sources; [sha256] and
    [double_sha256] come from [electrumx.lib.hash]. *)
Variable CONTRACT_FLAG : Z.
Variable MAX_CONTRACT_TYPE : Z.
Variable sha256 : bytes -> bytes.
Variable double_sha256 : bytes -> bytes.

(** [contract_type & CONTRACT_FLAG and MAX_CONTRACT_TYPE >= contract_type],
    as a truth value. *)
Definition is_contract (contract_type : Z) : bool :=
  negb (Z.land contract_type CONTRACT_FLAG =? 0) &&
  (MAX_CONTRACT_TYPE >=? contract_type).

Definition _read_output : reader TxOutput :=
  _cursor <~ get_cursor ;;
  contract_type <~ _read_le_uint64 ;;
  _ <~ set_cursor _cursor ;;
  contract_out <~ (if is_contract contract_type
                   then c <~ _read_contract_out ;; ret (Some c)
                   else ret None) ;;
  v <~ _read_le_int64 ;;
  s <~ _read_varbytes ;;
  ret (mk_TxOutput v s contract_out).

Definition _read_outputs : reader (list TxOutput) :=
  count <~ _read_varint ;; read_all _read_output count.

Definition read_tx : reader Tx :=
  v <~ _read_le_int32 ;;
  i <~ _read_inputs ;;
  o <~ _read_outputs ;;
  l <~ _read_le_uint32 ;;
  ret (mk_Tx v i o l).

(** A packer used while hashing: its [struct.error] propagates. *)
Definition packed (p : option bytes) : result exn bytes :=
  match p with
  | Some b => Ok b
  | None => Err StructError
  end.

Definition ebind {A B : Type} (r : result exn A) (k : A -> result exn B)
  : result exn B :=
  match r with
  | Ok a => k a
  | Err e => Err e
  end.

Notation "x <-! e ;; k" := (ebind e (fun x => k))
  (at level 61, e at next level, right associativity).

Definition get_hashinputs (tx : Tx) : result exn bytes :=
  inputs <-! fold_left
    (fun acc txin =>
       inputs <-! acc ;;
       inputhash <-! packed (join [ Some (prev_hash txin);
                                    pack_le_uint32 (prev_idx txin);
                                    Some (sha256 (script txin));
                                    pack_le_uint32 (sequence txin) ]) ;;
       Ok (inputs ++ sha256 inputhash))
    (inputs tx) (Ok []) ;;
  Ok (sha256 inputs).

(** [get_state] returns [False] ([None] here) or the split point. *)
Definition get_state (script : bytes) : result exn (option Z) :=
  let pc := len script in
  (* opreturn + state + stateLen + version *)
  if len script <? 1 + 0 + 4 + 1 then Ok None
  else
    let pc := pc - 5 in
    stateLen <-! unpack_le_uint32_from (slice_from script pc) 0 ;;
    if len script <? 1 + stateLen + 4 + 1 then Ok None
    else
      let pc := pc - stateLen in
      match byte_at script (pc - 1) with
      | None => Err IndexError
      | Some b => if negb (b =? OP_RETURN) then Ok None else Ok (Some pc)
      end.

(** Truth value of what [get_state] returned, for [if pc:]. *)
Definition truthy (pc : option Z) : bool :=
  match pc with
  | Some z => negb (z =? 0)
  | None => false
  end.

(** The bytes hashed for one output in [get_hashoutputs], before the
    final [sha256(outputhash)]; the [print] of the split branch is left
    out. *)
Definition outputhash (txout : TxOutput) : result exn bytes :=
  outputhash <-! (match contract txout with
                  | Some c => packed (join [ TxContractOutput_serialize c ])
                  | None => Ok []
                  end) ;;
  outputhash <-! packed (join [ Some outputhash;
                                pack_le_uint64 (value txout);
                                Some (sha256 (pk_script txout)) ]) ;;
  pc <-! get_state (pk_script txout) ;;
  if truthy pc then
    let pc := match pc with Some z => z | None => 0 end in
    Ok (outputhash
        ++ sha256 (slice (pk_script txout) 0 pc)
        ++ sha256 (slice (pk_script txout) pc (len (pk_script txout))))
  else Ok outputhash.

Definition get_hashoutputs (tx : Tx) : result exn bytes :=
  outputs <-! fold_left
    (fun acc txout =>
       outputs <-! acc ;;
       oh <-! outputhash txout ;;
       Ok (outputs ++ sha256 oh))
    (outputs tx) (Ok []) ;;
  Ok (sha256 outputs).

Definition get_richtransaction (tx : Tx) : result exn bytes :=
  hashInputs <-! get_hashinputs tx ;;
  hashoutputs <-! get_hashoutputs tx ;;
  preimage <-! packed (join [ pack_le_uint32 (version tx);
                              pack_le_int32 (len (inputs tx));
                              Some hashInputs;
                              pack_le_int32 (len (outputs tx));
                              Some hashoutputs;
                              pack_le_uint32 (locktime tx) ]) ;;
  Ok (double_sha256 preimage).

Definition read_tx_and_hash : reader (Tx * bytes) :=
  start <~ get_cursor ;;
  the_tx <~ read_tx ;;
  if version the_tx =? 2 then
    h <~ lift (get_richtransaction the_tx) ;;
    ret (the_tx, h)
  else
    binary <~ get_binary ;;
    cursor <~ get_cursor ;;
    ret (the_tx, double_sha256 (slice binary start cursor)).

Definition read_tx_block : reader (list (Tx * bytes)) :=
  count <~ _read_varint ;; read_all read_tx_and_hash count.

End Deserializer.

(** [ZERO], [MINUS_1] and [TxInput.is_generation]. *)
Definition ZERO : bytes := zero_bytes 32.
Definition MINUS_1 : Z := 4294967295.

Definition is_generation (i : TxInput) : bool :=
  (prev_idx i =? MINUS_1) && bytes_eqb (prev_hash i) ZERO.

(** [read_tx_and_vsize]: the pair of the transaction and
    [self.binary_length]. *)
Definition read_tx_and_vsize (CONTRACT_FLAG MAX_CONTRACT_TYPE : Z)
  : reader (Tx * Z) :=
  tx <~ read_tx CONTRACT_FLAG MAX_CONTRACT_TYPE ;;
  binary <~ get_binary ;;
  ret (tx, len binary).

(** A fresh [Deserializer(binary)] starts at cursor 0. *)
Definition deserialize {A : Type} (m : reader A) (binary : bytes)
  : outcome exn (A * Z) := m binary 0.

(* ================================================================= *)
(** * Vocabulary of the statements about the [Deserializer] *)

(** [m], started at the first byte of [enc] inside any buffer, returns
    [a] and leaves the cursor behind the last byte of [enc]. *)
Definition reads {A : Type} (m : reader A) (enc : bytes) (a : A) : Prop :=
  forall pre post : bytes,
    m (pre ++ enc ++ post) (len pre) = Done (a, len pre + len enc).

(** [m], started at a cursor that is not negative, returns or raises
    (it does not run out of fuel); when it returns, the cursor has moved
    forward by [d] bytes at least and, if it has moved, is not beyond the
    end of the buffer. *)
Definition advances {A : Type} (d : Z) (m : reader A) : Prop :=
  forall (binary : bytes) (cursor : Z),
    0 <= cursor ->
    match m binary cursor with
    | Done (_, cursor') =>
        cursor + d <= cursor' /\ (cursor < cursor' -> cursor' <= len binary)
    | Raised _ => True
    | OutOfFuel => False
    end.

(** The value of 8 little-endian bytes read as a signed integer, for the
    unsigned value [v] of the same bytes. *)
Definition as_int64 (v : Z) : Z := if 2 ^ 63 <=? v then v - 2 ^ 64 else v.

Definition in_range (lo hi v : Z) : Prop := lo <= v < hi.

(** Records whose fields are in the range of the formats that their
    [serialize] packs them with. *)
Definition wf_input (i : TxInput) : Prop :=
  length (prev_hash i) = 32%nat /\
  in_range 0 (2 ^ 32) (prev_idx i) /\
  in_range 0 (2 ^ 64) (len (script i)) /\
  in_range 0 (2 ^ 32) (sequence i).

Definition wf_outpoint (o : TxOutPoint) : Prop :=
  length (hash o) = 32%nat /\ in_range 0 (2 ^ 32) (index o).

Definition wf_contract (c : TxContractOutput) : Prop :=
  in_range 0 (2 ^ 64) (contract_type c) /\
  wf_outpoint (outpoint c) /\
  in_range 0 (2 ^ 256) (contract_value c) /\
  in_range 0 (2 ^ 256) (max_supply c) /\
  in_range 0 (2 ^ 64) (len (metadata c)).

Section WellFormed.
Variable CONTRACT_FLAG : Z.
Variable MAX_CONTRACT_TYPE : Z.

(** A contract output carries a tag that satisfies the contract
    predicate and a value in the range of [pack_le_uint64]; an ordinary
    output has a value in the range of [pack_le_int64] whose 8 wire
    bytes, read as a tag, do not satisfy the predicate. *)
Definition wf_output (o : TxOutput) : Prop :=
  in_range 0 (2 ^ 64) (len (pk_script o)) /\
  match contract o with
  | Some c =>
      wf_contract c /\
      is_contract CONTRACT_FLAG MAX_CONTRACT_TYPE (contract_type c) = true /\
      in_range 0 (2 ^ 64) (value o)
  | None =>
      in_range (- 2 ^ 63) (2 ^ 63) (value o) /\
      is_contract CONTRACT_FLAG MAX_CONTRACT_TYPE (value o mod 2 ^ 64) = false
  end.

Definition wf_tx (tx : Tx) : Prop :=
  in_range (- 2 ^ 31) (2 ^ 31) (version tx) /\
  in_range 0 (2 ^ 64) (len (inputs tx)) /\
  Forall wf_input (inputs tx) /\
  in_range 0 (2 ^ 64) (len (outputs tx)) /\
  Forall wf_output (outputs tx) /\
  in_range 0 (2 ^ 32) (locktime tx).
End WellFormed.

(** What [_read_output] makes of a serialized output: the value of a
    contract output comes back through [_read_le_int64]. *)
Definition reread_output (o : TxOutput) : TxOutput :=
  match contract o with
  | Some c => mk_TxOutput (as_int64 (value o)) (pk_script o) (Some c)
  | None => o
  end.

Definition reread_tx (tx : Tx) : Tx :=
  mk_Tx (version tx) (inputs tx) (map reread_output (outputs tx)) (locktime tx).

(* ================================================================= *)
(** * Facts about the primitives *)

Lemma b2z_range (b : byte) : 0 <= b2z b < 256.
Proof.
  unfold b2z. pose proof (Byte.to_N_bounded b). lia.
Qed.

Lemma z2b_b2z (b : byte) : z2b (b2z b) = b.
Proof.
  unfold z2b. pose proof (b2z_range b) as R.
  rewrite Z.mod_small by lia. unfold b2z. rewrite N2Z.id.
  now rewrite Byte.of_to_N.
Qed.

Lemma b2z_z2b (z : Z) : b2z (z2b z) = z mod 256.
Proof.
  unfold z2b, b2z.
  pose proof (Z.mod_pos_bound z 256 ltac:(lia)) as R.
  destruct (Byte.of_N (Z.to_N (z mod 256))) as [b|] eqn:E.
  - apply Byte.to_of_N in E. rewrite E. lia.
  - apply Byte.of_N_None_iff in E. lia.
Qed.

Lemma z2b_add_mul (z k : Z) : z2b (z + 256 * k) = z2b z.
Proof.
  unfold z2b. replace (z + 256 * k) with (z + k * 256) by lia.
  now rewrite Z_mod_plus_full.
Qed.

Lemma len_nonneg {A} (l : list A) : 0 <= len l.
Proof. unfold len. lia. Qed.

Lemma len_app {A} (l1 l2 : list A) : len (l1 ++ l2) = len l1 + len l2.
Proof. unfold len. rewrite length_app. lia. Qed.

Lemma len_cons {A} (a : A) (l : list A) : len (a :: l) = 1 + len l.
Proof. unfold len. cbn [length]. lia. Qed.

Lemma clamp_in_range (L i : Z) : 0 <= i <= L -> clamp L i = i.
Proof. unfold clamp. intros. destruct (Z.ltb_spec i 0); lia. Qed.

Lemma getitem_nonneg {A} (l : list A) (i : Z) :
  0 <= i -> getitem l i = nth_error l (Z.to_nat i).
Proof.
  intros H. unfold getitem.
  destruct (Z.ltb_spec i 0); [lia|].
  destruct (Z.ltb_spec i 0); [lia|]. reflexivity.
Qed.

Lemma getitem_some_lt {A} (l : list A) (i : Z) (a : A) :
  0 <= i -> getitem l i = Some a -> i < len l.
Proof.
  intros H E. rewrite getitem_nonneg in E by lia.
  assert (nth_error l (Z.to_nat i) <> None) as N by congruence.
  apply nth_error_Some in N. unfold len. lia.
Qed.

Lemma getitem_lt_some {A} (l : list A) (i : Z) :
  0 <= i < len l -> exists a, getitem l i = Some a.
Proof.
  intros H. rewrite getitem_nonneg by lia.
  destruct (nth_error l (Z.to_nat i)) as [a|] eqn:E; [eauto|].
  apply nth_error_None in E. unfold len in H. lia.
Qed.

Lemma getitem_out_of_range {A} (l : list A) (i : Z) :
  len l <= i -> getitem l i = None.
Proof.
  intros H. pose proof (len_nonneg l).
  rewrite getitem_nonneg by lia.
  apply nth_error_None. unfold len in *. lia.
Qed.

Lemma slice_in_range {A} (l : list A) (a b : Z) :
  0 <= a <= b -> b <= len l ->
  slice l a b = firstn (Z.to_nat (b - a)) (skipn (Z.to_nat a) l).
Proof.
  intros H1 H2. unfold slice. now rewrite !clamp_in_range by lia.
Qed.

Lemma len_slice {A} (l : list A) (a b : Z) :
  0 <= a <= b -> b <= len l -> len (slice l a b) = b - a.
Proof.
  intros H1 H2. rewrite slice_in_range by lia.
  unfold len in *. rewrite length_firstn, length_skipn. lia.
Qed.

Lemma slice_empty {A} (l : list A) (a : Z) : slice l a a = [].
Proof. unfold slice. now rewrite Z.sub_diag. Qed.

Lemma firstn_skipn_split {A} (l : list A) (i j : nat) :
  firstn (i + j) l = firstn i l ++ firstn j (skipn i l).
Proof.
  revert l. induction i as [|i IH]; intros l; cbn.
  - reflexivity.
  - destruct l as [|x l]; cbn.
    + now rewrite firstn_nil.
    + now rewrite IH.
Qed.

(** Extending a prefix by the next slice. *)
Lemma prefix_extend {A} (l : list A) (a b : Z) :
  0 <= a <= b -> b <= len l ->
  firstn (Z.to_nat b) l = firstn (Z.to_nat a) l ++ slice l a b.
Proof.
  intros H1 H2. rewrite slice_in_range by lia.
  rewrite <- firstn_skipn_split. f_equal. lia.
Qed.

Lemma slice_split {A} (l : list A) (a b c : Z) :
  0 <= a <= b -> b <= c -> c <= len l ->
  slice l a c = slice l a b ++ slice l b c.
Proof.
  intros H1 H2 H3. rewrite !slice_in_range by lia.
  replace (Z.to_nat (c - a)) with (Z.to_nat (b - a) + Z.to_nat (c - b))%nat by lia.
  rewrite firstn_skipn_split, skipn_skipn.
  do 3 f_equal. lia.
Qed.

Lemma slice_one {A} (l : list A) (i : Z) (x : A) :
  0 <= i -> getitem l i = Some x -> slice l i (i + 1) = [x].
Proof.
  intros H E. pose proof (getitem_some_lt _ _ _ H E) as L.
  rewrite slice_in_range by lia. rewrite getitem_nonneg in E by lia.
  replace (Z.to_nat (i + 1 - i)) with 1%nat by lia.
  revert E. generalize (Z.to_nat i) as k. clear.
  induction l as [|y l IH]; intros [|k] E; cbn in *; try discriminate.
  - now inversion E.
  - now apply IH.
Qed.

Lemma slice_full {A} (l : list A) : firstn (Z.to_nat (len l)) l = l.
Proof. unfold len. rewrite Nat2Z.id. apply firstn_all. Qed.

Lemma le_decode_range (bs : bytes) : 0 <= le_decode bs < 256 ^ len bs.
Proof.
  induction bs as [|b bs IH].
  - cbn. lia.
  - rewrite len_cons. cbn [le_decode].
    pose proof (b2z_range b). pose proof (len_nonneg bs).
    rewrite Z.pow_add_r by lia. lia.
Qed.

Lemma le_encode_decode (bs : bytes) : le_encode (length bs) (le_decode bs) = bs.
Proof.
  induction bs as [|b bs IH]; [reflexivity|].
  cbn [length le_encode le_decode]. pose proof (b2z_range b) as R.
  f_equal.
  - rewrite z2b_add_mul. apply z2b_b2z.
  - replace (b2z b + 256 * le_decode bs) with (le_decode bs * 256 + b2z b) by lia.
    rewrite Z_div_plus_full_l by lia. rewrite Z.div_small by lia.
    now rewrite Z.add_0_r.
Qed.

Lemma length_le_encode (w : nat) (v : Z) : length (le_encode w v) = w.
Proof. revert v. induction w; intros; cbn; auto. Qed.

Lemma le_decode_encode (w : nat) (v : Z) :
  0 <= v < 256 ^ Z.of_nat w -> le_decode (le_encode w v) = v.
Proof.
  revert v. induction w as [|w IH]; intros v H.
  - cbn in *. lia.
  - cbn [le_encode le_decode]. rewrite b2z_z2b.
    rewrite Nat2Z.inj_succ, Z.pow_succ_r in H by lia.
    rewrite IH.
    + pose proof (Z.div_mod v 256 ltac:(lia)). lia.
    + split; [apply Z.div_pos; lia|].
      apply Z.div_lt_upper_bound; lia.
Qed.

Lemma len_slice_general {A} (l : list A) (a b : Z) :
  0 <= a <= b -> len (slice l a b) = Z.min b (len l) - Z.min a (len l).
Proof.
  intros H. unfold slice, clamp.
  destruct (Z.ltb_spec a 0); [lia|]. destruct (Z.ltb_spec b 0); [lia|].
  unfold len. rewrite length_firstn, length_skipn. lia.
Qed.

Lemma slice_whole_prefix {A} (l : list A) (b : Z) :
  len l <= b -> slice l 0 b = l.
Proof.
  intros H. pose proof (len_nonneg l). unfold slice, clamp. cbn [Z.ltb].
  destruct (Z.ltb_spec b 0); [lia|].
  rewrite Z.min_r, Z.min_l by lia. cbn [Z.to_nat skipn].
  rewrite Z.sub_0_r. apply slice_full.
Qed.

(* ================================================================= *)
(** * Facts about [while] *)

Section WhileFacts.
Context {S : Type}.
Variable cond : S -> bool.
Variable body : S -> option S.

Lemma iter_steps_trans (a b c : S) :
  iter_steps cond body a b -> iter_steps cond body b c -> iter_steps cond body a c.
Proof.
  induction 1; intros; [assumption|]. econstructor; eauto.
Qed.

Lemma iter_steps_snoc (a b c : S) :
  iter_steps cond body a b -> iter_step cond body b c -> iter_steps cond body a c.
Proof.
  intros H1 H2. eapply iter_steps_trans; [exact H1|].
  econstructor; [exact H2|constructor].
Qed.

Lemma while_done_steps (fuel : nat) (s r : S) :
  while cond body fuel s = Done r -> iter_steps cond body s r /\ cond r = false.
Proof.
  revert s. induction fuel as [|fuel IH]; intros s; cbn.
  - destruct (cond s) eqn:C; [discriminate|].
    intros E. inversion E; subst. split; [constructor|assumption].
  - destruct (cond s) eqn:C.
    + destruct (body s) as [s'|] eqn:B; [|discriminate].
      intros E. destruct (IH _ E) as [H1 H2]. split; [|assumption].
      econstructor; [split; eassumption|assumption].
    + intros E. inversion E; subst. split; [constructor|assumption].
Qed.

(** The iterations are deterministic: a run that ends passes through
    every state that can be reached. *)
Lemma iter_steps_confluent (s a r : S) :
  iter_steps cond body s a -> iter_steps cond body s r -> cond r = false -> iter_steps cond body a r.
Proof.
  induction 1 as [s|s s1 a [C B] _ IH]; intros Hr Cr; [assumption|].
  inversion Hr as [|? s1' ? [C' B'] Hr']; subst.
  - congruence.
  - assert (s1' = s1) by congruence. subst. now apply IH.
Qed.

Lemma iter_steps_invariant (Inv : S -> Prop) :
  (forall s s', Inv s -> iter_step cond body s s' -> Inv s') ->
  forall s r, iter_steps cond body s r -> Inv s -> Inv r.
Proof.
  intros Hstep s r H. induction H; intros; eauto.
Qed.

(** The loop-invariant rule. *)
Lemma while_invariant (Inv : S -> Prop) :
  (forall s s', Inv s -> iter_step cond body s s' -> Inv s') ->
  forall fuel s r,
    Inv s -> while cond body fuel s = Done r -> Inv r /\ cond r = false.
Proof.
  intros Hstep fuel s r Hs E.
  apply while_done_steps in E. destruct E as [E C]. split; [|assumption].
  eapply iter_steps_invariant; eauto.
Qed.

(** A measure that every iteration decreases bounds the fuel needed. *)
Lemma while_enough_fuel (m : S -> nat) :
  (forall s, cond s = true -> (0 < m s)%nat) ->
  (forall s s', iter_step cond body s s' -> (m s' < m s)%nat) ->
  forall fuel s, (m s <= fuel)%nat -> while cond body fuel s <> OutOfFuel.
Proof.
  intros Hpos Hdec. induction fuel as [|fuel IH]; intros s Hm; cbn.
  - destruct (cond s) eqn:C; [|discriminate].
    apply Hpos in C. lia.
  - destruct (cond s) eqn:C; [|discriminate].
    destruct (body s) as [s'|] eqn:B; [|discriminate].
    apply IH. specialize (Hdec s s' (conj C B)). lia.
Qed.

(** A run that reaches an iteration that raises is left by the
    exception. *)
Lemma while_raises (fuel : nat) (s a : S) :
  iter_steps cond body s a -> cond a = true -> body a = None ->
  while cond body fuel s <> OutOfFuel ->
  while cond body fuel s = Raised tt.
Proof.
  intros Ha Ca Ba NF.
  destruct (while cond body fuel s) as [r|[]|] eqn:E; [|reflexivity|congruence].
  exfalso. apply while_done_steps in E. destruct E as [Hr Cr].
  pose proof (iter_steps_confluent _ _ _ Ha Hr Cr) as H.
  inversion H as [|? ? ? [_ B] _]; subst; congruence.
Qed.

Lemma trace_sound (fuel : nat) (s a : S) :
  In a (trace cond body fuel s) -> iter_steps cond body s a /\ cond a = true.
Proof.
  revert s. induction fuel as [|fuel IH]; intros s; cbn.
  - destruct (cond s); intros [].
  - destruct (cond s) eqn:C; [|intros []].
    intros [->|I]; [split; [constructor|assumption]|].
    destruct (body s) as [s'|] eqn:B; [|destruct I].
    destruct (IH _ I) as [H1 H2]. split; [|assumption].
    econstructor; [split; eassumption|assumption].
Qed.

Lemma trace_complete (m : S -> nat) :
  (forall s, cond s = true -> (0 < m s)%nat) ->
  (forall s s', iter_step cond body s s' -> (m s' < m s)%nat) ->
  forall s a, iter_steps cond body s a -> cond a = true ->
  forall fuel, (m s <= fuel)%nat -> In a (trace cond body fuel s).
Proof.
  intros Hpos Hdec s a H.
  induction H as [s|s s1 a St _ IH]; intros Ca fuel Hm.
  - pose proof (Hpos _ Ca). destruct fuel as [|fuel]; [lia|].
    cbn. rewrite Ca. now left.
  - pose proof (Hdec _ _ St) as D. destruct St as [C B].
    pose proof (Hpos _ C). destruct fuel as [|fuel]; [lia|]. cbn.
    rewrite C, B. right. apply IH; [assumption|lia].
Qed.
End WhileFacts.

(* ================================================================= *)
(** * The script walker: framing *)

Lemma opcode_assertions_hold : opcode_assertions = true.
Proof. reflexivity. Qed.

Lemma byte_at_range (s : bytes) (n op : Z) :
  byte_at s n = Some op -> 0 <= op < 256.
Proof.
  unfold byte_at. destruct (getitem s n) as [b|]; [|discriminate].
  cbn. intros E. inversion E. apply b2z_range.
Qed.

Lemma byte_at_slice (s : bytes) (n op : Z) :
  0 <= n -> byte_at s n = Some op ->
  n + 1 <= len s /\ slice s n (n + 1) = [z2b op].
Proof.
  unfold byte_at. intros H E.
  destruct (getitem s n) as [b|] eqn:G; [|discriminate].
  cbn in E. inversion E; subst. rewrite z2b_b2z.
  pose proof (getitem_some_lt _ _ _ H G).
  split; [lia|]. now apply slice_one.
Qed.

Lemma byte_at_some (s : bytes) (n : Z) :
  0 <= n < len s -> exists op, byte_at s n = Some op.
Proof.
  intros H. destruct (getitem_lt_some s n H) as [b E].
  unfold byte_at. rewrite E. cbn. eauto.
Qed.

Lemma unpack_from_unsigned_0 (w : nat) (buf : bytes) :
  unpack_from w false buf 0 =
  if len buf <? Z.of_nat w then Err StructError
  else Ok (le_decode (slice buf 0 (Z.of_nat w))).
Proof.
  unfold unpack_from. change (0 <? 0) with false. cbv iota.
  rewrite Z.sub_0_r, Z.add_0_l. reflexivity.
Qed.

(** An unsigned [unpack_from] at offset 0 of a slice of [w] bytes. *)
Lemma unpack_slice (w : nat) (s : bytes) (n v : Z) :
  (0 < w)%nat -> 0 <= n ->
  to_option (unpack_from w false (slice s n (n + Z.of_nat w)) 0) = Some v ->
  n + Z.of_nat w <= len s /\ 0 <= v /\
  slice s n (n + Z.of_nat w) = le_encode w v.
Proof.
  intros Hw Hn. rewrite unpack_from_unsigned_0.
  set (buf := slice s n (n + Z.of_nat w)).
  destruct (Z.ltb_spec (len buf) (Z.of_nat w)) as [L|L]; cbn; [discriminate|].
  intros E. inversion E; subst v. clear E.
  assert (len buf = Z.of_nat w /\ n + Z.of_nat w <= len s) as [Lb Ls].
  { unfold buf in *. rewrite len_slice_general in * by lia.
    pose proof (len_nonneg s). lia. }
  rewrite slice_whole_prefix by lia.
  split; [assumption|]. split; [apply le_decode_range|].
  replace w with (length buf) by (unfold len in Lb; lia).
  symmetry. apply le_encode_decode.
Qed.

(** What the [dlen] chain yields for a push opcode: the cursor moves
    over the length bytes, which encode [dlen]. *)
Lemma pushdata_dlen_spec (s : bytes) (op n : Z) (o : option (Z * Z)) (dlen n' : Z) :
  0 <= n -> 0 <= op -> op <= OP_PUSHDATA4 ->
  pushdata_dlen s op n o = Some (dlen, n') ->
  n <= n' /\ 0 <= dlen /\ (n < n' -> n' <= len s) /\
  slice s n n' = length_prefix op dlen.
Proof.
  unfold pushdata_dlen, length_prefix, OP_PUSHDATA4, OP_PUSHDATA2, OP_PUSHDATA1.
  intros Hn Hop Hle.
  destruct (Z.ltb_spec op 76).
  { intros E. inversion E; subst.
    destruct (Z.eqb_spec dlen 76); [lia|].
    destruct (Z.eqb_spec dlen 77); [lia|].
    destruct (Z.eqb_spec dlen 78); [lia|].
    rewrite slice_empty. repeat split; lia. }
  destruct (Z.eqb_spec op 76).
  { destruct (byte_at s n) as [d|] eqn:B; cbn; [|discriminate].
    intros E. inversion E; subst.
    destruct (byte_at_slice _ _ _ Hn B) as [L Sl].
    pose proof (byte_at_range _ _ _ B).
    rewrite Sl. repeat split; try lia. }
  destruct (Z.eqb_spec op 77).
  { unfold unpack_le_uint16_from.
    destruct (to_option _) as [d|] eqn:U; cbn; [|discriminate].
    intros E. inversion E; subst.
    apply (unpack_slice 2) in U; [|lia|lia]. destruct U as (L & P & Sl).
    change (Z.of_nat 2) with 2 in *. rewrite Sl. repeat split; lia. }
  destruct (Z.eqb_spec op 78); [|lia].
  unfold unpack_le_uint32_from.
  destruct (to_option _) as [d|] eqn:U; cbn; [|discriminate].
  intros E. inversion E; subst.
  apply (unpack_slice 4) in U; [|lia|lia]. destruct U as (L & P & Sl).
  change (Z.of_nat 4) with 4 in *. rewrite Sl. repeat split; lia.
Qed.

(** The chain never moves the cursor back nor yields a negative length,
    wherever the cursor stands. *)
Lemma pushdata_dlen_advance (s : bytes) (op n : Z) (o : option (Z * Z)) (dlen n' : Z) :
  0 <= op -> op <= OP_PUSHDATA4 ->
  pushdata_dlen s op n o = Some (dlen, n') -> n <= n' /\ 0 <= dlen.
Proof.
  unfold pushdata_dlen, OP_PUSHDATA4, OP_PUSHDATA2, OP_PUSHDATA1.
  intros Hop Hle.
  destruct (Z.ltb_spec op 76).
  { intros E. inversion E; subst. lia. }
  destruct (Z.eqb_spec op 76).
  { destruct (byte_at s n) as [d|] eqn:B; cbn; [|discriminate].
    intros E. inversion E; subst. pose proof (byte_at_range _ _ _ B). lia. }
  assert (forall w buf v, to_option (unpack_from w false buf 0) = Some v -> 0 <= v) as U.
  { intros w buf v. rewrite unpack_from_unsigned_0.
    destruct (len buf <? Z.of_nat w); cbn; [discriminate|].
    intros E. inversion E. apply le_decode_range. }
  destruct (Z.eqb_spec op 77).
  { unfold unpack_le_uint16_from.
    destruct (to_option _) as [d|] eqn:E1; cbn; [|discriminate].
    intros E. inversion E; subst. apply U in E1. lia. }
  destruct (Z.eqb_spec op 78); [|lia].
  unfold unpack_le_uint32_from.
  destruct (to_option _) as [d|] eqn:E1; cbn; [|discriminate].
  intros E. inversion E; subst. apply U in E1. lia.
Qed.

(** What follows the [OP_PUSHDATA4] branch is dead code. *)
Lemma pushdata_dlen_otherwise (s : bytes) (op n : Z) (o1 o2 : option (Z * Z)) :
  op <= OP_PUSHDATA4 -> pushdata_dlen s op n o1 = pushdata_dlen s op n o2.
Proof.
  unfold pushdata_dlen, OP_PUSHDATA4, OP_PUSHDATA2, OP_PUSHDATA1. intros H.
  destruct (Z.ltb_spec op 76); [reflexivity|].
  destruct (Z.eqb_spec op 76); [reflexivity|].
  destruct (Z.eqb_spec op 77); [reflexivity|].
  destruct (Z.eqb_spec op 78); [reflexivity|lia].
Qed.

(* ================================================================= *)
(** * [get_ops] *)

Lemma len_item_wire_pos (it : op_item) : 1 <= len (item_wire it).
Proof.
  destruct it; cbn [item_wire]; rewrite len_cons.
  - cbn. lia.
  - pose proof (len_nonneg (length_prefix op (len data) ++ data)). lia.
Qed.

(** One iteration of [get_ops] appends one op-item, read from the bytes
    that the cursor moves over. *)
Lemma get_ops_body_spec (s : bytes) (n : Z) (ops : list op_item) st' :
  0 <= n -> get_ops_body s (n, ops) = Some st' ->
  exists it, st' = (n + len (item_wire it), ops ++ [it]) /\
             n + len (item_wire it) <= len s /\
             slice s n (n + len (item_wire it)) = item_wire it.
Proof.
  intros Hn. unfold get_ops_body.
  destruct (byte_at s n) as [op|] eqn:B; cbn [obind]; [|discriminate].
  destruct (byte_at_slice _ _ _ Hn B) as [L1 S1].
  pose proof (byte_at_range _ _ _ B) as R.
  destruct (Z.leb_spec op OP_PUSHDATA4) as [Le|Gt].
  - destruct (pushdata_dlen s op (n + 1) _) as [[dlen n1]|] eqn:P;
      cbn [obind]; [|discriminate].
    apply pushdata_dlen_spec in P; try lia.
    destruct P as (A1 & A2 & A3 & A4).
    destruct (Z.gtb_spec (n1 + dlen) (len s)) as [G|G]; [discriminate|].
    intros E. inversion E; subst st'. clear E.
    exists (Push op (slice s n1 (n1 + dlen))).
    assert (len (slice s n1 (n1 + dlen)) = dlen) as Ld
        by (rewrite len_slice; lia).
    assert (len (slice s (n + 1) n1) = n1 - (n + 1)) as Lp
        by (rewrite len_slice; lia).
    cbn [item_wire]. rewrite Ld, <- A4.
    rewrite len_cons, len_app, Ld, Lp.
    replace (n + (1 + (n1 - (n + 1) + dlen))) with (n1 + dlen) by lia.
    repeat split; [lia|].
    rewrite (slice_split s n (n + 1) (n1 + dlen)) by lia.
    rewrite (slice_split s (n + 1) n1 (n1 + dlen)) by lia.
    now rewrite S1.
  - intros E. inversion E; subst st'. clear E.
    exists (Bare op). cbn [item_wire]. change (len [z2b op]) with 1.
    repeat split; [lia|assumption].
Qed.

Lemma get_ops_body_advance (s : bytes) (st st' : Z * list op_item) :
  get_ops_body s st = Some st' -> fst st < fst st'.
Proof.
  destruct st as [n ops]. unfold get_ops_body.
  destruct (byte_at s n) as [op|] eqn:B; cbn [obind]; [|discriminate].
  pose proof (byte_at_range _ _ _ B) as R.
  destruct (Z.leb_spec op OP_PUSHDATA4) as [Le|Gt].
  - destruct (pushdata_dlen s op (n + 1) _) as [[dlen n1]|] eqn:P;
      cbn [obind]; [|discriminate].
    apply pushdata_dlen_advance in P; try lia.
    destruct (n1 + dlen >? len s); [discriminate|].
    intros E. inversion E. cbn. lia.
  - intros E. inversion E. cbn. lia.
Qed.

(** [get_ops] always returns or raises: the fuel [len(script)] is
    enough. *)
Lemma get_ops_fuel_enough (s : bytes) : get_ops s <> OutOfFuel.
Proof.
  unfold get_ops, get_ops_fuel.
  pose proof (while_enough_fuel (get_ops_cond s) (get_ops_body s)
                (fun st => Z.to_nat (len s - fst st))) as H.
  destruct (while _ _ _ _) eqn:E; try discriminate.
  exfalso. revert E. apply H.
  - intros st C. unfold get_ops_cond in C. apply Z.ltb_lt in C. lia.
  - intros st st' [C B]. unfold get_ops_cond in C. apply Z.ltb_lt in C.
    apply get_ops_body_advance in B. lia.
  - cbn. unfold len. lia.
Qed.

(** The invariant of the loop of [get_ops]: the op-items read so far
    spell out the bytes before the cursor. *)
Lemma get_ops_wire (s : bytes) (ops : list op_item) :
  get_ops s = Done ops -> concat (map item_wire ops) = s.
Proof.
  unfold get_ops, get_ops_fuel.
  destruct (while _ _ _ _) as [[n ops']| |] eqn:E; try discriminate.
  intros D. inversion D; subst ops'. clear D.
  apply (while_invariant _ _
           (fun st => 0 <= fst st <= len s /\
                      concat (map item_wire (snd st)) =
                      firstn (Z.to_nat (fst st)) s)) in E.
  - destruct E as [[R I] C]. cbn [fst snd] in *.
    unfold get_ops_cond in C. apply Z.ltb_ge in C. cbn [fst] in C.
    assert (n = len s) by lia. subst n. now rewrite slice_full in I.
  - intros [m o] st' [R I] [_ B]. cbn [fst snd] in *.
    apply get_ops_body_spec in B; [|lia].
    destruct B as (it & -> & L & Sl). cbn [fst snd].
    pose proof (len_item_wire_pos it).
    split; [lia|].
    rewrite map_app, concat_app, I. cbn [map concat]. rewrite app_nil_r.
    rewrite (prefix_extend s m (m + len (item_wire it))) by lia.
    now rewrite Sl.
  - cbn. split; [pose proof (len_nonneg s); lia|reflexivity].
Qed.

Lemma item_wire_no_pushdata (it : op_item) :
  is_pushdata_opcode (item_opcode it) = false -> item_wire it = item_bytes it.
Proof.
  destruct it as [op|op data]; cbn; [reflexivity|].
  unfold is_pushdata_opcode, length_prefix. intros H.
  apply orb_false_iff in H. destruct H as [H H3].
  apply orb_false_iff in H. destruct H as [H1 H2].
  now rewrite H1, H2, H3.
Qed.

(** In [get_ops] the [elif] for the reference opcodes sits under
    [op <= OP_PUSHDATA4] and is never taken: the iteration that reads a
    reference opcode appends the bare opcode and moves the cursor by one
    byte only. *)
Lemma get_ops_body_reference (s : bytes) (n op : Z) (ops : list op_item) :
  byte_at s n = Some op -> is_ref_opcode op = true ->
  get_ops_body s (n, ops) = Some (n + 1, ops ++ [Bare op]).
Proof.
  intros B R. unfold get_ops_body. rewrite B. cbn [obind].
  destruct (Z.leb_spec op OP_PUSHDATA4) as [Le|Gt]; [|reflexivity].
  exfalso. unfold is_ref_opcode in R. unfold OP_PUSHDATA4 in Le.
  repeat (apply orb_true_iff in R; destruct R as [R|R]);
    apply Z.eqb_eq in R; subst op; vm_compute in Le; congruence.
Qed.

(** C1 (the code departs from the claim): on [OP_PUSHINPUTREF] followed
    by 36 bytes [0x51], [get_ops] returns the bare opcode 0xd0 and then
    the 36 payload bytes parsed as 36 further opcodes, not the single
    pair (0xd0, payload); and a lone [OP_PUSHINPUTREFSINGLETON] parses
    without a truncation error. *)
Theorem get_ops_reference_opcode_bare :
  get_ops (xd0 :: repeat x51 36) = Done (Bare 208 :: repeat (Bare 81) 36) /\
  get_ops (xd0 :: repeat x51 36) <> Done [Push 208 (repeat x51 36)] /\
  get_ops [xd8] = Done [Bare 216].
Proof.
  split; [vm_compute; reflexivity|].
  split; [vm_compute; discriminate|vm_compute; reflexivity].
Qed.

(** C4 as stated fails: for [OP_PUSHDATA1 0x01 0xaa] the op-items are
    [(0x4c, aa)], and opcode followed by payload gives two bytes, not the
    three of the script. *)
Lemma get_ops_concat_counterexample :
  get_ops [x4c; x01; xaa] = Done [Push 76 [xaa]] /\
  concat (map item_bytes [Push 76 [xaa]]) <> [x4c; x01; xaa].
Proof.
  split; [vm_compute; reflexivity|vm_compute; discriminate].
Qed.

(** C4 (amended): when [get_ops] succeeds, the opcode byte of each
    op-item, followed for [OP_PUSHDATA1/2/4] by the 1, 2 or 4
    little-endian length bytes of its payload, and then by the payload,
    concatenated in order, give back the script; when no op-item has
    opcode [OP_PUSHDATA1/2/4], opcode bytes and payloads alone do. *)
Theorem get_ops_concat_roundtrip (s : bytes) (ops : list op_item) :
  get_ops s = Done ops ->
  concat (map item_wire ops) = s /\
  (forallb (fun it => negb (is_pushdata_opcode (item_opcode it))) ops = true ->
   concat (map item_bytes ops) = s).
Proof.
  intros E. pose proof (get_ops_wire _ _ E) as W. split; [assumption|].
  intros F. transitivity (concat (map item_wire ops)); [|assumption].
  f_equal. apply map_ext_in. intros it I. symmetry. apply item_wire_no_pushdata.
  rewrite forallb_forall in F. specialize (F it I).
  now apply negb_true_iff in F.
Qed.

Lemma get_ops_concat_roundtrip_witness :
  let s := [x02; xaa; xbb; x76; xd0; x4d; x01; x00; xac] in
  let ops := [Push 2 [xaa; xbb]; Bare 118; Bare 208; Push 77 [xac]] in
  get_ops s = Done ops /\ concat (map item_wire ops) = s.
Proof.
  intros s ops.
  assert (get_ops s = Done ops) as E by (vm_compute; reflexivity).
  split; [exact E|].
  exact (proj1 (get_ops_concat_roundtrip s ops E)).
Defined.

(* ================================================================= *)
(** * Opcode positions *)

Lemma next_opcode_advance (s : bytes) (n n' : Z) :
  next_opcode s n = Some n' -> n < n'.
Proof.
  unfold next_opcode.
  destruct (byte_at s n) as [op|] eqn:B; cbn [obind]; [|discriminate].
  pose proof (byte_at_range _ _ _ B) as R.
  destruct (Z.leb_spec op OP_PUSHDATA4) as [Le|Gt].
  - destruct (pushdata_dlen s op (n + 1) None) as [[dlen n1]|] eqn:P;
      cbn [obind]; [|discriminate].
    apply pushdata_dlen_advance in P; try lia.
    destruct (n1 + dlen >? len s); cbn [obind]; [discriminate|].
    destruct (is_ref_opcode op).
    + destruct (n1 + dlen + 36 >? len s); [discriminate|].
      intros E. inversion E. lia.
    + intros E. inversion E. lia.
  - cbn [obind]. destruct (is_ref_opcode op).
    + destruct (n + 1 + 36 >? len s); [discriminate|].
      intros E. inversion E. lia.
    + intros E. inversion E. lia.
Qed.

Lemma next_opcode_bound (s : bytes) (n n' : Z) :
  0 <= n -> next_opcode s n = Some n' -> n' <= len s.
Proof.
  intros Hn. unfold next_opcode.
  destruct (byte_at s n) as [op|] eqn:B; cbn [obind]; [|discriminate].
  destruct (byte_at_slice _ _ _ Hn B) as [L _].
  destruct (op <=? OP_PUSHDATA4).
  - destruct (pushdata_dlen s op (n + 1) None) as [[dlen n1]|];
      cbn [obind]; [|discriminate].
    destruct (Z.gtb_spec (n1 + dlen) (len s)); cbn [obind]; [discriminate|].
    destruct (is_ref_opcode op).
    + destruct (Z.gtb_spec (n1 + dlen + 36) (len s)); [discriminate|].
      intros E. inversion E. lia.
    + intros E. inversion E. lia.
  - cbn [obind]. destruct (is_ref_opcode op).
    + destruct (Z.gtb_spec (n + 1 + 36) (len s)); [discriminate|].
      intros E. inversion E. lia.
    + intros E. inversion E. lia.
Qed.

Lemma opcode_position_range (s : bytes) (n : Z) :
  opcode_position s n -> 0 <= n <= len s.
Proof.
  unfold opcode_position. intros H.
  apply (iter_steps_invariant _ _ (fun n => 0 <= n <= len s)) in H.
  - assumption.
  - intros m m' R [_ B]. pose proof (next_opcode_advance _ _ _ B).
    pose proof (next_opcode_bound _ _ _ (proj1 R) B). lia.
  - pose proof (len_nonneg s). lia.
Qed.

(** [opcode_positions] lists the opcode positions inside the script. *)
Lemma opcode_positions_spec (s : bytes) (n : Z) :
  In n (opcode_positions s) <-> opcode_position s n /\ n < len s.
Proof.
  unfold opcode_positions, opcode_position. split.
  - intros I. apply trace_sound in I. destruct I as [H C].
    apply Z.ltb_lt in C. now split.
  - intros [H L].
    apply (trace_complete _ _ (fun n => Z.to_nat (len s - n))); try assumption.
    + intros m C. apply Z.ltb_lt in C. lia.
    + intros m m' [C B]. apply Z.ltb_lt in C.
      apply next_opcode_advance in B. lia.
    + now apply Z.ltb_lt.
    + unfold len. lia.
Qed.

(** Whether a signature-check opcode stands at an opcode position can be
    computed. *)
Lemma has_sig_opcode_decide (s : bytes) :
  has_sig_opcode s <->
  existsb (fun n => match byte_at s n with
                    | Some op => is_sig_opcode op
                    | None => false
                    end) (opcode_positions s) = true.
Proof.
  rewrite existsb_exists. split.
  - intros (n & op & P & B & Sg). exists n. rewrite B. split; [|assumption].
    apply opcode_positions_spec. split; [assumption|].
    pose proof (opcode_position_range _ _ P) as R.
    destruct (byte_at_slice _ _ _ (proj1 R) B). lia.
  - intros (n & I & H). apply opcode_positions_spec in I.
    destruct (byte_at s n) as [op|] eqn:B; [|discriminate].
    exists n, op. tauto.
Qed.

(* ================================================================= *)
(** * [zero_refs] *)

(** The cursor of [zero_refs] moves as [next_opcode] says, and the flag
    is raised by a signature-check opcode read at the cursor. *)
Lemma zero_refs_body_frame (s : bytes) (st st' : zero_state) :
  zero_refs_body s st = Some st' ->
  exists op, byte_at s (zs_n st) = Some op /\
             next_opcode s (zs_n st) = Some (zs_n st') /\
             requires_sig st' = is_sig_opcode op || requires_sig st.
Proof.
  unfold zero_refs_body, next_opcode.
  destruct (byte_at s (zs_n st)) as [op|] eqn:B; cbn [obind]; [|discriminate].
  intros E. exists op. split; [reflexivity|]. revert E.
  destruct (op <=? OP_PUSHDATA4).
  - destruct (pushdata_dlen s op (zs_n st + 1) None) as [[dlen n1]|];
      cbn [obind]; [|discriminate].
    destruct (n1 + dlen >? len s); cbn [obind]; [discriminate|].
    destruct (is_ref_opcode op).
    + destruct (n1 + dlen + 36 >? len s); [discriminate|].
      intros E. inversion E. cbn. destruct (is_sig_opcode op); auto.
    + intros E. inversion E. cbn. destruct (is_sig_opcode op); auto.
  - cbn [obind]. destruct (is_ref_opcode op).
    + destruct (zs_n st + 1 + 36 >? len s); [discriminate|].
      intros E. inversion E. cbn. destruct (is_sig_opcode op); auto.
    + intros E. inversion E. cbn. destruct (is_sig_opcode op); auto.
Qed.

Lemma zero_refs_body_total (s : bytes) (st : zero_state) (n' : Z) :
  next_opcode s (zs_n st) = Some n' ->
  exists st', zero_refs_body s st = Some st' /\ zs_n st' = n'.
Proof.
  unfold zero_refs_body, next_opcode.
  destruct (byte_at s (zs_n st)) as [op|] eqn:B; cbn [obind]; [|discriminate].
  destruct (op <=? OP_PUSHDATA4).
  - destruct (pushdata_dlen s op (zs_n st + 1) None) as [[dlen n1]|];
      cbn [obind]; [|discriminate].
    destruct (n1 + dlen >? len s); cbn [obind]; [discriminate|].
    destruct (is_ref_opcode op).
    + destruct (n1 + dlen + 36 >? len s); [discriminate|].
      intros E. inversion E. eexists. split; reflexivity.
    + intros E. inversion E. eexists. split; reflexivity.
  - cbn [obind]. destruct (is_ref_opcode op).
    + destruct (zs_n st + 1 + 36 >? len s); [discriminate|].
      intros E. inversion E. eexists. split; reflexivity.
    + intros E. inversion E. eexists. split; reflexivity.
Qed.

(** [zero_refs] always returns or raises. *)
Lemma zero_refs_walk_fuel_enough (s : bytes) :
  zero_refs_walk (length s) s <> OutOfFuel.
Proof.
  unfold zero_refs_walk.
  apply (while_enough_fuel _ _ (fun st => Z.to_nat (len s - zs_n st))).
  - intros st C. unfold zero_refs_cond in C. apply Z.ltb_lt in C. lia.
  - intros st st' [C B]. unfold zero_refs_cond in C. apply Z.ltb_lt in C.
    apply zero_refs_body_frame in B. destruct B as (op & _ & N & _).
    apply next_opcode_advance in N. lia.
  - cbn. unfold len. lia.
Qed.

Lemma zero_refs_fuel_enough (s : bytes) : zero_refs s <> OutOfFuel.
Proof.
  unfold zero_refs, zero_refs_fuel.
  pose proof (zero_refs_walk_fuel_enough s).
  destruct (zero_refs_walk _ _); congruence.
Qed.

(** The cursor of [zero_refs] takes every position that [next_opcode]
    leads to. *)
Lemma zero_refs_visits_from (s : bytes) (z n : Z) :
  iter_steps (fun n => n <? len s) (next_opcode s) z n ->
  forall st0, zs_n st0 = z ->
  exists st, iter_steps (zero_refs_cond s) (zero_refs_body s) st0 st /\
             zs_n st = n.
Proof.
  induction 1 as [m|m m1 m2 [C B] _ IH]; intros st0 E.
  - exists st0. split; [constructor|assumption].
  - subst m. destruct (zero_refs_body_total _ _ _ B) as (st1 & B1 & E1).
    destruct (IH st1 E1) as (st & R & E).
    exists st. split; [|assumption].
    econstructor; [split; [exact C|exact B1]|exact R].
Qed.

Lemma zero_refs_visits (s : bytes) (n : Z) :
  opcode_position s n ->
  exists st, iter_steps (zero_refs_cond s) (zero_refs_body s)
               (mk_zero_state 0 [] false) st /\ zs_n st = n.
Proof.
  intros H. now apply (zero_refs_visits_from s 0 n H).
Qed.

Lemma requires_sig_monotone (s : bytes) (a r : zero_state) :
  iter_steps (zero_refs_cond s) (zero_refs_body s) a r ->
  requires_sig a = true -> requires_sig r = true.
Proof.
  intros H.
  apply (iter_steps_invariant (zero_refs_cond s) (zero_refs_body s)
           (fun st => requires_sig st = true)); [|exact H].
  intros st st' T [_ B]. apply zero_refs_body_frame in B.
  destruct B as (op & _ & _ & ->). rewrite T. apply orb_true_r.
Qed.

(** The flag at the end of the walk tells exactly whether a
    signature-check opcode stands at an opcode position. *)
Lemma requires_sig_iff (s : bytes) (st : zero_state) :
  zero_refs_walk (length s) s = Done st ->
  (requires_sig st = true <-> has_sig_opcode s).
Proof.
  unfold zero_refs_walk. intros W. split.
  - apply (while_invariant _ _
             (fun st => opcode_position s (zs_n st) /\
                        (requires_sig st = true -> has_sig_opcode s))) in W.
    + tauto.
    + intros a a' [P I] [C B].
      pose proof B as B'. apply zero_refs_body_frame in B'.
      destruct B' as (op & Bo & N & F).
      unfold zero_refs_cond in C. split.
      * unfold opcode_position in *.
        eapply iter_steps_snoc; [exact P|]. split; assumption.
      * rewrite F. intros T. apply orb_true_iff in T.
        destruct T as [T|T]; [|auto].
        exists (zs_n a), op. auto.
    + split; [constructor|discriminate].
  - intros (n & op & P & B & Sg).
    destruct (zero_refs_visits _ _ P) as (a & Ra & Ea).
    apply while_done_steps in W. destruct W as [Rr Cr].
    pose proof (iter_steps_confluent _ _ _ _ _ Ra Rr Cr) as H.
    pose proof (opcode_position_range _ _ P) as Rg.
    destruct (byte_at_slice _ _ _ (proj1 Rg) B) as [L _].
    inversion H as [|? a1 ? [C1 B1] H1]; subst.
    + unfold zero_refs_cond in Cr. apply Z.ltb_ge in Cr. lia.
    + apply (requires_sig_monotone _ _ _ H1).
      apply zero_refs_body_frame in B1. destruct B1 as (op' & Bo & _ & ->).
      assert (op' = op) by congruence. subst. now rewrite Sg.
Qed.

(** C6: a script that [zero_refs] parses and that has none of
    [OP_CHECKSIG], [OP_CHECKSIGVERIFY], [OP_CHECKMULTISIG],
    [OP_CHECKMULTISIGVERIFY] at an opcode position is returned unchanged,
    whatever reference opcodes it contains. *)
Theorem zero_refs_without_sig_unchanged (s r : bytes) :
  zero_refs s = Done r -> ~ has_sig_opcode s -> r = s.
Proof.
  unfold zero_refs, zero_refs_fuel.
  destruct (zero_refs_walk (length s) s) as [st| |] eqn:W; try discriminate.
  intros E N. inversion E; subst r. clear E.
  destruct (requires_sig st) eqn:F; [|reflexivity].
  exfalso. apply N. now apply (requires_sig_iff s st W).
Qed.

Lemma zero_refs_without_sig_unchanged_witness :
  let s := xd8 :: repeat xaa 36 ++ [x76; xd1] ++ repeat xbb 36 in
  let r := xd8 :: repeat xaa 36 ++ [x76; xd1] ++ repeat xbb 36 in
  zero_refs s = Done r /\ ~ has_sig_opcode s /\ r = s.
Proof.
  intros s r.
  assert (zero_refs s = Done r) as E by (vm_compute; reflexivity).
  assert (~ has_sig_opcode s) as N.
  { rewrite has_sig_opcode_decide. vm_compute. discriminate. }
  split; [exact E|]. split; [exact N|].
  exact (zero_refs_without_sig_unchanged s r E N).
Defined.

(** C10: [zero_refs] looks for signature checks at opcode positions
    only.  When the walk ends, its flag is set exactly when one of the
    four signature-check opcodes stands at an opcode position; bytes
    0xac-0xaf inside a push payload or inside the 36 bytes after a
    reference opcode do not set it, and a script without such an opcode
    at an opcode position is returned byte-identical. *)
Theorem zero_refs_sig_only_at_opcode_positions (s : bytes) (st : zero_state) :
  zero_refs_walk (length s) s = Done st ->
  (requires_sig st = true <-> has_sig_opcode s) /\
  (~ has_sig_opcode s -> zero_refs s = Done s).
Proof.
  intros W. pose proof (requires_sig_iff s st W) as I. split; [exact I|].
  intros N. unfold zero_refs, zero_refs_fuel. rewrite W.
  destruct (requires_sig st); [|reflexivity].
  exfalso. apply N, I. reflexivity.
Qed.

Lemma zero_refs_sig_only_at_opcode_positions_witness :
  let s := [x03; xac; xad; xae; xd0] ++ repeat xaf 36 ++ [x76] in
  In xac s /\ In xaf s /\ zero_refs s = Done s.
Proof.
  intros s.
  assert (zero_refs_walk (length s) s =
          Done (mk_zero_state 42
                  ([x03; xac; xad; xae; xd0] ++ repeat x00 36 ++ [x76]) false))
    as W by (vm_compute; reflexivity).
  destruct (zero_refs_sig_only_at_opcode_positions s _ W) as [I U].
  split; [vm_compute; tauto|]. split; [vm_compute; tauto|].
  apply U. intros H. apply I in H. discriminate H.
Defined.

(* ================================================================= *)
(** * [get_push_input_refs] *)

Lemma ref_opcode_above_pushdata (op : Z) :
  is_ref_opcode op = true -> (op <=? OP_PUSHDATA4) = false.
Proof.
  unfold is_ref_opcode. intros R.
  repeat (apply orb_true_iff in R; destruct R as [R|R]);
    apply Z.eqb_eq in R; subst op; reflexivity.
Qed.

Lemma Interleave_snoc_left {A} (x : A) (l1 l2 l : list A) :
  Interleave l1 l2 l -> Interleave (l1 ++ [x]) l2 (l ++ [x]).
Proof.
  induction 1; cbn; repeat constructor; assumption.
Qed.

Lemma Interleave_snoc_right {A} (x : A) (l1 l2 l : list A) :
  Interleave l1 l2 l -> Interleave l1 (l2 ++ [x]) (l ++ [x]).
Proof.
  induction 1; cbn; repeat constructor; assumption.
Qed.

(** One iteration of [get_push_input_refs]: the cursor moves as
    [next_opcode] says, and the payload after [OP_PUSHINPUTREF] or
    [OP_PUSHINPUTREFSINGLETON] is appended to [all_refs] and to the list
    of its kind. *)
Lemma get_push_input_refs_body_frame (s : bytes) (st st' : refs_state) :
  get_push_input_refs_body s st = Some st' ->
  next_opcode s (rs_n st) = Some (rs_n st') /\
  all_refs st' = all_refs st ++
    (if opcode_at s OP_PUSHINPUTREF (rs_n st) ||
        opcode_at s OP_PUSHINPUTREFSINGLETON (rs_n st)
     then [ref_payload s (rs_n st)] else []) /\
  normal_refs st' = normal_refs st ++
    (if opcode_at s OP_PUSHINPUTREF (rs_n st)
     then [ref_payload s (rs_n st)] else []) /\
  singleton_refs st' = singleton_refs st ++
    (if opcode_at s OP_PUSHINPUTREFSINGLETON (rs_n st)
     then [ref_payload s (rs_n st)] else []).
Proof.
  unfold get_push_input_refs_body, next_opcode, opcode_at, ref_payload.
  destruct (byte_at s (rs_n st)) as [op|] eqn:B; cbn [obind]; [|discriminate].
  destruct (is_ref_opcode op) eqn:R.
  - rewrite (ref_opcode_above_pushdata _ R). cbn [obind].
    replace (rs_n st + 1 + 36) with (rs_n st + 37) by lia.
    destruct (op =? OP_PUSHINPUTREF) eqn:E1.
    + apply Z.eqb_eq in E1. subst op. cbn [orb Z.eqb OP_PUSHINPUTREF
        OP_PUSHINPUTREFSINGLETON Pos.eqb].
      destruct (rs_n st + 37 >? len s); [discriminate|].
      intros E. inversion E. cbn. now rewrite !app_nil_r.
    + destruct (op =? OP_PUSHINPUTREFSINGLETON) eqn:E2; cbn [orb];
        (destruct (rs_n st + 37 >? len s); [discriminate|]);
        intros E; inversion E; cbn; now rewrite !app_nil_r.
  - assert ((op =? OP_PUSHINPUTREF) = false /\
            (op =? OP_PUSHINPUTREFSINGLETON) = false) as [E1 E2].
    { unfold is_ref_opcode in R.
      repeat (apply orb_false_iff in R; destruct R as [R ?]). auto. }
    rewrite E1, E2. cbn [orb].
    destruct (op <=? OP_PUSHDATA4).
    + destruct (pushdata_dlen s op (rs_n st + 1) None) as [[dlen n1]|];
        cbn [obind]; [|discriminate].
      destruct (n1 + dlen >? len s); cbn [obind]; [discriminate|].
      intros E. inversion E. cbn. now rewrite !app_nil_r.
    + cbn [obind]. intros E. inversion E. cbn. now rewrite !app_nil_r.
Qed.

Lemma get_push_input_refs_body_total (s : bytes) (st : refs_state) (n' : Z) :
  next_opcode s (rs_n st) = Some n' ->
  exists st', get_push_input_refs_body s st = Some st' /\ rs_n st' = n'.
Proof.
  unfold get_push_input_refs_body, next_opcode.
  destruct (byte_at s (rs_n st)) as [op|] eqn:B; cbn [obind]; [|discriminate].
  destruct (op <=? OP_PUSHDATA4).
  - destruct (pushdata_dlen s op (rs_n st + 1) None) as [[dlen n1]|];
      cbn [obind]; [|discriminate].
    destruct (n1 + dlen >? len s); cbn [obind]; [discriminate|].
    destruct (is_ref_opcode op).
    + destruct (n1 + dlen + 36 >? len s); [discriminate|].
      intros E. inversion E.
      destruct (_ || _); [destruct (op =? _); [|destruct (op =? _)]|];
        eexists; split; reflexivity.
    + intros E. inversion E. eexists. split; reflexivity.
  - cbn [obind]. destruct (is_ref_opcode op).
    + destruct (rs_n st + 1 + 36 >? len s); [discriminate|].
      intros E. inversion E.
      destruct (_ || _); [destruct (op =? _); [|destruct (op =? _)]|];
        eexists; split; reflexivity.
    + intros E. inversion E. eexists. split; reflexivity.
Qed.

Lemma get_push_input_refs_fuel_enough (s : bytes) :
  get_push_input_refs s <> OutOfFuel.
Proof.
  unfold get_push_input_refs, get_push_input_refs_fuel.
  pose proof (while_enough_fuel (get_push_input_refs_cond s)
                (get_push_input_refs_body s)
                (fun st => Z.to_nat (len s - rs_n st))) as H.
  destruct (while _ _ _ _) eqn:E; try discriminate.
  exfalso. revert E. apply H.
  - intros st C. unfold get_push_input_refs_cond in C. apply Z.ltb_lt in C. lia.
  - intros st st' [C B]. unfold get_push_input_refs_cond in C.
    apply Z.ltb_lt in C. apply get_push_input_refs_body_frame in B.
    destruct B as [N _]. apply next_opcode_advance in N. lia.
  - cbn. unfold len. lia.
Qed.

(** The three lists at the end of a run, read off the opcode positions
    that the run goes through. *)
Lemma get_push_input_refs_trace (s : bytes) (fuel : nat) (st r : refs_state) :
  while (get_push_input_refs_cond s) (get_push_input_refs_body s) fuel st
    = Done r ->
  let ps := trace (fun n => n <? len s) (next_opcode s) fuel (rs_n st) in
  all_refs r = all_refs st ++
    map (ref_payload s)
        (filter (fun n => opcode_at s OP_PUSHINPUTREF n ||
                          opcode_at s OP_PUSHINPUTREFSINGLETON n) ps) /\
  normal_refs r = normal_refs st ++
    map (ref_payload s) (filter (opcode_at s OP_PUSHINPUTREF) ps) /\
  singleton_refs r = singleton_refs st ++
    map (ref_payload s) (filter (opcode_at s OP_PUSHINPUTREFSINGLETON) ps).
Proof.
  revert st. induction fuel as [|fuel IH]; intros st; cbn;
    unfold get_push_input_refs_cond at 1;
    destruct (rs_n st <? len s) eqn:C; try discriminate.
  - intros E. inversion E. cbn. now rewrite !app_nil_r.
  - destruct (get_push_input_refs_body s st) as [st'|] eqn:B; [|discriminate].
    intros E. specialize (IH _ E). cbn in IH.
    destruct IH as (I1 & I2 & I3).
    apply get_push_input_refs_body_frame in B.
    destruct B as (N & A1 & A2 & A3).
    rewrite N. cbn [filter].
    rewrite I1, I2, I3, A1, A2, A3.
    destruct (opcode_at s OP_PUSHINPUTREF (rs_n st));
      destruct (opcode_at s OP_PUSHINPUTREFSINGLETON (rs_n st));
      cbn; rewrite <- ?app_assoc; cbn; rewrite ?app_nil_r; auto.
  - intros E. inversion E. cbn. now rewrite !app_nil_r.
Qed.

Lemma get_push_input_refs_interleave (s : bytes) (fuel : nat) (r : refs_state) :
  while (get_push_input_refs_cond s) (get_push_input_refs_body s) fuel
        (mk_refs_state 0 [] [] []) = Done r ->
  Interleave (normal_refs r) (singleton_refs r) (all_refs r).
Proof.
  intros W.
  apply (while_invariant _ _
           (fun st => Interleave (normal_refs st) (singleton_refs st)
                                 (all_refs st))) in W.
  - tauto.
  - intros st st' I [_ B]. apply get_push_input_refs_body_frame in B.
    destruct B as (_ & -> & -> & ->).
    destruct (opcode_at s OP_PUSHINPUTREF (rs_n st)) eqn:E1; cbn [orb].
    + assert (opcode_at s OP_PUSHINPUTREFSINGLETON (rs_n st) = false) as ->.
      { unfold opcode_at in *. destruct (byte_at s (rs_n st)); [|reflexivity].
        apply Z.eqb_eq in E1. subst. reflexivity. }
      rewrite app_nil_r. now apply Interleave_snoc_left.
    + destruct (opcode_at s OP_PUSHINPUTREFSINGLETON (rs_n st));
        rewrite ?app_nil_r; [now apply Interleave_snoc_right|assumption].
  - cbn. constructor.
Qed.

Lemma get_push_input_refs_visits_from (s : bytes) (z n : Z) :
  iter_steps (fun n => n <? len s) (next_opcode s) z n ->
  forall st0, rs_n st0 = z ->
  exists st, iter_steps (get_push_input_refs_cond s)
               (get_push_input_refs_body s) st0 st /\ rs_n st = n.
Proof.
  induction 1 as [m|m m1 m2 [C B] _ IH]; intros st0 E.
  - exists st0. split; [constructor|assumption].
  - subst m.
    destruct (get_push_input_refs_body_total _ _ _ B) as (st1 & B1 & E1).
    destruct (IH st1 E1) as (st & R & E).
    exists st. split; [|assumption].
    econstructor; [split; [exact C|exact B1]|exact R].
Qed.

(** C7: when [get_push_input_refs] succeeds, [all_refs] is the merge, in
    encounter order, of [normal_refs] and [singleton_refs]: the three
    lists are the 36-byte payloads found at the opcode positions holding
    [OP_PUSHINPUTREF] or [OP_PUSHINPUTREFSINGLETON], only the former, and
    only the latter.  An iteration that reads [OP_REQUIREINPUTREF],
    [OP_DISALLOWPUSHINPUTREF] or [OP_DISALLOWPUSHINPUTREFSIBLING] moves
    the cursor past the opcode and its 36 bytes and leaves the three
    lists as they are.  When the walk reaches an iteration that raises
    (a truncated script), the function raises [ScriptError] and returns
    no list; it never fails to terminate. *)
Theorem get_push_input_refs_spec (s : bytes) :
  (forall all normal singleton,
     get_push_input_refs s = Done (all, normal, singleton) ->
     Interleave normal singleton all /\
     all = map (ref_payload s)
             (filter (fun n => opcode_at s OP_PUSHINPUTREF n ||
                               opcode_at s OP_PUSHINPUTREFSINGLETON n)
                     (opcode_positions s)) /\
     normal = map (ref_payload s)
                (filter (opcode_at s OP_PUSHINPUTREF) (opcode_positions s)) /\
     singleton = map (ref_payload s)
                   (filter (opcode_at s OP_PUSHINPUTREFSINGLETON)
                           (opcode_positions s))) /\
  (forall st op,
     byte_at s (rs_n st) = Some op ->
     op = OP_REQUIREINPUTREF \/ op = OP_DISALLOWPUSHINPUTREF \/
     op = OP_DISALLOWPUSHINPUTREFSIBLING ->
     rs_n st + 37 <= len s ->
     get_push_input_refs_body s st =
     Some (mk_refs_state (rs_n st + 37) (all_refs st) (normal_refs st)
                         (singleton_refs st))) /\
  (forall n,
     opcode_position s n -> n < len s -> next_opcode s n = None ->
     get_push_input_refs s = Raised (ScriptError "get_push_input_refs script")) /\
  get_push_input_refs s <> OutOfFuel.
Proof.
  split; [|split; [|split]].
  - unfold get_push_input_refs, get_push_input_refs_fuel, opcode_positions.
    intros all normal singleton.
    destruct (while _ _ _ _) as [r| |] eqn:W; try discriminate.
    intros E. inversion E; subst. clear E.
    split; [eapply get_push_input_refs_interleave; exact W|].
    exact (get_push_input_refs_trace _ _ _ _ W).
  - intros st op B Hop L. unfold get_push_input_refs_body. rewrite B.
    cbn [obind].
    destruct Hop as [-> | [-> | ->]]; cbn;
      (destruct (Z.gtb_spec (rs_n st + 1 + 36) (len s)); [lia|]);
      do 2 f_equal; lia.
  - intros n P L N.
    destruct (get_push_input_refs_visits_from s 0 n P
                (mk_refs_state 0 [] [] []) eq_refl) as (a & Ra & Ea).
    pose proof (get_push_input_refs_fuel_enough s) as F.
    unfold get_push_input_refs, get_push_input_refs_fuel in *.
    rewrite (while_raises _ _ _ _ a Ra).
    + reflexivity.
    + unfold get_push_input_refs_cond. rewrite Ea. now apply Z.ltb_lt.
    + destruct (get_push_input_refs_body s a) as [a'|] eqn:B; [|reflexivity].
      apply get_push_input_refs_body_frame in B. destruct B as [B _].
      rewrite Ea in B. congruence.
    + destruct (while _ _ _ _); congruence.
  - apply get_push_input_refs_fuel_enough.
Qed.

Lemma get_push_input_refs_spec_witness :
  let a := repeat xaa 36 in
  let b := repeat xbb 36 in
  let s := xd0 :: a ++ xd8 :: b ++ xd1 :: repeat xcc 36 ++ xd0 :: b in
  let t := xd0 :: repeat xaa 35 in
  (get_push_input_refs s = Done ([a; b; b], [a; b], [b]) /\
   Interleave [a; b] [b] [a; b; b]) /\
  get_push_input_refs_body s (mk_refs_state 74 [a; b] [a] [b]) =
    Some (mk_refs_state 111 [a; b] [a] [b]) /\
  get_push_input_refs t = Raised (ScriptError "get_push_input_refs script").
Proof.
  intros a b s t.
  assert (get_push_input_refs s = Done ([a; b; b], [a; b], [b])) as E
      by (vm_compute; reflexivity).
  split; [split; [exact E|]|split].
  - exact (proj1 (proj1 (get_push_input_refs_spec s) _ _ _ E)).
  - apply (proj1 (proj2 (get_push_input_refs_spec s))
             (mk_refs_state 74 [a; b] [a] [b]) 209).
    + vm_compute. reflexivity.
    + left. reflexivity.
    + vm_compute. discriminate.
  - apply (proj1 (proj2 (proj2 (get_push_input_refs_spec t))) 0).
    + constructor.
    + vm_compute. reflexivity.
    + vm_compute. reflexivity.
Defined.

(** An iteration of [zero_refs] that reads [OP_PUSHDATA1], [OP_PUSHDATA2]
    or [OP_PUSHDATA4] appends the opcode and the payload only: fewer
    bytes than the cursor moves over. *)
Lemma zero_refs_body_pushdata (s : bytes) (st st' : zero_state) (op : Z) :
  0 <= zs_n st ->
  byte_at s (zs_n st) = Some op ->
  is_pushdata_opcode op = true ->
  zero_refs_body s st = Some st' ->
  len (zs_ops st') - len (zs_ops st) < zs_n st' - zs_n st.
Proof.
  intros Hn B Pd. unfold zero_refs_body. rewrite B. cbn [obind].
  pose proof (byte_at_range _ _ _ B) as R.
  assert (76 <= op <= 78) as Ro.
  { unfold is_pushdata_opcode, OP_PUSHDATA1, OP_PUSHDATA2, OP_PUSHDATA4 in Pd.
    repeat (apply orb_true_iff in Pd; destruct Pd as [Pd|Pd]);
      apply Z.eqb_eq in Pd; lia. }
  assert (is_ref_opcode op = false) as ->.
  { destruct (is_ref_opcode op) eqn:E; [|reflexivity].
    apply ref_opcode_above_pushdata in E. unfold OP_PUSHDATA4 in E.
    apply Z.leb_gt in E. lia. }
  destruct (Z.leb_spec op OP_PUSHDATA4) as [Le|Gt];
    [|unfold OP_PUSHDATA4 in Gt; lia].
  destruct (pushdata_dlen s op (zs_n st + 1) None) as [[dlen n1]|] eqn:P;
    cbn [obind]; [|discriminate].
  apply pushdata_dlen_spec in P; try lia.
  destruct P as (A1 & A2 & A3 & A4).
  destruct (Z.gtb_spec (n1 + dlen) (len s)) as [G|G]; cbn [obind];
    [discriminate|].
  intros E. inversion E; subst st'. clear E. cbn [zs_n zs_ops].
  rewrite !len_app. change (len [z2b op]) with 1.
  rewrite (len_slice s n1 (n1 + dlen)) by lia.
  assert (1 <= len (slice s (zs_n st + 1) n1)) as Lp.
  { rewrite A4. unfold length_prefix, OP_PUSHDATA1, OP_PUSHDATA2, OP_PUSHDATA4.
    destruct (Z.eqb_spec op 76); [cbn; lia|].
    destruct (Z.eqb_spec op 77); [cbn; lia|].
    destruct (Z.eqb_spec op 78); [cbn; lia|lia]. }
  rewrite len_slice_general in Lp by lia. lia.
Qed.

(** C5 (the code departs from the claim): [zero_refs] consumes the
    length bytes of [OP_PUSHDATA1/2/4] without copying them.  The script
    [OP_PUSHDATA1 0x01 0xaa OP_CHECKSIG] parses and has a signature-check
    opcode at an opcode position, and [zero_refs] returns the three
    bytes [4c aa ac]: not a buffer of the same length. *)
Theorem zero_refs_drops_pushdata_length :
  let s := [x4c; x01; xaa; xac] in
  get_ops s = Done [Push 76 [xaa]; Bare 172] /\
  has_sig_opcode s /\
  zero_refs s = Done [x4c; xaa; xac] /\
  length [x4c; xaa; xac] <> length s.
Proof.
  cbv zeta. split; [vm_compute; reflexivity|].
  split; [rewrite has_sig_opcode_decide; vm_compute; reflexivity|].
  split; [vm_compute; reflexivity|cbn; lia].
Qed.

(* ================================================================= *)
(** * [get_state] and [get_hashoutputs] *)

Lemma slice_of_slice_from {A} (l : list A) (a w : Z) :
  0 <= a -> 0 <= w -> a + w <= len l ->
  slice (slice_from l a) 0 w = slice l a (a + w).
Proof.
  intros Ha Hw L. unfold slice_from. rewrite clamp_in_range by lia.
  rewrite (slice_in_range l a (a + w)) by lia.
  assert (len (skipn (Z.to_nat a) l) = len l - a) as Ls
      by (unfold len in *; rewrite length_skipn; lia).
  rewrite slice_in_range by lia.
  cbn [Z.to_nat skipn]. f_equal; lia.
Qed.

Lemma len_slice_from {A} (l : list A) (a : Z) :
  0 <= a <= len l -> len (slice_from l a) = len l - a.
Proof.
  intros H. unfold slice_from. rewrite clamp_in_range by lia.
  unfold len in *. rewrite length_skipn. lia.
Qed.

(** What [get_state] computes on a script of at least 6 bytes. *)
Lemma get_state_unfold (script : bytes) :
  6 <= len script ->
  let L := len script in
  let stateLen := le_decode (slice script (L - 5) (L - 1)) in
  get_state script =
  if L <? 1 + stateLen + 4 + 1 then Ok None
  else match byte_at script (L - 5 - stateLen - 1) with
       | None => Err IndexError
       | Some b => if negb (b =? OP_RETURN) then Ok None
                   else Ok (Some (L - 5 - stateLen))
       end.
Proof.
  intros H L stateLen. unfold get_state. fold L.
  destruct (Z.ltb_spec L (1 + 0 + 4 + 1)); [lia|].
  unfold unpack_le_uint32_from. rewrite unpack_from_unsigned_0.
  rewrite len_slice_from by (unfold L; lia). fold L.
  destruct (Z.ltb_spec (L - (L - 5)) (Z.of_nat 4)); [lia|].
  rewrite slice_of_slice_from by (unfold L in *; lia).
  replace (L - 5 + Z.of_nat 4) with (L - 1) by lia.
  reflexivity.
Qed.

(** C2 as stated fails: the script [51 6a], 20 zero state bytes, then
    the little-endian u32 20 has 26 bytes, its last four bytes decode to
    20, and the byte before position [26 - 4 - 20] is [OP_RETURN]; yet
    [get_state] does not return [len - 24]: it reads the length one byte
    earlier (0x1400) and returns [False]. *)
Lemma get_state_counterexample :
  let script := [x51; x6a] ++ repeat x00 20 ++ [x14; x00; x00; x00] in
  6 <= len script /\
  le_decode (slice script (len script - 4) (len script)) = 20 /\
  1 + 20 + 4 + 1 <= len script /\
  byte_at script (len script - 4 - 20 - 1) = Some OP_RETURN /\
  get_state script = Ok None /\
  get_state script <> Ok (Some (len script - 24)).
Proof.
  cbv zeta. repeat split; try (vm_compute; congruence).
Qed.

Lemma slice_app_left {A} (l1 l2 : list A) : slice (l1 ++ l2) 0 (len l1) = l1.
Proof.
  pose proof (len_nonneg l1). pose proof (len_nonneg l2).
  rewrite slice_in_range by (rewrite ?len_app; lia).
  cbn [Z.to_nat skipn]. rewrite Z.sub_0_r. unfold len. rewrite Nat2Z.id.
  rewrite firstn_app, Nat.sub_diag, firstn_all. cbn. apply app_nil_r.
Qed.

Lemma slice_app_right {A} (l1 l2 : list A) :
  slice (l1 ++ l2) (len l1) (len (l1 ++ l2)) = l2.
Proof.
  pose proof (len_nonneg l1). pose proof (len_nonneg l2).
  rewrite slice_in_range by (rewrite ?len_app; lia).
  rewrite len_app. unfold len. rewrite Nat2Z.id.
  rewrite skipn_app, Nat.sub_diag, skipn_all. cbn.
  replace (Z.to_nat _) with (length l2) by lia. apply firstn_all.
Qed.

Lemma slice_app_skip {A} (l1 l2 : list A) (a b : Z) :
  0 <= a <= b -> b <= len l2 ->
  slice (l1 ++ l2) (len l1 + a) (len l1 + b) = slice l2 a b.
Proof.
  intros H1 H2. pose proof (len_nonneg l1).
  rewrite !slice_in_range by (rewrite ?len_app; lia).
  replace (Z.to_nat (len l1 + a)) with (Z.to_nat a + length l1)%nat
    by (unfold len; lia).
  rewrite <- skipn_skipn, skipn_app, Nat.sub_diag, skipn_all. cbn [skipn app].
  f_equal. lia.
Qed.

Lemma getitem_app_skip {A} (l1 l2 : list A) (i : Z) :
  0 <= i -> getitem (l1 ++ l2) (len l1 + i) = getitem l2 i.
Proof.
  intros H. pose proof (len_nonneg l1).
  rewrite !getitem_nonneg by lia.
  rewrite nth_error_app2 by (unfold len; lia).
  f_equal. unfold len. lia.
Qed.

Lemma pack_le_unsigned (w : nat) (v : Z) :
  0 <= v < 2 ^ (8 * Z.of_nat w) -> pack_le w false v = Some (le_encode w v).
Proof.
  intros H. unfold pack_le.
  destruct (Z.leb_spec 0 v); [|lia].
  destruct (Z.ltb_spec v (2 ^ (8 * Z.of_nat w))); [|lia].
  cbn [andb]. now rewrite Z.mod_small by lia.
Qed.

Section HashOutputs.
Variable sha256 : bytes -> bytes.

(** C2 (amended): [get_state] takes the last byte of the script for a
    version byte.  On a [pk_script] of length [L >= 6] it decodes the
    little-endian u32 [stateLen] from the four bytes at positions
    [L-5..L-1]; when [L >= 1 + stateLen + 4 + 1] and the byte at [pc - 1]
    is [OP_RETURN], with [pc = L - 5 - stateLen], it returns [pc].  In
    particular, for an output whose [pk_script] ends with [OP_RETURN],
    20 state bytes, the little-endian u32 20 and one further byte, the
    split point is [len - 25] and [get_hashoutputs] hashes the two parts
    of the script on either side of it. *)
Theorem get_state_split_point :
  (forall script : bytes,
     6 <= len script ->
     let L := len script in
     let stateLen := le_decode (slice script (L - 5) (L - 1)) in
     let pc := L - 5 - stateLen in
     1 + stateLen + 4 + 1 <= L ->
     byte_at script (pc - 1) = Some OP_RETURN ->
     get_state script = Ok (Some pc)) /\
  (forall (payload state : bytes) (v : byte) (amount : Z),
     length state = 20%nat ->
     0 <= amount < 2 ^ 64 ->
     let pk := (payload ++ [x6a]) ++ state ++ le_encode 4 20 ++ [v] in
     get_state pk = Ok (Some (len pk - 25)) /\
     outputhash sha256 (mk_TxOutput amount pk None) =
     Ok (le_encode 8 amount ++ sha256 pk
         ++ sha256 (payload ++ [x6a])
         ++ sha256 (state ++ le_encode 4 20 ++ [v]))).
Proof.
  assert (forall script : bytes,
     6 <= len script ->
     let L := len script in
     let stateLen := le_decode (slice script (L - 5) (L - 1)) in
     let pc := L - 5 - stateLen in
     1 + stateLen + 4 + 1 <= L ->
     byte_at script (pc - 1) = Some OP_RETURN ->
     get_state script = Ok (Some pc)) as Main.
  { intros script H L stateLen pc H1 H2.
    rewrite get_state_unfold by assumption. fold L. fold stateLen.
    destruct (Z.ltb_spec L (1 + stateLen + 4 + 1)); [lia|].
    fold pc. rewrite H2. reflexivity. }
  split; [exact Main|].
  intros payload state v amount Hs Ha pk.
  set (front := payload ++ [x6a]).
  assert (len front = len payload + 1) as Lf
      by (unfold front; rewrite len_app; reflexivity).
  assert (len state = 20) as Ls by (unfold len; lia).
  assert (len pk = len front + 25) as Lpk.
  { unfold pk. fold front. rewrite !len_app, Ls. reflexivity. }
  pose proof (len_nonneg payload) as Hp.
  assert (le_decode (slice pk (len pk - 5) (len pk - 1)) = 20) as D.
  { unfold pk at 1. fold front. rewrite !app_assoc.
    rewrite <- (app_assoc _ (le_encode 4 20) [v]).
    replace (len pk - 5) with (len (front ++ state) + 0)
      by (rewrite len_app; lia).
    replace (len pk - 1) with (len (front ++ state) + 4)
      by (rewrite len_app; lia).
    rewrite slice_app_skip by (cbn; lia).
    reflexivity. }
  assert (get_state pk = Ok (Some (len pk - 25))) as G.
  { replace (len pk - 25) with
      (len pk - 5 - le_decode (slice pk (len pk - 5) (len pk - 1))) by lia.
    apply Main; rewrite ?D; try lia.
    replace (len pk - 5 - 20 - 1) with (len payload + 0) by lia.
    unfold byte_at, pk, front. rewrite <- !app_assoc.
    rewrite getitem_app_skip by lia. reflexivity. }
  split; [exact G|].
  unfold outputhash. cbn [contract value pk_script ebind].
  unfold pack_le_uint64. rewrite pack_le_unsigned by (cbn; lia).
  cbn [join obind packed ebind app]. rewrite G. cbn [ebind truthy].
  destruct (Z.eqb_spec (len pk - 25) 0); [lia|]. cbn [negb].
  rewrite app_nil_r.
  replace (len pk - 25) with (len front) by lia.
  assert (slice pk 0 (len front) = front) as -> by apply slice_app_left.
  assert (slice pk (len front) (len pk) = state ++ le_encode 4 20 ++ [v]) as ->
      by apply slice_app_right.
  now rewrite <- app_assoc.
Qed.

End HashOutputs.

Lemma get_state_split_point_witness :
  let script := [x76; x6a; xaa; xbb; x02; x00; x00; x00; x01] in
  let pk := ([x51; x52] ++ [x6a]) ++ repeat xcc 20 ++ le_encode 4 20 ++ [x01] in
  get_state script = Ok (Some 2) /\
  get_state pk = Ok (Some (len pk - 25)).
Proof.
  intros script pk. split.
  - apply (proj1 (get_state_split_point (fun b => b)) script).
    + vm_compute. discriminate.
    + vm_compute. discriminate.
    + vm_compute. reflexivity.
  - apply (proj2 (get_state_split_point (fun b => b)) [x51; x52]
             (repeat xcc 20) x01 5000).
    + reflexivity.
    + lia.
Defined.


(* ================================================================= *)
(** * The [Deserializer]: reads past the end of the buffer *)

Lemma unpack_from_past_end (w : nat) (signed : bool) (binary : bytes) (cursor : Z) :
  0 <= cursor -> len binary < cursor + Z.of_nat w ->
  unpack_from w signed binary cursor = Err StructError.
Proof.
  intros H L. unfold unpack_from.
  destruct (Z.ltb_spec cursor 0); [lia|].
  destruct (Z.ltb_spec cursor 0); [lia|].
  destruct (Z.ltb_spec (len binary - cursor) (Z.of_nat w)); [|lia].
  reflexivity.
Qed.

Lemma read_unpacked_past_end (w : nat) (signed : bool) (binary : bytes) (cursor : Z) :
  0 <= cursor -> len binary < cursor + Z.of_nat w ->
  read_unpacked (unpack_from w signed) (Z.of_nat w) binary cursor
  = Raised StructError.
Proof.
  intros H L. unfold read_unpacked.
  now rewrite unpack_from_past_end.
Qed.

Lemma byte_at_past_end (binary : bytes) (cursor : Z) :
  len binary <= cursor -> byte_at binary cursor = None.
Proof.
  intros L. unfold byte_at. now rewrite getitem_out_of_range.
Qed.

(** C9 as stated fails: on the empty buffer [_read_byte] raises
    [IndexError], [_read_nbytes(1)] raises [AssertionError] and
    [_read_le_uint32] raises [struct.error]; of the entry points,
    [read_tx] raises [struct.error] and [read_tx_block] raises
    [IndexError]. *)
Lemma read_past_end_counterexample :
  _read_byte [] 0 = Raised IndexError /\
  _read_nbytes 1 [] 0 = Raised AssertionError /\
  _read_le_uint32 [] 0 = Raised StructError /\
  read_tx 0 0 [] 0 = Raised StructError /\
  read_tx_block 0 0 (fun b => b) (fun b => b) [] 0 = Raised IndexError /\
  IndexError <> AssertionError /\ AssertionError <> StructError /\
  IndexError <> StructError.
Proof.
  repeat split; try reflexivity; discriminate.
Qed.

Section PastEnd.
Variable CONTRACT_FLAG : Z.
Variable MAX_CONTRACT_TYPE : Z.
Variable sha256 : bytes -> bytes.
Variable double_sha256 : bytes -> bytes.

(** C9 (amended): a read primitive that attempts to read past the end of
    the buffer always fails, with an exception that depends on the
    primitive: [IndexError] from [_read_byte] and from the first byte of
    [_read_varint], [AssertionError] from [_read_nbytes] (and from the
    payload of [_read_varbytes]), [struct.error] from the fixed-width
    readers (and from the value bytes of [_read_varint]).  The entry
    points do not convert them: [read_tx] and [read_tx_and_hash] on a
    buffer too short for the version raise [struct.error], and
    [read_tx_block] on a buffer without a count byte raises
    [IndexError]. *)
Theorem read_past_end_raises (binary : bytes) (cursor : Z) :
  0 <= cursor ->
  (len binary <= cursor -> _read_byte binary cursor = Raised IndexError) /\
  (forall n, len binary < cursor + n ->
             _read_nbytes n binary cursor = Raised AssertionError) /\
  (len binary < cursor + 4 ->
     _read_le_int32 binary cursor = Raised StructError /\
     _read_le_uint32 binary cursor = Raised StructError) /\
  (len binary < cursor + 8 ->
     _read_le_int64 binary cursor = Raised StructError /\
     _read_le_uint64 binary cursor = Raised StructError) /\
  (len binary < cursor + 2 ->
     _read_le_uint16 binary cursor = Raised StructError) /\
  (len binary < cursor + 32 ->
     _read_uint256 binary cursor = Raised StructError) /\
  (len binary <= cursor -> _read_varint binary cursor = Raised IndexError) /\
  (forall d, byte_at binary cursor = Some d -> 253 <= d ->
     len binary < cursor + 1 + (if d =? 253 then 2 else if d =? 254 then 4 else 8) ->
     _read_varint binary cursor = Raised StructError) /\
  (len binary <= cursor -> _read_varbytes binary cursor = Raised IndexError) /\
  (forall n c, _read_varint binary cursor = Done (n, c) -> len binary < c + n ->
     _read_varbytes binary cursor = Raised AssertionError) /\
  (len binary < cursor + 4 ->
     read_tx CONTRACT_FLAG MAX_CONTRACT_TYPE binary cursor = Raised StructError /\
     read_tx_and_hash CONTRACT_FLAG MAX_CONTRACT_TYPE sha256 double_sha256
       binary cursor = Raised StructError) /\
  (len binary <= cursor ->
     read_tx_block CONTRACT_FLAG MAX_CONTRACT_TYPE sha256 double_sha256
       binary cursor = Raised IndexError).
Proof.
  intros H.
  assert (forall w signed, len binary < cursor + Z.of_nat w ->
            read_unpacked (unpack_from w signed) (Z.of_nat w) binary cursor
            = Raised StructError) as U
      by (intros; now apply read_unpacked_past_end).
  assert (len binary <= cursor -> _read_varint binary cursor = Raised IndexError)
    as V.
  { intros L. unfold _read_varint. now rewrite byte_at_past_end. }
  repeat match goal with |- _ /\ _ => split end.
  - intros L. unfold _read_byte. now rewrite byte_at_past_end.
  - intros n L. unfold _read_nbytes.
    destruct (Z.geb_spec (len binary) (cursor + n)); [lia|reflexivity].
  - intros L. split; [apply (U 4%nat true)|apply (U 4%nat false)]; exact L.
  - intros L. split; [apply (U 8%nat true)|apply (U 8%nat false)]; exact L.
  - intros L. apply (U 2%nat false). exact L.
  - intros L. apply (U 32%nat false). exact L.
  - exact V.
  - intros d B D L. unfold _read_varint. rewrite B.
    destruct (Z.ltb_spec d 253); [lia|].
    pose proof (byte_at_range _ _ _ B).
    destruct (Z.eqb_spec d 253).
    { apply (read_unpacked_past_end 2 false); lia. }
    destruct (Z.eqb_spec d 254).
    { apply (read_unpacked_past_end 4 false); lia. }
    apply (read_unpacked_past_end 8 false); lia.
  - intros L. unfold _read_varbytes, rbind. now rewrite V.
  - intros n c E L. unfold _read_varbytes, rbind. rewrite E.
    unfold _read_nbytes.
    destruct (Z.geb_spec (len binary) (c + n)); [lia|reflexivity].
  - intros L.
    pose proof (U 4%nat true L : _read_le_int32 binary cursor = _) as E.
    split.
    + unfold read_tx, rbind. now rewrite E.
    + unfold read_tx_and_hash, read_tx, rbind, get_cursor. now rewrite E.
  - intros L. unfold read_tx_block, rbind. now rewrite V.
Qed.
End PastEnd.

Lemma read_past_end_raises_witness :
  let binary := [xfd; x01] in
  _read_nbytes 5 binary 1 = Raised AssertionError /\
  _read_varint binary 0 = Raised StructError /\
  _read_le_uint16 binary 1 = Raised StructError.
Proof.
  intros binary.
  assert (0 <= 0) as H0 by lia. assert (0 <= 1) as H1 by lia.
  pose proof (read_past_end_raises 0 0 (fun b => b) (fun b => b) binary 0 H0)
    as A.
  pose proof (read_past_end_raises 0 0 (fun b => b) (fun b => b) binary 1 H1)
    as B.
  split; [|split].
  - apply (proj1 (proj2 B)). vm_compute. reflexivity.
  - apply (proj1 (proj2 (proj2 (proj2 (proj2 (proj2 (proj2 (proj2 A))))))) 253).
    + reflexivity.
    + lia.
    + vm_compute. reflexivity.
  - apply (proj1 (proj2 (proj2 (proj2 (proj2 B))))). vm_compute. reflexivity.
Defined.

(* ================================================================= *)
(** * The [Deserializer]: reading back what [serialize] wrote *)

Lemma slice_app_mid {A} (pre enc post : list A) :
  slice (pre ++ enc ++ post) (len pre) (len pre + len enc) = enc.
Proof.
  pose proof (len_nonneg enc).
  replace (len pre) with (len pre + 0) at 1 by lia.
  rewrite slice_app_skip by (rewrite ?len_app; pose proof (len_nonneg post); lia).
  apply slice_app_left.
Qed.

Lemma reads_ret {A} (a : A) : reads (ret a) [] a.
Proof.
  intros pre post. unfold ret. cbn. now rewrite Z.add_0_r.
Qed.

Lemma reads_bind {A B} (m : reader A) (k : A -> reader B)
    (e1 e2 : bytes) (a : A) (b : B) :
  reads m e1 a -> reads (k a) e2 b -> reads (rbind m k) (e1 ++ e2) b.
Proof.
  intros H1 H2 pre post. unfold rbind.
  rewrite <- app_assoc. rewrite (H1 pre (e2 ++ post)).
  specialize (H2 (pre ++ e1) post).
  rewrite len_app in H2. rewrite <- app_assoc in H2. rewrite H2.
  rewrite len_app. f_equal. f_equal. lia.
Qed.

(** [w] bytes that encode [u], read back unsigned or signed. *)
Lemma reads_unpacked (w : nat) (signed : bool) (u : Z) :
  0 <= u < 2 ^ (8 * Z.of_nat w) ->
  reads (read_unpacked (unpack_from w signed) (Z.of_nat w))
        (le_encode w u)
        (if signed && (2 ^ (8 * Z.of_nat w - 1) <=? u)
         then u - 2 ^ (8 * Z.of_nat w) else u).
Proof.
  intros R pre post. unfold read_unpacked, unpack_from.
  pose proof (len_nonneg pre). pose proof (len_nonneg post).
  assert (len (le_encode w u) = Z.of_nat w) as Le
      by (unfold len; now rewrite length_le_encode).
  destruct (Z.ltb_spec (len pre) 0); [lia|].
  destruct (Z.ltb_spec (len pre) 0); [lia|].
  rewrite !len_app, Le.
  destruct (Z.ltb_spec (len pre + (Z.of_nat w + len post) - len pre) (Z.of_nat w));
    [lia|]. cbn [orb].
  assert (slice (pre ++ le_encode w u ++ post) (len pre)
                (len pre + Z.of_nat w) = le_encode w u) as ->
      by (rewrite <- Le; apply slice_app_mid).
  rewrite le_decode_encode.
  - reflexivity.
  - replace (256 ^ Z.of_nat w) with (2 ^ (8 * Z.of_nat w)); [assumption|].
    rewrite Z.pow_mul_r by lia. reflexivity.
Qed.

Lemma reads_unsigned (w : nat) (v : Z) :
  0 <= v < 2 ^ (8 * Z.of_nat w) ->
  reads (read_unpacked (unpack_from w false) (Z.of_nat w)) (le_encode w v) v.
Proof.
  intros R. exact (reads_unpacked w false v R).
Qed.

Lemma reads_signed (w : nat) (v : Z) :
  (0 < w)%nat ->
  - 2 ^ (8 * Z.of_nat w - 1) <= v < 2 ^ (8 * Z.of_nat w - 1) ->
  reads (read_unpacked (unpack_from w true) (Z.of_nat w))
        (le_encode w (v mod 2 ^ (8 * Z.of_nat w))) v.
Proof.
  intros Hw R.
  assert (2 ^ (8 * Z.of_nat w) = 2 * 2 ^ (8 * Z.of_nat w - 1)) as P.
  { rewrite <- Z.pow_succ_r by lia. f_equal. lia. }
  assert (0 < 2 ^ (8 * Z.of_nat w - 1)) as Pp by (apply Z.pow_pos_nonneg; lia).
  assert (0 < 2 ^ (8 * Z.of_nat w)) as Pw by lia.
  pose proof (reads_unpacked w true (v mod 2 ^ (8 * Z.of_nat w))
                (Z.mod_pos_bound _ _ Pw)) as H.
  cbn [andb] in H.
  replace (if 2 ^ (8 * Z.of_nat w - 1) <=? v mod 2 ^ (8 * Z.of_nat w)
           then v mod 2 ^ (8 * Z.of_nat w) - 2 ^ (8 * Z.of_nat w)
           else v mod 2 ^ (8 * Z.of_nat w)) with v in H; [exact H|].
  destruct (Z.lt_ge_cases v 0).
  - assert (v mod 2 ^ (8 * Z.of_nat w) = v + 2 ^ (8 * Z.of_nat w)) as ->
        by (symmetry; apply (Z.mod_unique _ _ (-1)); lia).
    destruct (Z.leb_spec (2 ^ (8 * Z.of_nat w - 1)) (v + 2 ^ (8 * Z.of_nat w)));
      lia.
  - rewrite Z.mod_small by lia.
    destruct (Z.leb_spec (2 ^ (8 * Z.of_nat w - 1)) v); lia.
Qed.

Lemma pack_le_signed (w : nat) (v : Z) :
  - 2 ^ (8 * Z.of_nat w - 1) <= v < 2 ^ (8 * Z.of_nat w - 1) ->
  pack_le w true v = Some (le_encode w (v mod 2 ^ (8 * Z.of_nat w))).
Proof.
  intros H. unfold pack_le.
  destruct (Z.leb_spec (- 2 ^ (8 * Z.of_nat w - 1)) v); [|lia].
  destruct (Z.ltb_spec v (2 ^ (8 * Z.of_nat w - 1))); [|lia].
  reflexivity.
Qed.

Lemma reads_nbytes (b : bytes) : reads (_read_nbytes (len b)) b b.
Proof.
  intros pre post. unfold _read_nbytes.
  pose proof (len_nonneg post).
  rewrite !len_app.
  destruct (Z.geb_spec (len pre + (len b + len post)) (len pre + len b)); [|lia].
  now rewrite slice_app_mid.
Qed.

Lemma byte_at_app_mid (pre post : bytes) (b : byte) :
  byte_at (pre ++ b :: post) (len pre) = Some (b2z b).
Proof.
  unfold byte_at. replace (len pre) with (len pre + 0) by lia.
  rewrite getitem_app_skip by lia. reflexivity.
Qed.

(** A varint is read back, and takes at least one byte. *)
Lemma reads_varint (n : Z) :
  0 <= n < 2 ^ 64 ->
  exists enc, pack_varint n = Some enc /\ 1 <= len enc /\
              reads _read_varint enc n.
Proof.
  intros R. unfold pack_varint.
  assert (forall (d : Z) (w : nat) (v : Z),
            253 <= d < 256 -> 0 <= v < 2 ^ (8 * Z.of_nat w) ->
            (forall binary cursor,
               (if d =? 253 then _read_le_uint16 binary cursor
                else if d =? 254 then _read_le_uint32 binary cursor
                else _read_le_uint64 binary cursor) =
               read_unpacked (unpack_from w false) (Z.of_nat w) binary cursor) ->
            reads _read_varint (z2b d :: le_encode w v) v) as K.
  { intros d w v Hd Hv Sel pre post. unfold _read_varint.
    cbn [app]. rewrite byte_at_app_mid, b2z_z2b, Z.mod_small by lia.
    destruct (Z.ltb_spec d 253); [lia|]. rewrite Sel.
    pose proof (reads_unsigned w v Hv (pre ++ [z2b d]) post) as Hr.
    rewrite <- app_assoc in Hr. cbn [app] in Hr.
    rewrite len_app in Hr. change (len [z2b d]) with 1 in Hr.
    rewrite Hr. rewrite len_cons. f_equal. f_equal. lia. }
  destruct (Z.ltb_spec n 253).
  { rewrite pack_le_unsigned by (cbn; lia). eexists. split; [reflexivity|].
    split; [cbn; lia|].
    intros pre post. unfold _read_varint. cbn [le_encode app].
    rewrite byte_at_app_mid, b2z_z2b, Z.mod_small by lia.
    destruct (Z.ltb_spec n 253); [|lia]. reflexivity. }
  destruct (Z.ltb_spec n 65536).
  { unfold pack_le_uint16. rewrite pack_le_unsigned by (cbn; lia).
    eexists. split; [reflexivity|]. split; [rewrite len_cons; cbn; lia|].
    apply K; [lia|cbn; lia|reflexivity]. }
  destruct (Z.ltb_spec n 4294967296).
  { unfold pack_le_uint32. rewrite pack_le_unsigned by (cbn; lia).
    eexists. split; [reflexivity|]. split; [rewrite len_cons; cbn; lia|].
    apply K; [lia|cbn; lia|reflexivity]. }
  unfold pack_le_uint64. rewrite pack_le_unsigned by (cbn; lia).
  eexists. split; [reflexivity|]. split; [rewrite len_cons; cbn; lia|].
  apply K; [lia|cbn; lia|reflexivity].
Qed.

Lemma reads_varbytes (data : bytes) :
  0 <= len data < 2 ^ 64 ->
  exists enc, pack_varbytes data = Some enc /\ 1 <= len enc /\
              reads _read_varbytes enc data.
Proof.
  intros R. destruct (reads_varint _ R) as (e & P & L & H).
  unfold pack_varbytes. rewrite P. cbn [option_map].
  exists (e ++ data). split; [reflexivity|].
  split; [rewrite len_app; pose proof (len_nonneg data); lia|].
  unfold _read_varbytes.
  rewrite <- (app_nil_r data) at 1.
  apply (reads_bind _ _ e (data ++ []) (len data)); [assumption|].
  rewrite app_nil_r. apply reads_nbytes.
Qed.

Ltac reads_next H :=
  eapply reads_bind; [exact H|cbv beta].

Lemma len_32 (b : bytes) : length b = 32%nat -> len b = 32.
Proof. unfold len. lia. Qed.

Lemma reads_input (i : TxInput) :
  wf_input i ->
  exists enc, TxInput_serialize i = Some enc /\ 1 <= len enc /\
              reads _read_input enc i.
Proof.
  destruct i as [h idx scr sq]. unfold wf_input, in_range.
  cbn [prev_hash prev_idx script sequence].
  intros (Hh & Hi & Hs & Hq).
  destruct (reads_varbytes scr Hs) as (es & Ps & Ls & Rs).
  unfold TxInput_serialize. cbn [prev_hash prev_idx script sequence join].
  unfold pack_le_uint32. rewrite !pack_le_unsigned by (cbn; lia).
  rewrite Ps. cbn [obind].
  eexists. split; [reflexivity|].
  split.
  { rewrite len_app, (len_32 _ Hh). pose proof (len_nonneg
      (le_encode 4 idx ++ es ++ le_encode 4 sq ++ [])). lia. }
  unfold _read_input.
  pose proof (reads_nbytes h) as Rh. rewrite (len_32 _ Hh) in Rh.
  reads_next Rh.
  reads_next (reads_unsigned 4 idx ltac:(cbn; lia)).
  reads_next Rs.
  reads_next (reads_unsigned 4 sq ltac:(cbn; lia)).
  apply reads_ret.
Qed.

Lemma reads_outpoint (o : TxOutPoint) :
  wf_outpoint o ->
  exists enc, TxOutPoint_serialize o = Some enc /\
              reads _read_outpoint enc o.
Proof.
  destruct o as [h idx]. unfold wf_outpoint, in_range. cbn [hash index].
  intros (Hh & Hi).
  unfold TxOutPoint_serialize. cbn [hash index join].
  unfold pack_le_uint32. rewrite !pack_le_unsigned by (cbn; lia).
  cbn [obind]. eexists. split; [reflexivity|].
  unfold _read_outpoint.
  pose proof (reads_nbytes h) as Rh. rewrite (len_32 _ Hh) in Rh.
  reads_next Rh.
  reads_next (reads_unsigned 4 idx ltac:(cbn; lia)).
  apply reads_ret.
Qed.

Lemma reads_contract_out (c : TxContractOutput) :
  wf_contract c ->
  exists rest,
    TxContractOutput_serialize c = Some (le_encode 8 (contract_type c) ++ rest) /\
    reads _read_contract_out (le_encode 8 (contract_type c) ++ rest) c.
Proof.
  destruct c as [t o v m d]. unfold wf_contract, in_range.
  cbn [contract_type outpoint contract_value max_supply metadata].
  intros (Ht & Ho & Hv & Hm & Hd).
  destruct (reads_outpoint o Ho) as (eo & Po & Ro).
  destruct (reads_varbytes d Hd) as (ed & Pd & Ld & Rd).
  unfold TxContractOutput_serialize.
  cbn [contract_type outpoint contract_value max_supply metadata join].
  unfold pack_le_uint64, pack_le_uint256.
  rewrite !pack_le_unsigned by (cbn; lia).
  rewrite Po, Pd. cbn [obind].
  eexists. split; [reflexivity|].
  unfold _read_contract_out.
  reads_next (reads_unsigned 8 t ltac:(cbn; lia)).
  reads_next Ro.
  reads_next (reads_unsigned 32 v ltac:(cbn; lia)).
  reads_next (reads_unsigned 32 m ltac:(cbn; lia)).
  reads_next Rd.
  apply reads_ret.
Qed.

Section ReadBack.
Variable CONTRACT_FLAG : Z.
Variable MAX_CONTRACT_TYPE : Z.

(** The peek of [_read_output]: the tag is read and the cursor put
    back, and the output is then read from the same bytes. *)
Lemma read_output_peek (tag : Z) (rest : bytes) (o : TxOutput) :
  0 <= tag < 2 ^ 64 ->
  reads (contract_out <~ (if is_contract CONTRACT_FLAG MAX_CONTRACT_TYPE tag
                          then c <~ _read_contract_out ;; ret (Some c)
                          else ret None) ;;
         v <~ _read_le_int64 ;;
         s <~ _read_varbytes ;;
         ret (mk_TxOutput v s contract_out))
        (le_encode 8 tag ++ rest) o ->
  reads (_read_output CONTRACT_FLAG MAX_CONTRACT_TYPE) (le_encode 8 tag ++ rest) o.
Proof.
  intros Ht H pre post. specialize (H pre post).
  pose proof (reads_unsigned 8 tag ltac:(cbn; lia) pre (rest ++ post)) as P.
  rewrite <- app_assoc in H |- *.
  unfold _read_output. unfold rbind at 1. unfold get_cursor.
  unfold rbind at 1.
  unfold _read_le_uint64 at 1. unfold unpack_le_uint64_from.
  change 8 with (Z.of_nat 8) at 1. rewrite P.
  unfold rbind at 1. unfold set_cursor.
  exact H.
Qed.

Lemma reads_output (o : TxOutput) :
  wf_output CONTRACT_FLAG MAX_CONTRACT_TYPE o ->
  exists enc, TxOutput_serialize o = Some enc /\ 1 <= len enc /\
              reads (_read_output CONTRACT_FLAG MAX_CONTRACT_TYPE) enc
                    (reread_output o).
Proof.
  destruct o as [v pk [c|]]; unfold wf_output, in_range, reread_output;
    cbn [contract value pk_script].
  - intros (Hp & Hc & Ic & Hv).
    destruct (reads_contract_out c Hc) as (rest & Pc & Rc).
    destruct (reads_varbytes pk Hp) as (ep & Pp & Lp & Rp).
    unfold TxOutput_serialize. cbn [contract value pk_script join].
    unfold pack_le_uint64. rewrite pack_le_unsigned by (cbn; lia).
    rewrite Pc, Pp. cbn [obind].
    eexists. split; [reflexivity|].
    split.
    { rewrite <- app_assoc, len_app.
      assert (len (le_encode 8 (contract_type c)) = 8) as -> by reflexivity.
      pose proof (len_nonneg (rest ++ le_encode 8 v ++ ep ++ [])). lia. }
    rewrite <- app_assoc.
    apply read_output_peek; [unfold wf_contract, in_range in Hc; tauto|].
    rewrite Ic. rewrite app_assoc.
    eapply reads_bind.
    { rewrite <- (app_nil_r (le_encode 8 (contract_type c) ++ rest)).
      reads_next Rc. apply reads_ret. }
    cbv beta.
    reads_next (reads_unpacked 8 true v ltac:(cbn; lia)).
    reads_next Rp.
    apply reads_ret.
  - intros (Hp & Hv & Ic).
    destruct (reads_varbytes pk Hp) as (ep & Pp & Lp & Rp).
    unfold TxOutput_serialize. cbn [contract value pk_script join].
    unfold pack_le_int64. rewrite pack_le_signed by (cbn; lia).
    rewrite Pp. cbn [obind].
    eexists. split; [reflexivity|].
    split.
    { rewrite len_app.
      assert (len (le_encode 8 (v mod 2 ^ (8 * Z.of_nat 8))) = 8) as ->
          by reflexivity.
      pose proof (len_nonneg (ep ++ [])). lia. }
    apply read_output_peek; [apply Z.mod_pos_bound; cbn; lia|].
    change (2 ^ (8 * Z.of_nat 8)) with (2 ^ 64). rewrite Ic.
    change (le_encode 8 (v mod 2 ^ 64) ++ ep ++ [])
      with ([] ++ le_encode 8 (v mod 2 ^ 64) ++ ep ++ []).
    reads_next (reads_ret (@None TxContractOutput)).
    reads_next (reads_signed 8 v ltac:(lia) ltac:(cbn; lia)).
    reads_next Rp.
    apply reads_ret.
Qed.
End ReadBack.

(** A list comprehension over [range(len(l))] reads back a list whose
    elements are read back one by one. *)
Lemma reads_list {A : Type} (read : reader A) (encs : list bytes) (l : list A) :
  Forall2 (fun e a => reads read e a) encs l ->
  forall fuel, (length l <= fuel)%nat ->
  reads (read_list read fuel (len l)) (concat encs) l.
Proof.
  induction 1 as [|e a encs l Ha _ IH]; intros fuel Hf.
  - destruct fuel; cbn; apply reads_ret.
  - cbn [concat]. rewrite len_cons. pose proof (len_nonneg l).
    destruct fuel as [|fuel]; [cbn in Hf; lia|].
    assert (length l <= fuel)%nat as Hf' by (cbn [length] in Hf; lia).
    cbn [read_list].
    destruct (Z.leb_spec (1 + len l) 0); [lia|].
    reads_next Ha.
    replace (1 + len l - 1) with (len l) by lia.
    rewrite <- (app_nil_r (concat encs)).
    reads_next (IH fuel Hf').
    apply reads_ret.
Qed.

Lemma length_concat_ge {A : Type} (encs : list (list A)) :
  Forall (fun e => 1 <= len e) encs -> (length encs <= length (concat encs))%nat.
Proof.
  induction 1 as [|e encs He _ IH]; cbn; [lia|].
  rewrite length_app. unfold len in He. lia.
Qed.

Lemma reads_all {A : Type} (read : reader A) (encs : list bytes) (l : list A) :
  Forall2 (fun e a => reads read e a) encs l ->
  Forall (fun e => 1 <= len e) encs ->
  reads (read_all read (len l)) (concat encs) l.
Proof.
  intros H F pre post. unfold read_all.
  apply (reads_list read encs l H).
  rewrite !length_app. pose proof (length_concat_ge encs F).
  pose proof (Forall2_length H). unfold bytes in *. lia.
Qed.

(** Serializing the elements of a list and reading them back. *)
Lemma reads_serialized_list {A : Type} (wf : A -> Prop)
    (serialize : A -> option bytes) (read : reader A) (back : A -> A)
    (l : list A) :
  (forall a, wf a -> exists enc, serialize a = Some enc /\ 1 <= len enc /\
                                 reads read enc (back a)) ->
  Forall wf l ->
  exists enc, join (map serialize l) = Some enc /\
              reads (read_all read (len l)) enc (map back l).
Proof.
  intros Hser F.
  assert (exists encs, join (map serialize l) = Some (concat encs) /\
                       Forall2 (fun e a => reads read e a) encs (map back l) /\
                       Forall (fun e => 1 <= len e) encs) as (encs & J & R & N).
  { induction F as [|a l Ha _ IH].
    - exists []. repeat split; constructor.
    - destruct (Hser a Ha) as (e & Se & Le & Re).
      destruct IH as (encs & J & R & N).
      exists (e :: encs). cbn [map join concat]. rewrite Se, J. cbn [obind].
      repeat split; constructor; assumption. }
  exists (concat encs). split; [assumption|].
  replace (len l) with (len (map back l)) by (unfold len; now rewrite length_map).
  now apply reads_all.
Qed.

Section RoundTrip.
Variable CONTRACT_FLAG : Z.
Variable MAX_CONTRACT_TYPE : Z.

(** [Tx.serialize] succeeds on a well-formed transaction, and a fresh
    [Deserializer] reads the bytes back to the end, as the transaction
    in which the value of every contract output has gone through
    [_read_le_int64]. *)
Lemma read_tx_serialize (tx : Tx) :
  wf_tx CONTRACT_FLAG MAX_CONTRACT_TYPE tx ->
  exists binary,
    Tx_serialize tx = Some binary /\
    deserialize (read_tx CONTRACT_FLAG MAX_CONTRACT_TYPE) binary
    = Done (reread_tx tx, len binary).
Proof.
  destruct tx as [v ins outs lt]. unfold wf_tx, in_range.
  cbn [version inputs outputs locktime].
  intros (Hv & Hni & Hi & Hno & Ho & Hl).
  destruct (reads_varint _ Hni) as (eni & Pni & _ & Rni).
  destruct (reads_varint _ Hno) as (eno & Pno & _ & Rno).
  destruct (reads_serialized_list wf_input TxInput_serialize _read_input
              (fun i => i) ins reads_input Hi) as (ei & Pi & Ri).
  rewrite map_id in Ri.
  destruct (reads_serialized_list (wf_output CONTRACT_FLAG MAX_CONTRACT_TYPE)
              TxOutput_serialize (_read_output CONTRACT_FLAG MAX_CONTRACT_TYPE)
              reread_output outs
              (reads_output CONTRACT_FLAG MAX_CONTRACT_TYPE) Ho)
    as (eo & Po & Ro).
  unfold Tx_serialize. cbn [version inputs outputs locktime].
  cbn [join]. unfold pack_le_int32, pack_le_uint32.
  rewrite pack_le_signed by (cbn; lia).
  rewrite pack_le_unsigned by (cbn; lia).
  rewrite Pni, Pno, Pi, Po. cbn [obind].
  eexists. split; [reflexivity|].
  assert (reads (read_tx CONTRACT_FLAG MAX_CONTRACT_TYPE)
            (le_encode 4 (v mod 2 ^ (8 * Z.of_nat 4)) ++
             eni ++ ei ++ eno ++ eo ++ le_encode 4 lt ++ [])
            (reread_tx (mk_Tx v ins outs lt))) as R.
  { unfold read_tx, reread_tx. cbn [version inputs outputs locktime].
    reads_next (reads_signed 4 v ltac:(lia) ltac:(cbn; lia)).
    rewrite (app_assoc eni ei).
    eapply reads_bind.
    { unfold _read_inputs. reads_next Rni. exact Ri. }
    cbv beta. rewrite (app_assoc eno eo).
    eapply reads_bind.
    { unfold _read_outputs. reads_next Rno. exact Ro. }
    cbv beta.
    reads_next (reads_unsigned 4 lt ltac:(cbn; lia)).
    apply reads_ret. }
  specialize (R [] []). unfold deserialize.
  rewrite app_nil_r in R. exact R.
Qed.

End RoundTrip.

Lemma as_int64_small (v : Z) : v < 2 ^ 63 -> as_int64 v = v.
Proof.
  intros H. unfold as_int64. destruct (Z.leb_spec (2 ^ 63) v); lia.
Qed.

Lemma as_int64_large (v : Z) : 2 ^ 63 <= v -> as_int64 v = v - 2 ^ 64.
Proof.
  intros H. unfold as_int64. destruct (Z.leb_spec (2 ^ 63) v); lia.
Qed.

Lemma reread_output_fixed (o : TxOutput) :
  reread_output o = o <-> contract o = None \/ value o < 2 ^ 63.
Proof.
  destruct o as [v pk [c|]]; unfold reread_output; cbn [contract value pk_script].
  - split.
    + intros E. right. injection E as Ev.
      unfold as_int64 in Ev. destruct (Z.leb_spec (2 ^ 63) v); lia.
    + intros [E|E]; [discriminate|]. now rewrite as_int64_small.
  - split; auto.
Qed.

Lemma map_fixed {A : Type} (f : A -> A) (l : list A) :
  map f l = l <-> Forall (fun a => f a = a) l.
Proof.
  induction l as [|a l IH]; cbn.
  - split; [constructor|reflexivity].
  - split.
    + intros E. injection E as Ea El. constructor; [assumption|].
      now apply IH.
    + intros F. inversion F as [|? ? Fa Fl]; subst.
      f_equal; [assumption|now apply IH].
Qed.

(** C3 (the code departs from the claim): serializing a well-formed
    transaction and reading the bytes with a fresh [Deserializer]
    consumes all the bytes and yields the transaction in which the value
    of every contract output has been read as a signed i64; the record
    read equals the one written exactly when no contract output has a
    value of [2^63] or more.  [TxOutput.serialize] writes that value as
    an unsigned u64, [_read_output] reads it with [_read_le_int64]. *)
Theorem tx_roundtrip_up_to_contract_values
    (CONTRACT_FLAG MAX_CONTRACT_TYPE : Z) (tx : Tx) :
  wf_tx CONTRACT_FLAG MAX_CONTRACT_TYPE tx ->
  exists binary,
    Tx_serialize tx = Some binary /\
    deserialize (read_tx CONTRACT_FLAG MAX_CONTRACT_TYPE) binary
    = Done (reread_tx tx, len binary) /\
    (reread_tx tx = tx <->
     Forall (fun o => contract o = None \/ value o < 2 ^ 63) (outputs tx)).
Proof.
  intros W. destruct (read_tx_serialize _ _ _ W) as (binary & S & R).
  exists binary. split; [assumption|]. split; [assumption|].
  destruct tx as [v ins outs lt]. unfold reread_tx.
  cbn [version inputs outputs locktime].
  rewrite (Forall_forall (fun o => contract o = None \/ value o < 2 ^ 63)).
  split.
  - intros E. inversion E as [Eo]. rewrite Eo.
    apply map_fixed in Eo. rewrite Forall_forall in Eo.
    intros o I. now apply reread_output_fixed, Eo.
  - intros F. f_equal. apply map_fixed, Forall_forall.
    intros o I. now apply reread_output_fixed, F.
Qed.

Ltac in_range_now :=
  unfold in_range; vm_compute; split; [intros H; discriminate H|reflexivity].

(** With [CONTRACT_FLAG = 2^63] and [MAX_CONTRACT_TYPE = 2^63 + 3] taken
    as sample values of the two constants, a transaction with one
    contract output of value [2^63] is well-formed and is read back with
    the value [-2^63]. *)
Lemma tx_roundtrip_up_to_contract_values_witness :
  let FLAG := 2 ^ 63 in
  let MAX := 2 ^ 63 + 3 in
  let c := mk_TxContractOutput (2 ^ 63 + 1) (mk_TxOutPoint (repeat x11 32) 7)
             1000 2000 [x68; x69] in
  let tx := mk_Tx 1 [mk_TxInput (repeat x22 32) 0 [x51] 4294967295]
              [mk_TxOutput (2 ^ 63) [x6a] (Some c)] 0 in
  let tx' := mk_Tx 1 [mk_TxInput (repeat x22 32) 0 [x51] 4294967295]
               [mk_TxOutput (- 2 ^ 63) [x6a] (Some c)] 0 in
  exists binary,
    Tx_serialize tx = Some binary /\
    deserialize (read_tx FLAG MAX) binary = Done (tx', len binary) /\
    tx' <> tx.
Proof.
  intros FLAG MAX c tx tx'.
  assert (wf_tx FLAG MAX tx) as W.
  { unfold wf_tx. cbn [version inputs outputs locktime tx].
    split; [in_range_now|]. split; [in_range_now|].
    split.
    { constructor; [|constructor]. unfold wf_input.
      cbn [prev_hash prev_idx script sequence].
      split; [reflexivity|]. split; [in_range_now|].
      split; in_range_now. }
    split; [in_range_now|].
    split; [|in_range_now].
    constructor; [|constructor].
    unfold wf_output, wf_contract, wf_outpoint.
    cbn [contract value pk_script c contract_type outpoint contract_value
         max_supply metadata hash index].
    split; [in_range_now|].
    split.
    { split; [in_range_now|]. split; [split; [reflexivity|in_range_now]|].
      split; [in_range_now|]. split; in_range_now. }
    split; [vm_compute; reflexivity|in_range_now]. }
  destruct (tx_roundtrip_up_to_contract_values FLAG MAX tx W)
    as (binary & S & R & F).
  exists binary. split; [exact S|]. split; [exact R|].
  unfold tx', tx. intros E. injection E as E. vm_compute in E. discriminate E.
Defined.

(* ================================================================= *)
(** * [_read_output]: the value field *)

Lemma unpack_from_signed_range (w : nat) (binary : bytes) (cursor v : Z) :
  (0 < w)%nat ->
  unpack_from w true binary cursor = Ok v ->
  - 2 ^ (8 * Z.of_nat w - 1) <= v < 2 ^ (8 * Z.of_nat w - 1).
Proof.
  intros Hw. unfold unpack_from.
  set (off := if cursor <? 0 then cursor + len binary else cursor).
  destruct (Z.ltb_spec off 0) as [|Ho]; [discriminate|].
  destruct (Z.ltb_spec (len binary - off) (Z.of_nat w)) as [|Hl];
    [discriminate|].
  unfold orb, andb.
  set (u := le_decode (slice binary off (off + Z.of_nat w))).
  intros E.
  assert (v = if 2 ^ (8 * Z.of_nat w - 1) <=? u
              then u - 2 ^ (8 * Z.of_nat w) else u) as -> by congruence.
  clear E.
  assert (0 <= u < 2 ^ (8 * Z.of_nat w)) as R.
  { pose proof (le_decode_range (slice binary off (off + Z.of_nat w))) as R.
    rewrite len_slice in R by lia.
    replace (off + Z.of_nat w - off) with (Z.of_nat w) in R by lia.
    rewrite Z.pow_mul_r by lia. exact R. }
  assert (2 ^ (8 * Z.of_nat w) = 2 * 2 ^ (8 * Z.of_nat w - 1)) as P.
  { rewrite <- Z.pow_succ_r by lia. f_equal. lia. }
  destruct (Z.leb_spec (2 ^ (8 * Z.of_nat w - 1)) u); lia.
Qed.

Lemma read_le_int64_range (binary : bytes) (cursor v c' : Z) :
  _read_le_int64 binary cursor = Done (v, c') ->
  - 2 ^ 63 <= v < 2 ^ 63 /\ c' = cursor + 8.
Proof.
  unfold _read_le_int64, read_unpacked, unpack_le_int64_from.
  destruct (unpack_from 8 true binary cursor) as [x|] eqn:U; [|discriminate].
  intros E. inversion E; subst.
  split; [|reflexivity].
  exact (unpack_from_signed_range 8 binary cursor v ltac:(lia) U).
Qed.

(** C8 (the code departs from the claim): [_read_output] decodes the
    value with [_read_le_int64] on both paths.  Whatever the bytes and
    the two contract constants, the value of a parsed output, contract
    or not, is the signed i64 read at the cursor that follows the
    contract part, hence below [2^63]: eight value bytes with the top bit
    set give a negative value on the contract path too. *)
Theorem read_output_value_signed
    (CONTRACT_FLAG MAX_CONTRACT_TYPE : Z) (binary : bytes) (cursor : Z)
    (out : TxOutput) (cursor' : Z) :
  _read_output CONTRACT_FLAG MAX_CONTRACT_TYPE binary cursor
  = Done (out, cursor') ->
  - 2 ^ 63 <= value out < 2 ^ 63 /\
  exists c, _read_le_int64 binary c = Done (value out, c + 8) /\
            (contract out = None -> c = cursor).
Proof.
  unfold _read_output, rbind, get_cursor, set_cursor, ret.
  destruct (_read_le_uint64 binary cursor) as [[t c1]| |]; try discriminate.
  assert (forall (co : option TxContractOutput) (c : Z),
            (co = None -> c = cursor) ->
            match _read_le_int64 binary c with
            | Done (v, c2) =>
                match _read_varbytes binary c2 with
                | Done (s, c3) => Done (mk_TxOutput v s co, c3)
                | Raised e => Raised e
                | OutOfFuel => OutOfFuel
                end
            | Raised e => Raised e
            | OutOfFuel => OutOfFuel
            end = Done (out, cursor') ->
            - 2 ^ 63 <= value out < 2 ^ 63 /\
            exists c, _read_le_int64 binary c = Done (value out, c + 8) /\
                      (contract out = None -> c = cursor)) as K.
  { intros co c Hc.
    destruct (_read_le_int64 binary c) as [[v c2]| |] eqn:Ev; try discriminate.
    destruct (_read_varbytes binary c2) as [[s c3]| |]; try discriminate.
    intros E. inversion E; subst. cbn [value contract].
    destruct (read_le_int64_range _ _ _ _ Ev) as [R ->].
    split; [exact R|]. exists c. split; [exact Ev|exact Hc]. }
  destruct (is_contract CONTRACT_FLAG MAX_CONTRACT_TYPE t).
  - destruct (_read_contract_out binary cursor) as [[co c2]| |];
      try discriminate.
    apply K. discriminate.
  - apply K. reflexivity.
Qed.

(** With the sample constants [CONTRACT_FLAG = 2^63] and
    [MAX_CONTRACT_TYPE = 2^63 + 3]: a contract output whose value bytes
    are [ff ff ff ff ff ff ff ff] is parsed with the value [-1]. *)
Lemma read_output_value_signed_witness :
  let FLAG := 2 ^ 63 in
  let MAX := 2 ^ 63 + 3 in
  let c := mk_TxContractOutput (2 ^ 63 + 1) (mk_TxOutPoint (repeat x11 32) 7)
             1000 2000 [] in
  let binary := le_encode 8 (2 ^ 63 + 1) ++ repeat x11 32 ++ le_encode 4 7 ++
                le_encode 32 1000 ++ le_encode 32 2000 ++ [x00] ++
                repeat xff 8 ++ [x01; x6a] in
  _read_output FLAG MAX binary 0 = Done (mk_TxOutput (-1) [x6a] (Some c), 119) /\
  - 2 ^ 63 <= -1 < 2 ^ 63.
Proof.
  intros FLAG MAX c binary.
  assert (_read_output FLAG MAX binary 0
          = Done (mk_TxOutput (-1) [x6a] (Some c), 119)) as E
      by (vm_compute; reflexivity).
  split; [exact E|].
  exact (proj1 (read_output_value_signed FLAG MAX binary 0 _ _ E)).
Defined.

(* ================================================================= *)
(** * The [Deserializer] always returns or raises *)

Lemma advances_ret {A : Type} (a : A) : advances 0 (ret a).
Proof. intros binary cursor H. cbn. lia. Qed.

Lemma advances_weaken {A : Type} (d d' : Z) (m : reader A) :
  d' <= d -> advances d m -> advances d' m.
Proof.
  intros Hd H binary cursor Hc. specialize (H binary cursor Hc).
  destruct (m binary cursor) as [[a c]| |]; auto. lia.
Qed.

Lemma advances_bind {A B : Type} (d1 d2 : Z) (m : reader A) (k : A -> reader B) :
  0 <= d1 -> 0 <= d2 ->
  advances d1 m -> (forall a, advances d2 (k a)) ->
  advances (d1 + d2) (rbind m k).
Proof.
  intros H1 H2 Hm Hk binary cursor Hc. unfold rbind.
  specialize (Hm binary cursor Hc).
  destruct (m binary cursor) as [[a c1]| |]; auto.
  specialize (Hk a binary c1 ltac:(lia)).
  destruct (k a binary c1) as [[b c2]| |]; auto. lia.
Qed.

Lemma advances_unpacked (w : nat) (signed : bool) :
  advances (Z.of_nat w) (read_unpacked (unpack_from w signed) (Z.of_nat w)).
Proof.
  intros binary cursor Hc. unfold read_unpacked, unpack_from.
  destruct (Z.ltb_spec cursor 0); [lia|].
  destruct (Z.ltb_spec cursor 0); [lia|].
  destruct (Z.ltb_spec (len binary - cursor) (Z.of_nat w)); cbn [orb]; [exact I|].
  lia.
Qed.

Lemma advances_nbytes (n : Z) : 0 <= n -> advances n (_read_nbytes n).
Proof.
  intros Hn binary cursor Hc. unfold _read_nbytes.
  destruct (Z.geb_spec (len binary) (cursor + n)); [lia|exact I].
Qed.

(** [_read_varint] moves by one byte at least and returns a number that
    is not negative. *)
Lemma read_varint_advances (binary : bytes) (cursor : Z) :
  0 <= cursor ->
  match _read_varint binary cursor with
  | Done (n, cursor') =>
      0 <= n /\ cursor + 1 <= cursor' /\ cursor' <= len binary
  | Raised _ => True
  | OutOfFuel => False
  end.
Proof.
  intros Hc. unfold _read_varint.
  destruct (byte_at binary cursor) as [d|] eqn:B; [|exact I].
  pose proof (byte_at_range _ _ _ B) as Rd.
  destruct (byte_at_slice _ _ _ Hc B) as [L _].
  assert (forall w : nat,
            match read_unpacked (unpack_from w false) (Z.of_nat w)
                    binary (cursor + 1) with
            | Done (n, cursor') =>
                0 <= n /\ cursor + 1 <= cursor' /\ cursor' <= len binary
            | Raised _ => True
            | OutOfFuel => False
            end) as K.
  { intros w. unfold read_unpacked, unpack_from.
    destruct (Z.ltb_spec (cursor + 1) 0); [lia|].
    destruct (Z.ltb_spec (cursor + 1) 0); [lia|].
    destruct (Z.ltb_spec (len binary - (cursor + 1)) (Z.of_nat w));
      cbn [orb andb]; [exact I|].
    split; [apply le_decode_range|lia]. }
  destruct (Z.ltb_spec d 253); [lia|].
  destruct (d =? 253); [exact (K 2%nat)|].
  destruct (d =? 254); [exact (K 4%nat)|exact (K 8%nat)].
Qed.

Lemma advances_varint : advances 1 _read_varint.
Proof.
  intros binary cursor Hc. pose proof (read_varint_advances binary cursor Hc) as H.
  destruct (_read_varint binary cursor) as [[n c]| |]; auto. lia.
Qed.

Lemma advances_varbytes : advances 1 _read_varbytes.
Proof.
  intros binary cursor Hc. unfold _read_varbytes, rbind.
  pose proof (read_varint_advances binary cursor Hc) as H.
  destruct (_read_varint binary cursor) as [[n c]| |]; auto.
  pose proof (advances_nbytes n ltac:(lia) binary c ltac:(lia)) as N.
  destruct (_read_nbytes n binary c) as [[b c2]| |]; auto. lia.
Qed.

(** The fuel [len(binary)] is enough for a list comprehension whose
    [read] consumes at least one byte. *)
Lemma read_list_advances {A : Type} (read : reader A) :
  advances 1 read ->
  forall (fuel : nat) (count : Z) (binary : bytes) (cursor : Z),
    0 <= cursor -> len binary - cursor <= Z.of_nat fuel ->
    match read_list read fuel count binary cursor with
    | Done (_, cursor') =>
        cursor <= cursor' /\ (cursor < cursor' -> cursor' <= len binary)
    | Raised _ => True
    | OutOfFuel => False
    end.
Proof.
  intros Hr. induction fuel as [|fuel IH]; intros count binary cursor Hc Hf.
  - cbn [read_list]. destruct (count <=? 0); [cbn; lia|].
    unfold rbind. specialize (Hr binary cursor Hc).
    destruct (read binary cursor) as [[x c1]| |]; auto. lia.
  - cbn [read_list]. destruct (count <=? 0); [cbn; lia|].
    unfold rbind at 1. specialize (Hr binary cursor Hc).
    destruct (read binary cursor) as [[x c1]| |]; auto.
    unfold rbind.
    specialize (IH (count - 1) binary c1 ltac:(lia) ltac:(lia)).
    destruct (read_list read fuel (count - 1) binary c1) as [[xs c2]| |]; auto.
    cbn. lia.
Qed.

Lemma read_all_advances {A : Type} (read : reader A) (count : Z) :
  advances 1 read -> advances 0 (read_all read count).
Proof.
  intros Hr binary cursor Hc. unfold read_all.
  pose proof (read_list_advances read Hr (length binary) count binary cursor Hc)
    as H.
  unfold len in H at 1. specialize (H ltac:(lia)).
  destruct (read_list read (length binary) count binary cursor) as [[l c]| |];
    auto. lia.
Qed.

Lemma advances_counted_list {A : Type} (read : reader A) :
  advances 1 read ->
  advances 1 (count <~ _read_varint ;; read_all read count).
Proof.
  intros Hr.
  apply (advances_bind 1 0); try lia; [exact advances_varint|].
  intros count. now apply read_all_advances.
Qed.

Lemma advances_read_input : advances 1 _read_input.
Proof.
  unfold _read_input.
  apply (advances_weaken (32 + (4 + (1 + (4 + 0))))); [lia|].
  apply advances_bind; try lia; [apply advances_nbytes; lia|]. intros h.
  apply advances_bind; try lia; [exact (advances_unpacked 4 false)|]. intros i.
  apply advances_bind; try lia; [exact advances_varbytes|]. intros s.
  apply advances_bind; try lia; [exact (advances_unpacked 4 false)|]. intros q.
  apply advances_ret.
Qed.

Lemma advances_read_contract_out : advances 0 _read_contract_out.
Proof.
  unfold _read_contract_out, _read_outpoint.
  apply (advances_weaken (8 + ((32 + (4 + 0)) + (32 + (32 + (1 + 0)))))); [lia|].
  apply advances_bind; try lia; [exact (advances_unpacked 8 false)|]. intros t.
  apply advances_bind; try lia.
  { apply advances_bind; try lia; [apply advances_nbytes; lia|]. intros h.
    apply advances_bind; try lia; [exact (advances_unpacked 4 false)|]. intros i.
    apply advances_ret. }
  intros o.
  apply advances_bind; try lia; [exact (advances_unpacked 32 false)|]. intros v.
  apply advances_bind; try lia; [exact (advances_unpacked 32 false)|]. intros m.
  apply advances_bind; try lia; [exact advances_varbytes|]. intros d.
  apply advances_ret.
Qed.

Section Total.
Variable CONTRACT_FLAG : Z.
Variable MAX_CONTRACT_TYPE : Z.
Variable sha256 : bytes -> bytes.
Variable double_sha256 : bytes -> bytes.

Lemma advances_read_output :
  advances 1 (_read_output CONTRACT_FLAG MAX_CONTRACT_TYPE).
Proof.
  intros binary cursor Hc. unfold _read_output.
  unfold rbind at 1. unfold get_cursor. unfold rbind at 1.
  pose proof (advances_unpacked 8 false binary cursor Hc) as P.
  change (read_unpacked (unpack_from 8 false) (Z.of_nat 8) binary cursor)
    with (_read_le_uint64 binary cursor) in P.
  destruct (_read_le_uint64 binary cursor) as [[t c1]| |]; auto.
  unfold rbind at 1. unfold set_cursor.
  assert (advances 1
            (contract_out <~ (if is_contract CONTRACT_FLAG MAX_CONTRACT_TYPE t
                              then c <~ _read_contract_out ;; ret (Some c)
                              else ret None) ;;
             v <~ _read_le_int64 ;;
             s <~ _read_varbytes ;;
             ret (mk_TxOutput v s contract_out))) as K.
  { apply (advances_weaken (0 + (8 + (1 + 0)))); [lia|].
    apply advances_bind; try lia.
    { destruct (is_contract CONTRACT_FLAG MAX_CONTRACT_TYPE t).
      - apply (advances_bind 0 0); try lia;
          [exact advances_read_contract_out|].
        intros c. apply advances_ret.
      - apply advances_ret. }
    intros co.
    apply advances_bind; try lia; [exact (advances_unpacked 8 true)|]. intros v.
    apply advances_bind; try lia; [exact advances_varbytes|]. intros s.
    apply advances_ret. }
  exact (K binary cursor Hc).
Qed.

Lemma advances_read_tx : advances 1 (read_tx CONTRACT_FLAG MAX_CONTRACT_TYPE).
Proof.
  unfold read_tx.
  apply (advances_weaken (4 + (1 + (1 + (4 + 0))))); [lia|].
  apply advances_bind; try lia; [exact (advances_unpacked 4 true)|]. intros v.
  apply advances_bind; try lia;
    [exact (advances_counted_list _ advances_read_input)|]. intros i.
  apply advances_bind; try lia;
    [exact (advances_counted_list _ advances_read_output)|]. intros o.
  apply advances_bind; try lia; [exact (advances_unpacked 4 false)|]. intros l.
  apply advances_ret.
Qed.

Lemma advances_read_tx_and_hash :
  advances 1 (read_tx_and_hash CONTRACT_FLAG MAX_CONTRACT_TYPE
                sha256 double_sha256).
Proof.
  intros binary cursor Hc. unfold read_tx_and_hash.
  unfold rbind at 1. unfold get_cursor. unfold rbind at 1.
  pose proof (advances_read_tx binary cursor Hc) as T.
  destruct (read_tx CONTRACT_FLAG MAX_CONTRACT_TYPE binary cursor)
    as [[tx c1]| |]; auto.
  destruct (version tx =? 2).
  - unfold rbind, lift, ret.
    destruct (get_richtransaction sha256 double_sha256 tx); auto.
  - unfold rbind, get_binary, ret. exact T.
Qed.

(** The entry points return or raise, on every buffer. *)
Lemma read_tx_block_advances :
  advances 1 (read_tx_block CONTRACT_FLAG MAX_CONTRACT_TYPE
                sha256 double_sha256).
Proof.
  unfold read_tx_block.
  exact (advances_counted_list _ advances_read_tx_and_hash).
Qed.

Lemma deserialize_returns_or_raises (binary : bytes) :
  deserialize (read_tx CONTRACT_FLAG MAX_CONTRACT_TYPE) binary <> OutOfFuel /\
  deserialize (read_tx_and_hash CONTRACT_FLAG MAX_CONTRACT_TYPE
                 sha256 double_sha256) binary <> OutOfFuel /\
  deserialize (read_tx_block CONTRACT_FLAG MAX_CONTRACT_TYPE
                 sha256 double_sha256) binary <> OutOfFuel.
Proof.
  unfold deserialize.
  pose proof (advances_read_tx binary 0 ltac:(lia)) as H1.
  pose proof (advances_read_tx_and_hash binary 0 ltac:(lia)) as H2.
  pose proof (read_tx_block_advances binary 0 ltac:(lia)) as H3.
  repeat split; intros E; rewrite E in *; assumption.
Qed.
End Total.

(* ================================================================= *)
(** * [get_ops]: the op-items it returns, and the scripts it reads *)

Lemma z2b_inj_range (op : Z) (b : byte) :
  0 <= op < 256 -> z2b op = b -> op = b2z b.
Proof.
  intros R E. subst b. rewrite b2z_z2b, Z.mod_small; lia.
Qed.

Lemma len_le_encode (w : nat) (v : Z) : len (le_encode w v) = Z.of_nat w.
Proof. unfold len. now rewrite length_le_encode. Qed.

(** The length that the [dlen] chain yields fits the opcode. *)
Lemma pushdata_dlen_bound (s : bytes) (op n : Z) (o : option (Z * Z)) (dlen n' : Z) :
  0 <= op -> op <= OP_PUSHDATA4 ->
  pushdata_dlen s op n o = Some (dlen, n') ->
  (op < OP_PUSHDATA1 -> dlen = op) /\
  (op = OP_PUSHDATA1 -> dlen < 256) /\
  (op = OP_PUSHDATA2 -> dlen < 65536) /\
  (op = OP_PUSHDATA4 -> dlen < 4294967296).
Proof.
  unfold pushdata_dlen, OP_PUSHDATA4, OP_PUSHDATA2, OP_PUSHDATA1.
  intros Hop Hle.
  destruct (Z.ltb_spec op 76).
  { intros E. inversion E; subst. repeat split; lia. }
  destruct (Z.eqb_spec op 76).
  { destruct (byte_at s n) as [d|] eqn:B; cbn; [|discriminate].
    intros E. inversion E; subst. pose proof (byte_at_range _ _ _ B).
    repeat split; lia. }
  assert (forall (w : nat) buf v,
            to_option (unpack_from w false buf 0) = Some v ->
            v < 256 ^ Z.of_nat w) as U.
  { intros w buf v. rewrite unpack_from_unsigned_0.
    destruct (Z.ltb_spec (len buf) (Z.of_nat w)); cbn; [discriminate|].
    intros E. inversion E.
    pose proof (le_decode_range (slice buf 0 (Z.of_nat w))) as R.
    rewrite len_slice in R by lia. rewrite Z.sub_0_r in R. lia. }
  destruct (Z.eqb_spec op 77).
  { unfold unpack_le_uint16_from.
    destruct (to_option _) as [d|] eqn:E1; cbn; [|discriminate].
    intros E. inversion E; subst. apply U in E1. cbn in E1.
    repeat split; lia. }
  destruct (Z.eqb_spec op 78); [|lia].
  unfold unpack_le_uint32_from.
  destruct (to_option _) as [d|] eqn:E1; cbn; [|discriminate].
  intros E. inversion E; subst. apply U in E1. cbn in E1.
  repeat split; lia.
Qed.

Lemma get_ops_body_valid (s : bytes) (n : Z) (ops : list op_item) st' :
  0 <= n ->
  get_ops_body s (n, ops) = Some st' ->
  exists it, snd st' = ops ++ [it] /\ valid_item it.
Proof.
  intros Hn. unfold get_ops_body.
  destruct (byte_at s n) as [op|] eqn:B; cbn [obind]; [|discriminate].
  pose proof (byte_at_range _ _ _ B) as R.
  destruct (Z.leb_spec op OP_PUSHDATA4) as [Le|Gt].
  - destruct (pushdata_dlen s op (n + 1) _) as [[dlen n1]|] eqn:P;
      cbn [obind]; [|discriminate].
    pose proof (pushdata_dlen_bound _ _ _ _ _ _ (proj1 R) Le P) as Bd.
    pose proof (pushdata_dlen_advance _ _ _ _ _ _ (proj1 R) Le P) as Ad.
    destruct (Z.gtb_spec (n1 + dlen) (len s)) as [G|G]; [discriminate|].
    intros E. inversion E; subst st'. clear E. cbn [snd].
    eexists. split; [reflexivity|]. cbn [valid_item].
    rewrite len_slice by lia.
    replace (n1 + dlen - n1) with dlen by lia.
    intuition lia.
  - intros E. inversion E; subst st'. cbn [snd].
    eexists. split; [reflexivity|]. cbn [valid_item]. lia.
Qed.

Lemma get_ops_valid (s : bytes) (ops : list op_item) :
  get_ops s = Done ops -> Forall valid_item ops.
Proof.
  unfold get_ops, get_ops_fuel.
  destruct (while _ _ _ _) as [[n ops']| |] eqn:E; try discriminate.
  intros D. inversion D; subst ops'. clear D.
  apply (while_invariant _ _
           (fun st => 0 <= fst st /\ Forall valid_item (snd st))) in E.
  - cbn in E. tauto.
  - intros [m o] st' [R F] [_ B]. cbn [fst snd] in *.
    pose proof (get_ops_body_advance _ _ _ B) as A. cbn [fst] in A.
    apply get_ops_body_valid in B; [|assumption].
    destruct B as (it & -> & V).
    split; [lia|]. apply Forall_app. split; [assumption|].
    constructor; [assumption|constructor].
  - cbn. split; [lia|constructor].
Qed.

(** One iteration of [get_ops] at the first byte of the wire form of a
    valid op-item reads that item. *)
Lemma get_ops_body_item (pre post : bytes) (it : op_item) (ops : list op_item) :
  valid_item it ->
  get_ops_body (pre ++ item_wire it ++ post) (len pre, ops)
  = Some (len pre + len (item_wire it), ops ++ [it]).
Proof.
  intros V. unfold get_ops_body.
  pose proof (len_nonneg pre) as Hp. pose proof (len_nonneg post) as Hq.
  destruct it as [op|op data]; cbn [valid_item item_wire] in *.
  - unfold OP_PUSHDATA4 in *.
    cbn [app]. rewrite byte_at_app_mid, b2z_z2b, Z.mod_small by lia.
    cbn [obind]. destruct (Z.leb_spec op 78); [lia|].
    rewrite len_cons. reflexivity.
  - destruct V as (R & V0 & V1 & V2 & V3).
    unfold OP_PUSHDATA4, OP_PUSHDATA2, OP_PUSHDATA1 in *.
    cbn [app]. rewrite byte_at_app_mid, b2z_z2b, Z.mod_small by lia.
    cbn [obind]. destruct (Z.leb_spec op 78); [|lia].
    pose proof (len_nonneg data) as Hd.
    set (script := pre ++ z2b op :: (length_prefix op (len data) ++ data) ++ post).
    set (lp := length_prefix op (len data)).
    assert (script = (pre ++ [z2b op]) ++ lp ++ data ++ post) as Es.
    { unfold script, lp. rewrite <- !app_assoc. reflexivity. }
    assert (len (pre ++ [z2b op]) = len pre + 1) as Lp1
        by (rewrite len_app; reflexivity).
    assert (script = ((pre ++ [z2b op]) ++ lp) ++ data ++ post) as Es2.
    { rewrite Es. now rewrite <- !app_assoc. }
    assert (pushdata_dlen script op (len pre + 1)
              (if is_ref_opcode op then Some (36, len pre + 1) else None)
            = Some (len data, len pre + 1 + len lp)) as P.
    { unfold pushdata_dlen, lp, length_prefix,
        OP_PUSHDATA4, OP_PUSHDATA2, OP_PUSHDATA1.
      destruct (Z.ltb_spec op 76).
      { destruct (Z.eqb_spec op 76); [lia|].
        destruct (Z.eqb_spec op 77); [lia|].
        destruct (Z.eqb_spec op 78); [lia|].
        rewrite V0 by lia. cbn. now rewrite Z.add_0_r. }
      destruct (Z.eqb_spec op 76).
      { rewrite Es. unfold lp, length_prefix, OP_PUSHDATA1.
        destruct (Z.eqb_spec op 76); [|lia].
        cbn [le_encode app]. rewrite <- Lp1.
        rewrite byte_at_app_mid, b2z_z2b, Z.mod_small by lia.
        cbn. reflexivity. }
      destruct (Z.eqb_spec op 77).
      { rewrite Es. unfold lp, length_prefix, OP_PUSHDATA1, OP_PUSHDATA2.
        destruct (Z.eqb_spec op 76); [lia|].
        destruct (Z.eqb_spec op 77); [|lia].
        rewrite <- Lp1.
        replace (len (pre ++ [z2b op]) + 2)
          with (len (pre ++ [z2b op]) + len (le_encode 2 (len data)))
          by (rewrite len_le_encode; lia).
        rewrite slice_app_mid.
        unfold unpack_le_uint16_from. rewrite unpack_from_unsigned_0.
        rewrite len_le_encode. cbn [Z.ltb Z.compare Pos.compare Pos.compare_cont].
        change (Z.of_nat 2) with (len (le_encode 2 (len data))).
        rewrite slice_whole_prefix by lia.
        rewrite le_decode_encode by (cbn; lia).
        rewrite Z.ltb_irrefl. reflexivity. }
      destruct (Z.eqb_spec op 78); [|lia].
      rewrite Es. unfold lp, length_prefix, OP_PUSHDATA1, OP_PUSHDATA2,
        OP_PUSHDATA4.
      destruct (Z.eqb_spec op 76); [lia|].
      destruct (Z.eqb_spec op 77); [lia|].
      destruct (Z.eqb_spec op 78); [|lia].
      rewrite <- Lp1.
      replace (len (pre ++ [z2b op]) + 4)
        with (len (pre ++ [z2b op]) + len (le_encode 4 (len data)))
        by (rewrite len_le_encode; lia).
      rewrite slice_app_mid.
      unfold unpack_le_uint32_from. rewrite unpack_from_unsigned_0.
      rewrite len_le_encode. cbn [Z.ltb Z.compare Pos.compare Pos.compare_cont].
      change (Z.of_nat 4) with (len (le_encode 4 (len data))).
      rewrite slice_whole_prefix by lia.
      rewrite le_decode_encode by (cbn; lia).
      rewrite Z.ltb_irrefl. reflexivity. }
    rewrite P. cbn [obind].
    assert (len script = len pre + 1 + len lp + len data + len post) as Ls.
    { rewrite Es. rewrite !len_app. change (len [z2b op]) with 1. lia. }
    destruct (Z.gtb_spec (len pre + 1 + len lp + len data) (len script)); [lia|].
    assert (slice script (len pre + 1 + len lp) (len pre + 1 + len lp + len data)
            = data) as ->.
    { rewrite Es2.
      replace (len pre + 1 + len lp) with (len ((pre ++ [z2b op]) ++ lp))
        by (rewrite !len_app; reflexivity).
      apply slice_app_mid. }
    rewrite len_cons, len_app. fold lp. do 2 f_equal. lia.
Qed.

(** [get_ops] reads the concatenated wire forms of valid op-items back
    as those items. *)
Lemma get_ops_items_from (items : list op_item) :
  Forall valid_item items ->
  forall (pre : bytes) (ops : list op_item) (fuel : nat),
    (length items <= fuel)%nat ->
    let script := pre ++ concat (map item_wire items) in
    while (get_ops_cond script) (get_ops_body script) fuel (len pre, ops)
    = Done (len script, ops ++ items).
Proof.
  induction 1 as [|it items V _ IH]; intros pre ops fuel Hf script.
  - unfold script. cbn [map concat]. rewrite !app_nil_r.
    destruct fuel; cbn [while]; unfold get_ops_cond; cbn [fst];
      rewrite Z.ltb_irrefl; reflexivity.
  - destruct fuel as [|fuel]; [cbn in Hf; lia|].
    assert (length items <= fuel)%nat as Hf' by (cbn [length] in Hf; lia).
    cbn [while]. unfold get_ops_cond at 1. cbn [fst].
    pose proof (len_item_wire_pos it) as Lw.
    pose proof (len_nonneg (concat (map item_wire items))) as Lr.
    assert (len script = len pre + len (item_wire it)
                         + len (concat (map item_wire items))) as Ls.
    { unfold script. cbn [map concat]. rewrite !len_app. lia. }
    destruct (Z.ltb_spec (len pre) (len script)); [|lia].
    unfold script at 1. cbn [map concat].
    rewrite (get_ops_body_item pre _ it ops V).
    specialize (IH (pre ++ item_wire it) (ops ++ [it]) fuel Hf').
    cbv zeta in IH. rewrite len_app in IH.
    replace ((pre ++ item_wire it) ++ concat (map item_wire items))
      with script in IH by (unfold script; cbn [map concat];
                            now rewrite app_assoc).
    rewrite IH. rewrite <- app_assoc. reflexivity.
Qed.

Lemma length_wire_ge (items : list op_item) :
  (length items <= length (concat (map item_wire items)))%nat.
Proof.
  induction items as [|it items IH]; cbn [map concat length]; [lia|].
  rewrite length_app. pose proof (len_item_wire_pos it) as L.
  unfold len in L. lia.
Qed.

Lemma get_ops_items (ops : list op_item) :
  Forall valid_item ops -> get_ops (concat (map item_wire ops)) = Done ops.
Proof.
  intros V. unfold get_ops, get_ops_fuel.
  pose proof (get_ops_items_from ops V [] [] _ (length_wire_ge ops)) as H.
  cbv zeta in H. cbn [app] in H.
  change (len (@nil byte)) with 0 in H. rewrite H. reflexivity.
Qed.

(** X1: [get_ops] succeeds with the list [ops] exactly when every item
    of [ops] is one that [get_ops] can return (a bare opcode above
    [OP_PUSHDATA4], or a push opcode paired with a payload of a length
    that fits it) and the wire forms of the items, concatenated, are the
    script. *)
Theorem get_ops_characterised (s : bytes) (ops : list op_item) :
  get_ops s = Done ops <->
  Forall valid_item ops /\ concat (map item_wire ops) = s.
Proof.
  split.
  - intros E. split; [exact (get_ops_valid _ _ E)|exact (get_ops_wire _ _ E)].
  - intros [V W]. subst s. now apply get_ops_items.
Qed.

(* ================================================================= *)
(** * [push_data] and the script templates *)

Lemma push_opcode_valid (data : bytes) :
  len data < 4294967296 -> valid_item (Push (push_opcode (len data)) data).
Proof.
  intros H. pose proof (len_nonneg data).
  unfold valid_item, push_opcode, OP_PUSHDATA1, OP_PUSHDATA2, OP_PUSHDATA4.
  destruct (Z.ltb_spec (len data) 76); [repeat split; lia|].
  destruct (Z.ltb_spec (len data) 256); [repeat split; lia|].
  destruct (Z.ltb_spec (len data) 65536); repeat split; lia.
Qed.

(** [push_data] writes the wire form of the op-item that pairs the
    opcode it chooses with the data. *)
Lemma push_data_wire (data : bytes) :
  len data < 4294967296 ->
  push_data data = Some (item_wire (Push (push_opcode (len data)) data)).
Proof.
  intros H. pose proof (len_nonneg data).
  unfold push_data, push_opcode, item_wire, length_prefix,
    OP_PUSHDATA1, OP_PUSHDATA2, OP_PUSHDATA4.
  destruct (Z.ltb_spec (len data) 76).
  { destruct (Z.eqb_spec (len data) 76); [lia|].
    destruct (Z.eqb_spec (len data) 77); [lia|].
    destruct (Z.eqb_spec (len data) 78); [lia|]. reflexivity. }
  destruct (Z.ltb_spec (len data) 256); [reflexivity|].
  destruct (Z.ltb_spec (len data) 65536).
  { unfold pack_le_uint16. rewrite pack_le_unsigned by (cbn; lia).
    reflexivity. }
  unfold pack_le_uint32. rewrite pack_le_unsigned by (cbn; lia).
  reflexivity.
Qed.

(** X2: for data shorter than [2^32] bytes, [push_data] returns the
    opcode it chooses (the length itself below 76, else [OP_PUSHDATA1],
    [OP_PUSHDATA2] or [OP_PUSHDATA4]), the 0, 1, 2 or 4 length bytes and
    the data, and [get_ops] reads this back as the single pair of that
    opcode and the data; for longer data [push_data] raises. *)
Theorem push_data_get_ops (data : bytes) :
  (len data < 4294967296 ->
   exists enc,
     push_data data = Some enc /\
     get_ops enc = Done [Push (push_opcode (len data)) data] /\
     len enc = 1 + len (length_prefix (push_opcode (len data)) (len data))
               + len data) /\
  (4294967296 <= len data -> push_data data = None).
Proof.
  split.
  - intros H. eexists. split; [apply push_data_wire; assumption|].
    split.
    + pose proof (get_ops_items [Push (push_opcode (len data)) data]) as G.
      cbn [map concat] in G. rewrite app_nil_r in G. apply G.
      constructor; [now apply push_opcode_valid|constructor].
    + cbn [item_wire]. rewrite len_cons, len_app. lia.
  - intros H. unfold push_data, OP_PUSHDATA1.
    destruct (Z.ltb_spec (len data) 76); [lia|].
    destruct (Z.ltb_spec (len data) 256); [lia|].
    destruct (Z.ltb_spec (len data) 65536); [lia|].
    unfold pack_le_uint32, pack_le.
    destruct (Z.ltb_spec (len data) (2 ^ (8 * Z.of_nat 4))) as [L|L];
      [cbn in L; lia|].
    now rewrite andb_false_r.
Qed.

Lemma push_data_get_ops_witness :
  let data := repeat xab 80 in
  exists enc,
    push_data data = Some enc /\
    get_ops enc = Done [Push 76 data] /\ len enc = 82.
Proof.
  intros data.
  destruct (proj1 (push_data_get_ops data)) as (enc & P & G & L).
  - vm_compute. reflexivity.
  - exists enc. split; [exact P|]. split; [exact G|]. exact L.
Defined.

Lemma match_ops_length (ops : list op_item) (pattern : list Z) :
  _match_ops ops pattern = true ->
  length ops = length pattern /\ _match_ops_zip ops pattern = true.
Proof.
  unfold _match_ops.
  destruct (Z.eqb_spec (len ops) (len pattern)) as [E|E]; cbn [negb];
    [|discriminate].
  intros H. split; [unfold len in E; lia|assumption].
Qed.

Ltac bare_valid := cbn [valid_item]; vm_compute; split; reflexivity.

(** X3: for a hash shorter than [2^32] bytes, the script built by
    [P2PKH_script] parses, and its op-items match [TO_ADDRESS_OPS] and
    neither of the other two templates; the script built by
    [P2SH_script] parses and matches [TO_P2SH_OPS] only. *)
Theorem templates_recognised (hash160 : bytes) :
  len hash160 < 4294967296 ->
  (exists s ops,
     P2PKH_script hash160 = Some s /\ get_ops s = Done ops /\
     _match_ops ops TO_ADDRESS_OPS = true /\
     _match_ops ops TO_P2SH_OPS = false /\
     _match_ops ops TO_PUBKEY_OPS = false) /\
  (exists s ops,
     P2SH_script hash160 = Some s /\ get_ops s = Done ops /\
     _match_ops ops TO_P2SH_OPS = true /\
     _match_ops ops TO_ADDRESS_OPS = false /\
     _match_ops ops TO_PUBKEY_OPS = false).
Proof.
  intros H. pose proof (push_opcode_valid hash160 H) as V.
  set (p := Push (push_opcode (len hash160)) hash160) in *.
  split.
  - exists (concat (map item_wire
              [Bare OP_DUP; Bare OP_HASH160; p; Bare OP_EQUALVERIFY;
               Bare OP_CHECKSIG])),
           [Bare OP_DUP; Bare OP_HASH160; p; Bare OP_EQUALVERIFY;
            Bare OP_CHECKSIG].
    split.
    { unfold P2PKH_script. rewrite push_data_wire by assumption.
      unfold p. cbn [obind map concat item_wire app]. reflexivity. }
    split.
    { apply get_ops_items.
      repeat (first [apply Forall_nil
                    |apply Forall_cons; [first [exact V|bare_valid]|]]). }
    repeat split; reflexivity.
  - exists (concat (map item_wire [Bare OP_HASH160; p; Bare OP_EQUAL])),
           [Bare OP_HASH160; p; Bare OP_EQUAL].
    split.
    { unfold P2SH_script. rewrite push_data_wire by assumption.
      unfold p. cbn [obind map concat item_wire app]. reflexivity. }
    split.
    { apply get_ops_items.
      repeat (first [apply Forall_nil
                    |apply Forall_cons; [first [exact V|bare_valid]|]]). }
    repeat split; reflexivity.
Qed.

Lemma templates_recognised_witness :
  let h := repeat x42 20 in
  P2PKH_script h = Some ([x76; xa9; x14] ++ h ++ [x88; xac]) /\
  exists s ops, P2SH_script h = Some s /\ get_ops s = Done ops /\
                _match_ops ops TO_P2SH_OPS = true.
Proof.
  intros h. split; [vm_compute; reflexivity|].
  destruct (proj2 (templates_recognised h ltac:(vm_compute; reflexivity)))
    as (s & ops & P & G & M & _).
  exists s, ops. split; [exact P|]. split; [exact G|exact M].
Defined.

(** X4: a script that parses and whose op-items match [TO_ADDRESS_OPS]
    is [OP_DUP OP_HASH160], one push of any data with any push opcode,
    and [OP_EQUALVERIFY OP_CHECKSIG]: the length of the pushed data is
    not looked at. *)
Theorem address_template_shape (s : bytes) (ops : list op_item) :
  get_ops s = Done ops ->
  _match_ops ops TO_ADDRESS_OPS = true ->
  exists op data,
    valid_item (Push op data) /\
    ops = [Bare OP_DUP; Bare OP_HASH160; Push op data;
           Bare OP_EQUALVERIFY; Bare OP_CHECKSIG] /\
    s = [x76; xa9] ++ item_wire (Push op data) ++ [x88; xac].
Proof.
  intros G M. pose proof (get_ops_valid _ _ G) as V.
  pose proof (get_ops_wire _ _ G) as W.
  apply match_ops_length in M. destruct M as [L M].
  destruct ops as [|i1 [|i2 [|i3 [|i4 [|i5 [|i6 ops]]]]]]; try discriminate L.
  clear L.
  inversion V as [|? ? V1 V']; subst. inversion V' as [|? ? V2 V'']; subst.
  inversion V'' as [|? ? V3 V''']; subst.
  inversion V''' as [|? ? V4 V'''']; subst.
  inversion V'''' as [|? ? V5 _]; subst.
  clear V V' V'' V''' V''''.
  unfold TO_ADDRESS_OPS in M. cbn [_match_ops_zip] in M.
  assert (forall (pop : Z) (it : op_item) (b : bool),
            pop <> -1 ->
            (if pattern_differs pop it
             then if (pop =? -1) && is_tuple it then b else false
             else b) = true -> it = Bare pop /\ b = true) as K.
  { intros pop it b Hp. destruct it as [o|o d]; cbn [pattern_differs is_tuple].
    - destruct (Z.eqb_spec pop o); cbn [negb].
      + intros Hb. subst. now split.
      + rewrite andb_false_r. discriminate.
    - destruct (Z.eqb_spec pop (-1)); [contradiction|]. cbn. discriminate. }
  apply K in M; [|discriminate]. destruct M as [-> M].
  apply K in M; [|discriminate]. destruct M as [-> M].
  destruct i3 as [o|op data].
  { exfalso. cbn [valid_item] in V3. unfold OP_PUSHDATA4 in V3.
    cbn [pattern_differs is_tuple] in M.
    destruct (Z.eqb_spec (-1) o); [lia|]. cbn in M. discriminate. }
  cbn [pattern_differs is_tuple] in M. cbn [andb Z.eqb] in M.
  apply K in M; [|discriminate]. destruct M as [-> M].
  apply K in M; [|discriminate]. destruct M as [-> _].
  exists op, data. split; [assumption|]. split; [reflexivity|].
  reflexivity.
Qed.

Lemma address_template_shape_witness :
  let s := [x76; xa9; x02; x01; x02; x88; xac] in
  exists op data,
    valid_item (Push op data) /\
    s = [x76; xa9] ++ item_wire (Push op data) ++ [x88; xac].
Proof.
  intros s.
  destruct (address_template_shape s
              [Bare 118; Bare 169; Push 2 [x01; x02]; Bare 136; Bare 172])
    as (op & data & V & _ & E).
  - vm_compute. reflexivity.
  - vm_compute. reflexivity.
  - exists op, data. split; [exact V|exact E].
Defined.

(* ================================================================= *)
(** * The unspendable-script predicates *)

Lemma bytes_eqb_eq (a b : bytes) : bytes_eqb a b = true <-> a = b.
Proof.
  revert b. induction a as [|x a IH]; intros [|y b]; cbn;
    try (split; [discriminate|discriminate]); try tauto.
  rewrite andb_true_iff, IH. split.
  - intros [E ->]. apply Byte.byte_dec_bl in E. now subst.
  - intros E. inversion E; subst. split; [now apply Byte.byte_dec_lb|reflexivity].
Qed.

Lemma slice_from_start {A} (l : list A) (b : Z) :
  0 <= b -> slice l 0 b = firstn (Z.to_nat b) l.
Proof.
  intros H. pose proof (len_nonneg l). unfold slice, clamp.
  change (0 <? 0) with false. cbv iota.
  destruct (Z.ltb_spec b 0); [lia|].
  rewrite (Z.min_l 0) by lia. cbn [Z.to_nat skipn]. rewrite Z.sub_0_r.
  destruct (Z.le_gt_cases b (len l)).
  - now rewrite Z.min_l by lia.
  - rewrite Z.min_r by lia. rewrite slice_full.
    symmetry. apply firstn_all2. unfold len in *. lia.
Qed.

Lemma is_unspendable_genesis_spec (s : bytes) :
  is_unspendable_genesis s = true <-> exists rest, s = x00 :: x6a :: rest.
Proof.
  unfold is_unspendable_genesis. rewrite bytes_eqb_eq.
  rewrite slice_from_start by lia. change (Z.to_nat 2) with 2%nat.
  destruct s as [|a [|b rest]]; cbn [firstn].
  - split; [discriminate|intros [r E]; discriminate].
  - split; [discriminate|intros [r E]; discriminate].
  - split.
    + intros E. inversion E. eauto.
    + intros [r E]. inversion E. reflexivity.
Qed.

Lemma is_unspendable_legacy_spec (s : bytes) :
  is_unspendable_legacy s = true <->
  (exists rest, s = x00 :: x6a :: rest) \/ (exists rest, s = x6a :: rest).
Proof.
  unfold is_unspendable_legacy. rewrite orb_true_iff.
  fold (is_unspendable_genesis s). rewrite is_unspendable_genesis_spec.
  apply or_iff_compat_l.
  destruct s as [|a rest].
  - cbn. split; [discriminate|intros [r E]; discriminate].
  - assert ((len (a :: rest) =? 0) = false) as ->.
    { rewrite len_cons. pose proof (len_nonneg rest). apply Z.eqb_neq. lia. }
    cbn [negb andb]. unfold byte_at. rewrite getitem_nonneg by lia.
    cbn [Z.to_nat nth_error option_map]. split.
    + intros E. apply Z.eqb_eq in E.
      exists rest. f_equal. rewrite <- (z2b_b2z a), E. reflexivity.
    + intros [r E]. inversion E. reflexivity.
Qed.

(** The first op-item of a parsed script holds its first byte. *)
Lemma first_item (ops : list op_item) (b : byte) (tl : bytes) :
  Forall valid_item ops ->
  concat (map item_wire ops) = b :: tl ->
  exists it ops',
    ops = it :: ops' /\ valid_item it /\ item_opcode it = b2z b /\
    Forall valid_item ops' /\
    item_wire it ++ concat (map item_wire ops') = b :: tl.
Proof.
  intros V W. destruct ops as [|it ops']; [discriminate|].
  inversion V as [|? ? Vi V']; subst.
  exists it, ops'. cbn [map concat] in W.
  repeat split; try assumption.
  destruct it as [op|op data]; cbn [item_wire item_opcode valid_item] in *;
    unfold OP_PUSHDATA4 in *; inversion W as [[Eb Et]];
    apply z2b_inj_range; try reflexivity; lia.
Qed.

(** X5: for a script that parses, [is_unspendable_genesis] holds exactly
    when its op-items start with the empty push [(0, b'')] followed by
    [OP_RETURN], and [is_unspendable_legacy] holds exactly when they
    start so or start with [OP_RETURN]. *)
Theorem unspendable_ops (s : bytes) (ops : list op_item) :
  get_ops s = Done ops ->
  (is_unspendable_genesis s = true <->
   exists rest, ops = Push 0 [] :: Bare OP_RETURN :: rest) /\
  (is_unspendable_legacy s = true <->
   (exists rest, ops = Push 0 [] :: Bare OP_RETURN :: rest) \/
   (exists rest, ops = Bare OP_RETURN :: rest)).
Proof.
  intros G. pose proof (get_ops_valid _ _ G) as V.
  pose proof (get_ops_wire _ _ G) as W.
  assert (forall tl, concat (map item_wire ops) = x6a :: tl ->
                     exists rest, ops = Bare OP_RETURN :: rest) as Ret.
  { intros tl E. destruct (first_item _ _ _ V E) as (it & ops' & -> & Vi & O & _).
    exists ops'. f_equal.
    destruct it as [op|op data]; cbn [item_opcode valid_item] in *.
    - now subst op.
    - exfalso. unfold OP_PUSHDATA4 in Vi. subst op.
      destruct Vi as [[_ Hh] _]. vm_compute in Hh. now apply Hh. }
  assert ((exists rest, s = x00 :: x6a :: rest) <->
          exists rest, ops = Push 0 [] :: Bare OP_RETURN :: rest) as Gen.
  { split.
    - intros [tl E]. rewrite E in W.
      destruct (first_item _ _ _ V W) as (it & ops' & -> & Vi & O & V' & W').
      destruct it as [op|op data]; cbn [item_opcode valid_item] in *.
      + exfalso. unfold OP_PUSHDATA4 in Vi. subst op.
        destruct Vi as [Hh _]. vm_compute in Hh. discriminate Hh.
      + subst op. destruct Vi as (_ & L0 & _).
        specialize (L0 ltac:(reflexivity)).
        assert (data = []) as -> by (destruct data; [reflexivity|discriminate L0]).
        cbn in W'. inversion W' as [W''].
        destruct (first_item _ _ _ V' W'') as (it & ops2 & -> & Vi & O & _).
        exists ops2. do 2 f_equal.
        destruct it as [op|op data]; cbn [item_opcode valid_item] in *.
        * now subst op.
        * exfalso. unfold OP_PUSHDATA4 in Vi. subst op.
          destruct Vi as [[_ Hh] _]. vm_compute in Hh. now apply Hh.
    - intros [rest E]. subst ops. cbn in W. eauto. }
  split.
  - now rewrite is_unspendable_genesis_spec.
  - rewrite is_unspendable_legacy_spec, Gen. apply or_iff_compat_l.
    split.
    + intros [tl E]. apply (Ret tl). now rewrite W.
    + intros [rest E]. subst ops. cbn in W. eauto.
Qed.

Lemma unspendable_ops_witness :
  let s := [x00; x6a; x02; xaa; xbb] in
  is_unspendable_genesis s = true /\ is_unspendable_legacy s = true /\
  is_unspendable_genesis [x6a] = false /\ is_unspendable_legacy [] = false.
Proof.
  intros s.
  destruct (unspendable_ops s [Push 0 []; Bare 106; Push 2 [xaa; xbb]])
    as [A B]; [vm_compute; reflexivity|].
  split; [apply A; eauto|]. split; [apply B; left; eauto|].
  split; reflexivity.
Defined.

(* ================================================================= *)
(** * [get_push_input_refs]: what the lists hold *)

Lemma next_opcode_ref (s : bytes) (n op n' : Z) :
  byte_at s n = Some op -> is_ref_opcode op = true ->
  next_opcode s n = Some n' -> n' = n + 37.
Proof.
  intros B R. unfold next_opcode. rewrite B. cbn [obind].
  rewrite (ref_opcode_above_pushdata _ R). cbn [obind]. rewrite R.
  destruct (n + 1 + 36 >? len s); [discriminate|].
  intros E. inversion E. lia.
Qed.

Lemma opcode_at_ref (s : bytes) (n : Z) :
  opcode_at s OP_PUSHINPUTREF n || opcode_at s OP_PUSHINPUTREFSINGLETON n = true ->
  exists op, byte_at s n = Some op /\ is_ref_opcode op = true.
Proof.
  unfold opcode_at. destruct (byte_at s n) as [op|]; [|discriminate].
  intros H. exists op. split; [reflexivity|].
  apply orb_true_iff in H. destruct H as [H|H]; apply Z.eqb_eq in H;
    subst op; reflexivity.
Qed.

Lemma Interleave_length {A} (l1 l2 l : list A) :
  Interleave l1 l2 l -> length l = (length l1 + length l2)%nat.
Proof.
  induction 1; cbn; lia.
Qed.

(** X6: every reference that [get_push_input_refs] returns is 36 bytes
    long, and [all_refs] has as many elements as [normal_refs] and
    [singleton_refs] together. *)
Theorem get_push_input_refs_lengths (s : bytes) (all normal singleton : list bytes) :
  get_push_input_refs s = Done (all, normal, singleton) ->
  Forall (fun r => len r = 36) all /\
  Forall (fun r => len r = 36) normal /\
  Forall (fun r => len r = 36) singleton /\
  length all = (length normal + length singleton)%nat.
Proof.
  unfold get_push_input_refs, get_push_input_refs_fuel.
  destruct (while _ _ _ _) as [r| |] eqn:W; try discriminate.
  intros E. inversion E; subst. clear E.
  pose proof (get_push_input_refs_interleave _ _ _ W) as I.
  apply Interleave_length in I.
  apply (while_invariant _ _
           (fun st => 0 <= rs_n st /\
                      Forall (fun r => len r = 36) (all_refs st) /\
                      Forall (fun r => len r = 36) (normal_refs st) /\
                      Forall (fun r => len r = 36) (singleton_refs st))) in W.
  - tauto.
  - intros st st' (Hn & F1 & F2 & F3) [_ B].
    apply get_push_input_refs_body_frame in B.
    destruct B as (N & -> & -> & ->).
    pose proof (next_opcode_advance _ _ _ N) as Adv.
    split; [lia|].
    assert (opcode_at s OP_PUSHINPUTREF (rs_n st)
            || opcode_at s OP_PUSHINPUTREFSINGLETON (rs_n st) = true ->
            len (ref_payload s (rs_n st)) = 36) as L.
    { intros H. destruct (opcode_at_ref _ _ H) as (op & Bo & R).
      pose proof (next_opcode_ref _ _ _ _ Bo R N) as En.
      pose proof (next_opcode_bound _ _ _ Hn N) as Bd.
      unfold ref_payload. rewrite len_slice; lia. }
    destruct (opcode_at s OP_PUSHINPUTREF (rs_n st));
      destruct (opcode_at s OP_PUSHINPUTREFSINGLETON (rs_n st));
      cbn [orb] in *; rewrite ?app_nil_r;
      repeat split; try assumption;
      apply Forall_app; (split; [assumption|]);
      constructor; auto.
  - cbn. repeat split; try constructor. lia.
Qed.

Lemma get_push_input_refs_lengths_witness :
  let a := repeat xaa 36 in
  let b := repeat xbb 36 in
  let s := xd0 :: a ++ xd8 :: b ++ [x51] in
  get_push_input_refs s = Done ([a; b], [a], [b]) /\
  Forall (fun r => len r = 36) [a; b].
Proof.
  intros a b s.
  assert (get_push_input_refs s = Done ([a; b], [a], [b])) as E
      by (vm_compute; reflexivity).
  split; [exact E|].
  exact (proj1 (get_push_input_refs_lengths s _ _ _ E)).
Defined.

(* ================================================================= *)
(** * [zero_refs] and [get_push_input_refs] read the same scripts *)

Lemma while_raised_stuck {S : Type} (cond : S -> bool) (body : S -> option S)
    (fuel : nat) (s : S) :
  while cond body fuel s = Raised tt ->
  exists a, iter_steps cond body s a /\ cond a = true /\ body a = None.
Proof.
  revert s. induction fuel as [|fuel IH]; intros s; cbn.
  - destruct (cond s); discriminate.
  - destruct (cond s) eqn:C; [|discriminate].
    destruct (body s) as [s'|] eqn:B.
    + intros E. destruct (IH _ E) as (a & R & Ca & Ba).
      exists a. split; [|tauto].
      econstructor; [split; eassumption|assumption].
    + intros _. exists s. split; [constructor|tauto].
Qed.

Lemma zero_refs_at_opcode_position (s : bytes) (a : zero_state) :
  iter_steps (zero_refs_cond s) (zero_refs_body s) (mk_zero_state 0 [] false) a ->
  opcode_position s (zs_n a).
Proof.
  intros H.
  apply (iter_steps_invariant (zero_refs_cond s) (zero_refs_body s)
           (fun st => opcode_position s (zs_n st))) in H.
  - exact H.
  - intros st st' P [C B]. apply zero_refs_body_frame in B.
    destruct B as (op & _ & N & _). unfold opcode_position in *.
    eapply iter_steps_snoc; [exact P|]. split; assumption.
  - constructor.
Qed.

Lemma get_push_input_refs_at_opcode_position (s : bytes) (a : refs_state) :
  iter_steps (get_push_input_refs_cond s) (get_push_input_refs_body s)
    (mk_refs_state 0 [] [] []) a ->
  opcode_position s (rs_n a).
Proof.
  intros H.
  apply (iter_steps_invariant (get_push_input_refs_cond s)
           (get_push_input_refs_body s)
           (fun st => opcode_position s (rs_n st))) in H.
  - exact H.
  - intros st st' P [C B]. apply get_push_input_refs_body_frame in B.
    destruct B as (N & _). unfold opcode_position in *.
    eapply iter_steps_snoc; [exact P|]. split; assumption.
  - constructor.
Qed.

Lemma zero_refs_raises_iff (s : bytes) :
  zero_refs_walk (length s) s = Raised tt <-> truncated s.
Proof.
  split.
  - intros W. apply while_raised_stuck in W. destruct W as (a & R & C & B).
    exists (zs_n a). split; [now apply zero_refs_at_opcode_position|].
    split; [now apply Z.ltb_lt|].
    destruct (next_opcode s (zs_n a)) as [n'|] eqn:N; [|reflexivity].
    destruct (zero_refs_body_total _ _ _ N) as (st' & B' & _). congruence.
  - intros (n & P & L & N).
    destruct (zero_refs_visits _ _ P) as (a & Ra & Ea).
    apply (while_raises _ _ _ _ a Ra).
    + unfold zero_refs_cond. rewrite Ea. now apply Z.ltb_lt.
    + destruct (zero_refs_body s a) as [a'|] eqn:B; [|reflexivity].
      apply zero_refs_body_frame in B. destruct B as (op & _ & B & _).
      rewrite Ea in B. congruence.
    + apply zero_refs_walk_fuel_enough.
Qed.

Lemma get_push_input_refs_raises_iff (s : bytes) :
  get_push_input_refs s = Raised (ScriptError "get_push_input_refs script")
  <-> truncated s.
Proof.
  pose proof (get_push_input_refs_fuel_enough s) as F.
  unfold get_push_input_refs, get_push_input_refs_fuel in *.
  split.
  - destruct (while _ _ _ _) as [r|[]|] eqn:W; try discriminate.
    intros _. apply while_raised_stuck in W. destruct W as (a & R & C & B).
    exists (rs_n a).
    split; [now apply get_push_input_refs_at_opcode_position|].
    split; [now apply Z.ltb_lt|].
    destruct (next_opcode s (rs_n a)) as [n'|] eqn:N; [|reflexivity].
    destruct (get_push_input_refs_body_total _ _ _ N) as (st' & B' & _).
    congruence.
  - intros (n & P & L & N).
    destruct (get_push_input_refs_visits_from s 0 n P
                (mk_refs_state 0 [] [] []) eq_refl) as (a & Ra & Ea).
    rewrite (while_raises _ _ _ _ a Ra).
    + reflexivity.
    + unfold get_push_input_refs_cond. rewrite Ea. now apply Z.ltb_lt.
    + destruct (get_push_input_refs_body s a) as [a'|] eqn:B; [|reflexivity].
      apply get_push_input_refs_body_frame in B. destruct B as [B _].
      rewrite Ea in B. congruence.
    + destruct (while _ _ _ _); congruence.
Qed.

(** X7: [zero_refs] and [get_push_input_refs] raise on the same
    scripts, those in which an iteration of their common walk runs past
    the end; on every other script both return. *)
Theorem walkers_raise_together (s : bytes) :
  (zero_refs s = Raised (ScriptError "truncated script") <-> truncated s) /\
  (get_push_input_refs s = Raised (ScriptError "get_push_input_refs script")
   <-> truncated s) /\
  (~ truncated s ->
   exists r refs, zero_refs s = Done r /\ get_push_input_refs s = Done refs).
Proof.
  pose proof (zero_refs_raises_iff s) as Z.
  pose proof (get_push_input_refs_raises_iff s) as G.
  pose proof (zero_refs_walk_fuel_enough s) as Fz.
  pose proof (get_push_input_refs_fuel_enough s) as Fg.
  assert (zero_refs s = Raised (ScriptError "truncated script") <-> truncated s)
    as Z'.
  { rewrite <- Z. unfold zero_refs, zero_refs_fuel.
    destruct (zero_refs_walk (length s) s) as [st|[]|]; split; intros E;
      congruence. }
  split; [exact Z'|]. split; [exact G|].
  intros N.
  destruct (zero_refs s) as [r|[m]|] eqn:Ez.
  - destruct (get_push_input_refs s) as [refs|[m]|] eqn:Eg.
    + eauto.
    + exfalso. apply N, G. unfold get_push_input_refs,
        get_push_input_refs_fuel in *.
      destruct (while _ _ _ _); congruence.
    + congruence.
  - exfalso. apply N, Z. unfold zero_refs, zero_refs_fuel in Ez.
    destruct (zero_refs_walk (length s) s) as [st|[]|]; congruence.
  - exfalso. unfold zero_refs, zero_refs_fuel in Ez.
    destruct (zero_refs_walk (length s) s) as [st|[]|]; congruence.
Qed.

Lemma walkers_raise_together_witness :
  let s := [x51; xd1; xaa] in
  zero_refs s = Raised (ScriptError "truncated script") /\
  get_push_input_refs s = Raised (ScriptError "get_push_input_refs script").
Proof.
  intros s.
  assert (truncated s) as T.
  { exists 1. split; [|split; vm_compute; reflexivity].
    unfold opcode_position.
    econstructor; [|constructor]. split; vm_compute; reflexivity. }
  split.
  - exact (proj2 (proj1 (walkers_raise_together s)) T).
  - exact (proj2 (proj1 (proj2 (walkers_raise_together s))) T).
Defined.

(* ================================================================= *)
(** * [zero_refs] on scripts without [OP_PUSHDATA1/2/4] *)

Lemma segment_of_next (s : bytes) (n n' : Z) :
  next_opcode s n = Some n' -> segment s n = slice s n n'.
Proof.
  intros N. unfold segment, segment_end. now rewrite N.
Qed.

(** An iteration that does not read [OP_PUSHDATA1/2/4] appends the
    segment it walks over, with the bytes after a reference opcode
    zeroed, and as many bytes as it walks over. *)
Lemma zero_refs_body_segment (s : bytes) (st st' : zero_state) (op : Z) :
  0 <= zs_n st ->
  byte_at s (zs_n st) = Some op ->
  is_pushdata_opcode op = false ->
  zero_refs_body s st = Some st' ->
  zs_ops st' = zs_ops st ++ zeroed_segment s (zs_n st) /\
  len (zeroed_segment s (zs_n st)) = zs_n st' - zs_n st.
Proof.
  intros Hn B Pd Bd.
  pose proof Bd as Fr. apply zero_refs_body_frame in Fr.
  destruct Fr as (op' & B' & N & _).
  assert (op' = op) by congruence. subst op'.
  pose proof (next_opcode_bound _ _ _ Hn N) as Bn.
  pose proof (next_opcode_advance _ _ _ N) as An.
  destruct (byte_at_slice _ _ _ Hn B) as [L1 S1].
  pose proof (byte_at_range _ _ _ B) as R.
  unfold zeroed_segment. rewrite B, (segment_of_next _ _ _ N).
  revert Bd. unfold zero_refs_body. rewrite B. cbn [obind].
  destruct (is_ref_opcode op) eqn:Rf.
  - rewrite (ref_opcode_above_pushdata _ Rf). cbn [obind].
    pose proof (next_opcode_ref _ _ _ _ B Rf N) as En.
    destruct (zs_n st + 1 + 36 >? len s); [discriminate|].
    intros E. inversion E; subst st'. cbn [zs_n zs_ops] in *.
    rewrite S1, <- app_assoc. split; [reflexivity|].
    rewrite len_app. change (len [z2b op]) with 1.
    change (len (zero_bytes 36)) with 36. lia.
  - destruct (Z.leb_spec op OP_PUSHDATA4) as [Le|Gt].
    + assert (op < 76) as Lt.
      { unfold is_pushdata_opcode, OP_PUSHDATA1, OP_PUSHDATA2, OP_PUSHDATA4 in *.
        apply orb_false_iff in Pd. destruct Pd as [Pd P3].
        apply orb_false_iff in Pd. destruct Pd as [P1 P2].
        apply Z.eqb_neq in P1, P2, P3. lia. }
      unfold pushdata_dlen, OP_PUSHDATA1.
      destruct (Z.ltb_spec op 76); [|lia]. cbn [obind].
      destruct (Z.gtb_spec (zs_n st + 1 + op) (len s)); cbn [obind];
        [discriminate|].
      intros E. inversion E; subst st'. cbn [zs_n zs_ops] in *.
      rewrite <- app_assoc. split.
      * f_equal. rewrite (slice_split s (zs_n st) (zs_n st + 1)) by lia.
        now rewrite S1.
      * rewrite len_slice; lia.
    + cbn [obind]. intros E. inversion E; subst st'. cbn [zs_n zs_ops] in *.
      split; [now rewrite S1|]. rewrite len_slice; lia.
Qed.

(** The output of a run and the script itself, cut at the opcode
    positions that the run goes through. *)
Lemma zero_refs_trace (s : bytes) (fuel : nat) (st r : zero_state) :
  0 <= zs_n st <= len s ->
  while (zero_refs_cond s) (zero_refs_body s) fuel st = Done r ->
  let ps := trace (fun n => n <? len s) (next_opcode s) fuel (zs_n st) in
  slice s (zs_n st) (len s) = concat (map (segment s) ps) /\
  (forallb (fun n => match byte_at s n with
                     | Some op => negb (is_pushdata_opcode op)
                     | None => true
                     end) ps = true ->
   zs_ops r = zs_ops st ++ concat (map (zeroed_segment s) ps) /\
   len (zs_ops r) = len (zs_ops st) + (len s - zs_n st)).
Proof.
  revert st. induction fuel as [|fuel IH]; intros st Hn; cbn [while trace];
    unfold zero_refs_cond at 1;
    destruct (Z.ltb_spec (zs_n st) (len s)) as [C|C]; try discriminate.
  - intros E. inversion E; subst r. cbn.
    assert (zs_n st = len s) as -> by lia.
    rewrite slice_empty, app_nil_r. split; [reflexivity|]. intros _.
    split; [reflexivity|lia].
  - destruct (zero_refs_body s st) as [st'|] eqn:B; [|discriminate].
    intros E. pose proof B as Fr. apply zero_refs_body_frame in Fr.
    destruct Fr as (op & Bo & N & _).
    pose proof (next_opcode_bound _ _ _ (proj1 Hn) N) as Bn.
    pose proof (next_opcode_advance _ _ _ N) as An.
    specialize (IH st' ltac:(lia) E). cbv zeta in IH.
    destruct IH as [I1 I2].
    rewrite N. cbn [map concat forallb]. rewrite Bo.
    split.
    + rewrite (segment_of_next _ _ _ N), <- I1.
      apply slice_split; lia.
    + intros F. apply andb_true_iff in F. destruct F as [Pd F].
      apply negb_true_iff in Pd.
      destruct (zero_refs_body_segment _ _ _ _ (proj1 Hn) Bo Pd B) as [S1 S2].
      destruct (I2 F) as [J1 J2].
      split.
      * now rewrite J1, S1, <- app_assoc.
      * rewrite J2, S1, len_app. lia.
  - intros E. inversion E; subst r. cbn.
    assert (zs_n st = len s) as -> by lia.
    rewrite slice_empty, app_nil_r. split; [reflexivity|]. intros _.
    split; [reflexivity|lia].
Qed.

(** X8: when [zero_refs] returns and no [OP_PUSHDATA1], [OP_PUSHDATA2] or
    [OP_PUSHDATA4] stands at an opcode position of a script that has a
    signature-check opcode at one, the result is the script cut at its
    opcode positions, with the 36 bytes after each reference opcode
    replaced by zeros and every other segment unchanged; it has the
    length of the script. *)
Theorem zero_refs_zeroes_reference_segments (s r : bytes) :
  zero_refs s = Done r ->
  has_sig_opcode s ->
  forallb (fun n => match byte_at s n with
                    | Some op => negb (is_pushdata_opcode op)
                    | None => true
                    end) (opcode_positions s) = true ->
  r = concat (map (zeroed_segment s) (opcode_positions s)) /\
  s = concat (map (segment s) (opcode_positions s)) /\
  length r = length s.
Proof.
  unfold zero_refs, zero_refs_fuel.
  destruct (zero_refs_walk (length s) s) as [st| |] eqn:W; try discriminate.
  intros E Sg F. inversion E; subst r. clear E.
  apply (requires_sig_iff s st W) in Sg. rewrite Sg.
  unfold zero_refs_walk in W.
  pose proof (len_nonneg s) as Ls.
  assert (0 <= zs_n (mk_zero_state 0 [] false) <= len s) as R0
    by (cbn [zs_n]; lia).
  destruct (zero_refs_trace s (length s) _ st R0 W) as [T1 T2].
  cbn [zs_n zs_ops] in T1, T2. fold (opcode_positions s) in T1, T2.
  destruct (T2 F) as [U1 U2]. cbn [app] in U1.
  split; [exact U1|]. split.
  - rewrite <- T1. rewrite slice_in_range by lia. cbn [Z.to_nat skipn].
    rewrite Z.sub_0_r. symmetry. apply slice_full.
  - change (len (@nil byte)) with 0 in U2. unfold len in U2. lia.
Qed.

Lemma zero_refs_zeroes_reference_segments_witness :
  let s := [x02; xaa; xbb; xd0] ++ repeat xcc 36 ++ [xac] in
  let r := [x02; xaa; xbb; xd0] ++ repeat x00 36 ++ [xac] in
  zero_refs s = Done r /\ length r = length s.
Proof.
  intros s r.
  assert (zero_refs s = Done r) as E by (vm_compute; reflexivity).
  split; [exact E|].
  refine (proj2 (proj2 (zero_refs_zeroes_reference_segments s r E _ _))).
  - rewrite has_sig_opcode_decide. vm_compute. reflexivity.
  - vm_compute. reflexivity.
Defined.

(* ================================================================= *)
(** * [get_state]: what it returns on any script *)

Lemma get_state_cases (script : bytes) :
  get_state script = Ok None \/
  exists pc, get_state script = Ok (Some pc) /\
             pc = len script - 5
                  - le_decode (slice script (len script - 5) (len script - 1)) /\
             1 <= pc <= len script - 5 /\
             byte_at script (pc - 1) = Some OP_RETURN.
Proof.
  destruct (Z.lt_ge_cases (len script) 6) as [S|S].
  - left. unfold get_state.
    destruct (Z.ltb_spec (len script) (1 + 0 + 4 + 1)); [reflexivity|lia].
  - rewrite get_state_unfold by lia. cbv zeta.
    pose proof (le_decode_range
                  (slice script (len script - 5) (len script - 1))) as R.
    set (stateLen := le_decode _) in *.
    destruct (Z.ltb_spec (len script) (1 + stateLen + 4 + 1)); [now left|].
    destruct (byte_at_some script (len script - 5 - stateLen - 1)) as [b B];
      [lia|].
    rewrite B. destruct (Z.eqb_spec b OP_RETURN) as [->|]; cbn [negb];
      [|now left].
    right. eexists. split; [reflexivity|]. split; [reflexivity|].
    split; [lia|exact B].
Qed.

(** X9: [get_state] never raises, whatever the script: neither the
    [unpack_le_uint32_from] of the last bytes nor the index [pc - 1] can
    fail.  A split point it returns is the length less 5 less the
    little-endian u32 at [len - 5 .. len - 1], lies between 1 and
    [len - 5], and has [OP_RETURN] just before it; being at least 1, it
    is never taken for [False] by the test [if pc:]. *)
Theorem get_state_never_raises (script : bytes) :
  (forall e, get_state script <> Err e) /\
  (forall pc, get_state script = Ok (Some pc) ->
     pc = len script - 5
          - le_decode (slice script (len script - 5) (len script - 1)) /\
     1 <= pc <= len script - 5 /\
     byte_at script (pc - 1) = Some OP_RETURN /\
     truthy (Some pc) = true).
Proof.
  destruct (get_state_cases script) as [E|(pc & E & P & R & B)]; rewrite E.
  - split; [discriminate|]. intros pc H. discriminate H.
  - split; [discriminate|]. intros pc' H.
    assert (pc' = pc) as -> by congruence.
    repeat split; try assumption; try lia.
    unfold truthy. destruct (Z.eqb_spec pc 0); [lia|reflexivity].
Qed.

(* ================================================================= *)
(** * [_read_varint] and [pack_varint] *)

Lemma read_unsigned_range (w : nat) (binary : bytes) (cursor n cursor' : Z) :
  0 <= cursor ->
  read_unpacked (unpack_from w false) (Z.of_nat w) binary cursor
  = Done (n, cursor') ->
  0 <= n < 2 ^ (8 * Z.of_nat w) /\ cursor' = cursor + Z.of_nat w /\
  cursor' <= len binary.
Proof.
  intros Hc. unfold read_unpacked, unpack_from.
  destruct (Z.ltb_spec cursor 0); [lia|].
  destruct (Z.ltb_spec cursor 0); [lia|].
  destruct (Z.ltb_spec (len binary - cursor) (Z.of_nat w)); cbn [orb andb];
    [discriminate|].
  intros E. inversion E; subst. clear E.
  pose proof (le_decode_range (slice binary cursor (cursor + Z.of_nat w))) as R.
  rewrite len_slice in R by lia.
  replace (cursor + Z.of_nat w - cursor) with (Z.of_nat w) in R by lia.
  rewrite Z.pow_mul_r by lia. change (2 ^ 8) with 256.
  split; [exact R|]. split; lia.
Qed.

Lemma len_pack_varint (n : Z) (enc : bytes) :
  pack_varint n = Some enc ->
  len enc = if n <? 253 then 1
            else if n <? 65536 then 3
            else if n <? 4294967296 then 5 else 9.
Proof.
  unfold pack_varint, pack_le_uint16, pack_le_uint32, pack_le_uint64, pack_le.
  destruct (n <? 253).
  { destruct (_ && _); [|discriminate]. intros E. injection E as <-.
    reflexivity. }
  destruct (n <? 65536).
  { destruct (_ && _); [|discriminate]. cbn [option_map].
    intros E. injection E as <-. reflexivity. }
  destruct (n <? 4294967296).
  { destruct (_ && _); [|discriminate]. cbn [option_map].
    intros E. injection E as <-. reflexivity. }
  destruct (_ && _); [|discriminate]. cbn [option_map].
  intros E. injection E as <-. reflexivity.
Qed.

(** X10: a number that [_read_varint] returns is in the range of a u64,
    and the cursor stays inside the buffer; [pack_varint] packs the
    number in no more bytes than were read (the reader also accepts the
    longer, non-minimal encodings), and what it packs is read back as
    the same number. *)
Theorem read_varint_repack (binary : bytes) (cursor n cursor' : Z) :
  0 <= cursor ->
  _read_varint binary cursor = Done (n, cursor') ->
  0 <= n < 2 ^ 64 /\
  cursor < cursor' <= len binary /\
  exists enc, pack_varint n = Some enc /\
              len enc <= cursor' - cursor /\
              reads _read_varint enc n.
Proof.
  intros Hc. unfold _read_varint.
  destruct (byte_at binary cursor) as [d|] eqn:B; [|discriminate].
  pose proof (byte_at_range _ _ _ B) as Rd.
  destruct (byte_at_slice _ _ _ Hc B) as [L _].
  assert (forall w : nat,
            (w <= 8)%nat ->
            read_unpacked (unpack_from w false) (Z.of_nat w) binary (cursor + 1)
            = Done (n, cursor') ->
            0 <= n < 2 ^ (8 * Z.of_nat w) /\ 0 <= n < 2 ^ 64 /\
            cursor' = cursor + 1 + Z.of_nat w /\ cursor' <= len binary) as K.
  { intros w Hw E.
    destruct (read_unsigned_range w binary (cursor + 1) n cursor' ltac:(lia) E)
      as (R & C & Lb).
    split; [exact R|]. split; [|split; assumption].
    split; [lia|]. apply Z.lt_le_trans with (2 ^ (8 * Z.of_nat w)); [lia|].
    apply Z.pow_le_mono_r; lia. }
  assert (forall k : Z,
            0 <= n < 2 ^ 64 ->
            (if n <? 253 then 1
             else if n <? 65536 then 3
             else if n <? 4294967296 then 5 else 9) <= k ->
            exists enc, pack_varint n = Some enc /\ len enc <= k /\
                        reads _read_varint enc n) as P.
  { intros k Rn Hk. destruct (reads_varint n Rn) as (enc & Pe & _ & Re).
    exists enc. split; [exact Pe|]. split; [|exact Re].
    now rewrite (len_pack_varint _ _ Pe). }
  destruct (Z.ltb_spec d 253) as [Small|Big].
  - intros E. inversion E; subst. clear E.
    split; [lia|]. split; [lia|]. apply P; [lia|].
    destruct (Z.ltb_spec n 253); lia.
  - destruct (Z.eqb_spec d 253).
    { intros E. destruct (K 2%nat ltac:(lia) E) as (R & R64 & C & Lb).
      change (2 ^ (8 * Z.of_nat 2)) with 65536 in R.
      split; [exact R64|]. split; [lia|]. apply P; [exact R64|].
      destruct (n <? 253); [lia|]. destruct (Z.ltb_spec n 65536); lia. }
    destruct (Z.eqb_spec d 254).
    { intros E. destruct (K 4%nat ltac:(lia) E) as (R & R64 & C & Lb).
      change (2 ^ (8 * Z.of_nat 4)) with 4294967296 in R.
      split; [exact R64|]. split; [lia|]. apply P; [exact R64|].
      destruct (n <? 253); [lia|]. destruct (n <? 65536); [lia|].
      destruct (Z.ltb_spec n 4294967296); lia. }
    intros E. destruct (K 8%nat ltac:(lia) E) as (R & R64 & C & Lb).
    split; [exact R64|]. split; [lia|]. apply P; [exact R64|].
    destruct (n <? 253); [lia|]. destruct (n <? 65536); [lia|].
    destruct (n <? 4294967296); lia.
Qed.

(** The three bytes [fd 05 00] are read as 5, which [pack_varint] packs
    in the single byte [05]. *)
Lemma read_varint_repack_witness :
  let binary := [xfd; x05; x00] in
  _read_varint binary 0 = Done (5, 3) /\
  exists enc, pack_varint 5 = Some enc /\ len enc <= 3 - 0 /\
              reads _read_varint enc 5.
Proof.
  intros binary.
  assert (_read_varint binary 0 = Done (5, 3)) as E by (vm_compute; reflexivity).
  split; [exact E|].
  exact (proj2 (proj2 (read_varint_repack binary 0 5 3 ltac:(lia) E))).
Defined.

(* ================================================================= *)
(** * [read_tx]: how many bytes a transaction takes *)

(** A list comprehension whose [read] moves by [d] bytes at least moves
    by [d] bytes for every element that it returns. *)
Lemma read_list_consumes {A : Type} (read : reader A) (d : Z) :
  0 <= d -> advances d read ->
  forall (fuel : nat) (count : Z) (binary : bytes) (cursor : Z)
         (l : list A) (cursor' : Z),
    0 <= cursor ->
    read_list read fuel count binary cursor = Done (l, cursor') ->
    cursor + d * len l <= cursor' /\ (cursor < cursor' -> cursor' <= len binary).
Proof.
  intros Hd Hr. induction fuel as [|fuel IH];
    intros count binary cursor l cursor' Hc; cbn [read_list].
  - destruct (count <=? 0).
    + unfold ret. intros E. inversion E; subst. cbn. lia.
    + unfold rbind. destruct (read binary cursor) as [[x c1]| |];
        discriminate.
  - destruct (count <=? 0).
    + unfold ret. intros E. inversion E; subst. cbn. lia.
    + unfold rbind at 1. pose proof (Hr binary cursor Hc) as H1.
      destruct (read binary cursor) as [[x c1]| |]; try discriminate.
      unfold rbind.
      destruct (read_list read fuel (count - 1) binary c1) as [[xs c2]| |] eqn:E2;
        try discriminate.
      unfold ret. intros E. inversion E; subst. clear E.
      destruct (IH (count - 1) binary c1 xs cursor' ltac:(lia) E2) as [I1 I2].
      rewrite len_cons. pose proof (len_nonneg xs). nia.
Qed.

Lemma counted_list_consumes {A : Type} (read : reader A) (d : Z) :
  0 <= d -> advances d read ->
  forall (binary : bytes) (cursor : Z) (l : list A) (cursor' : Z),
    0 <= cursor ->
    (count <~ _read_varint ;; read_all read count) binary cursor
    = Done (l, cursor') ->
    cursor + 1 + d * len l <= cursor' /\ cursor' <= len binary.
Proof.
  intros Hd Hr binary cursor l cursor' Hc. unfold rbind.
  pose proof (read_varint_advances binary cursor Hc) as V.
  destruct (_read_varint binary cursor) as [[n c1]| |]; try discriminate.
  unfold read_all. intros E.
  destruct (read_list_consumes read d Hd Hr (length binary) n binary c1 l cursor'
              ltac:(lia) E) as [I1 I2].
  pose proof (len_nonneg l). nia.
Qed.

Lemma advances_read_input_41 : advances 41 _read_input.
Proof.
  unfold _read_input.
  apply (advances_weaken (32 + (4 + (1 + (4 + 0))))); [lia|].
  apply advances_bind; try lia; [apply advances_nbytes; lia|]. intros h.
  apply advances_bind; try lia; [exact (advances_unpacked 4 false)|]. intros i.
  apply advances_bind; try lia; [exact advances_varbytes|]. intros s.
  apply advances_bind; try lia; [exact (advances_unpacked 4 false)|]. intros q.
  apply advances_ret.
Qed.

Lemma advances_read_output_9 (CONTRACT_FLAG MAX_CONTRACT_TYPE : Z) :
  advances 9 (_read_output CONTRACT_FLAG MAX_CONTRACT_TYPE).
Proof.
  intros binary cursor Hc. unfold _read_output.
  unfold rbind at 1. unfold get_cursor. unfold rbind at 1.
  destruct (_read_le_uint64 binary cursor) as [[t c1]| |] eqn:T;
    [|exact I|].
  2:{ pose proof (advances_unpacked 8 false binary cursor Hc) as P.
      change (read_unpacked (unpack_from 8 false) (Z.of_nat 8) binary cursor)
        with (_read_le_uint64 binary cursor) in P.
      now rewrite T in P. }
  unfold rbind at 1. unfold set_cursor.
  assert (advances 9
            (contract_out <~ (if is_contract CONTRACT_FLAG MAX_CONTRACT_TYPE t
                              then c <~ _read_contract_out ;; ret (Some c)
                              else ret None) ;;
             v <~ _read_le_int64 ;;
             s <~ _read_varbytes ;;
             ret (mk_TxOutput v s contract_out))) as K.
  { apply (advances_weaken (0 + (8 + (1 + 0)))); [lia|].
    apply advances_bind; try lia.
    { destruct (is_contract CONTRACT_FLAG MAX_CONTRACT_TYPE t).
      - apply (advances_bind 0 0); try lia;
          [exact advances_read_contract_out|].
        intros c. apply advances_ret.
      - apply advances_ret. }
    intros co.
    apply advances_bind; try lia; [exact (advances_unpacked 8 true)|]. intros v.
    apply advances_bind; try lia; [exact advances_varbytes|]. intros s.
    apply advances_ret. }
  exact (K binary cursor Hc).
Qed.

(** X11: when [read_tx] returns, it has moved the cursor by 10 bytes
    (version, the two counts, locktime) and by 41 bytes for every input
    and 9 bytes for every output of the transaction it returns, at
    least, and the cursor is not beyond the end of the buffer: the
    counts read from the wire never yield more inputs or outputs than
    the buffer has room for. *)
Theorem read_tx_size (CONTRACT_FLAG MAX_CONTRACT_TYPE : Z)
    (binary : bytes) (cursor : Z) (tx : Tx) (cursor' : Z) :
  0 <= cursor ->
  read_tx CONTRACT_FLAG MAX_CONTRACT_TYPE binary cursor = Done (tx, cursor') ->
  cursor + 10 + 41 * len (inputs tx) + 9 * len (outputs tx) <= cursor' /\
  cursor' <= len binary.
Proof.
  intros Hc. unfold read_tx. unfold rbind at 1.
  pose proof (advances_unpacked 4 true binary cursor Hc) as P1.
  change (read_unpacked (unpack_from 4 true) (Z.of_nat 4) binary cursor)
    with (_read_le_int32 binary cursor) in P1.
  destruct (_read_le_int32 binary cursor) as [[v c1]| |]; try discriminate.
  unfold rbind at 1.
  destruct (_read_inputs binary c1) as [[ins c2]| |] eqn:E2; try discriminate.
  destruct (counted_list_consumes _read_input 41 ltac:(lia)
              advances_read_input_41 binary c1 ins c2 ltac:(lia) E2) as [I1 I2].
  pose proof (len_nonneg ins) as Ni.
  unfold rbind at 1.
  destruct (_read_outputs CONTRACT_FLAG MAX_CONTRACT_TYPE binary c2)
    as [[outs c3]| |] eqn:E3; try discriminate.
  destruct (counted_list_consumes
              (_read_output CONTRACT_FLAG MAX_CONTRACT_TYPE) 9 ltac:(lia)
              (advances_read_output_9 CONTRACT_FLAG MAX_CONTRACT_TYPE)
              binary c2 outs c3 ltac:(lia) E3) as [O1 O2].
  pose proof (len_nonneg outs) as No.
  unfold rbind.
  pose proof (advances_unpacked 4 false binary c3 ltac:(lia)) as P4.
  change (read_unpacked (unpack_from 4 false) (Z.of_nat 4) binary c3)
    with (_read_le_uint32 binary c3) in P4.
  destruct (_read_le_uint32 binary c3) as [[lt c4]| |]; try discriminate.
  unfold ret. intros E. inversion E; subst. clear E.
  cbn [inputs outputs]. lia.
Qed.

(** A transaction with one input and one output, both with an empty
    script, in a buffer of 60 bytes: the bound is met with equality. *)
Lemma read_tx_size_witness :
  let binary := le_encode 4 1 ++ [x01] ++ repeat x22 32 ++ le_encode 4 0 ++
                [x00] ++ le_encode 4 7 ++ [x01] ++ le_encode 8 5000 ++ [x00] ++
                le_encode 4 0 in
  let tx := mk_Tx 1 [mk_TxInput (repeat x22 32) 0 [] 7]
              [mk_TxOutput 5000 [] None] 0 in
  read_tx (2 ^ 63) (2 ^ 63 + 3) binary 0 = Done (tx, 60) /\
  0 + 10 + 41 * len (inputs tx) + 9 * len (outputs tx) <= 60 /\
  60 <= len binary.
Proof.
  intros binary tx.
  assert (read_tx (2 ^ 63) (2 ^ 63 + 3) binary 0 = Done (tx, 60)) as E
      by (vm_compute; reflexivity).
  split; [exact E|].
  exact (read_tx_size (2 ^ 63) (2 ^ 63 + 3) binary 0 tx 60 ltac:(lia) E).
Defined.

(* ================================================================= *)
(** * [Tx.serialize] is injective on well-formed transactions *)

Lemma as_int64_inj (v1 v2 : Z) :
  0 <= v1 < 2 ^ 64 -> 0 <= v2 < 2 ^ 64 ->
  as_int64 v1 = as_int64 v2 -> v1 = v2.
Proof.
  unfold as_int64. intros R1 R2.
  destruct (Z.leb_spec (2 ^ 63) v1); destruct (Z.leb_spec (2 ^ 63) v2); lia.
Qed.

Lemma reread_output_inj (CONTRACT_FLAG MAX_CONTRACT_TYPE : Z) (o1 o2 : TxOutput) :
  wf_output CONTRACT_FLAG MAX_CONTRACT_TYPE o1 ->
  wf_output CONTRACT_FLAG MAX_CONTRACT_TYPE o2 ->
  reread_output o1 = reread_output o2 -> o1 = o2.
Proof.
  destruct o1 as [v1 p1 [c1|]]; destruct o2 as [v2 p2 [c2|]];
    unfold wf_output, reread_output, in_range; cbn [contract value pk_script];
    intros W1 W2 E; try discriminate E; try exact E.
  injection E as Ev Ep Ec. subst.
  f_equal. apply as_int64_inj; tauto.
Qed.

Lemma map_reread_output_inj (CONTRACT_FLAG MAX_CONTRACT_TYPE : Z)
    (l1 l2 : list TxOutput) :
  Forall (wf_output CONTRACT_FLAG MAX_CONTRACT_TYPE) l1 ->
  Forall (wf_output CONTRACT_FLAG MAX_CONTRACT_TYPE) l2 ->
  map reread_output l1 = map reread_output l2 -> l1 = l2.
Proof.
  intros F1. revert l2. induction F1 as [|o1 l1 W1 _ IH]; intros l2 F2 E.
  - destruct l2; [reflexivity|discriminate E].
  - destruct l2 as [|o2 l2]; [discriminate E|].
    inversion F2 as [|? ? W2 F2']; subst.
    cbn [map] in E. injection E as Eo El.
    f_equal; [exact (reread_output_inj _ _ _ _ W1 W2 Eo)|now apply IH].
Qed.

(** X12: [Tx.serialize] is injective on well-formed transactions: two
    different ones never have the same bytes.  The sign that
    [_read_output] gives to the value of a contract output loses
    nothing, since the u64 written and the i64 read determine each
    other. *)
Theorem Tx_serialize_injective (CONTRACT_FLAG MAX_CONTRACT_TYPE : Z)
    (tx1 tx2 : Tx) :
  wf_tx CONTRACT_FLAG MAX_CONTRACT_TYPE tx1 ->
  wf_tx CONTRACT_FLAG MAX_CONTRACT_TYPE tx2 ->
  tx1 <> tx2 ->
  Tx_serialize tx1 <> Tx_serialize tx2.
Proof.
  intros W1 W2 N E. apply N. clear N.
  destruct (read_tx_serialize _ _ _ W1) as (b1 & S1 & R1).
  destruct (read_tx_serialize _ _ _ W2) as (b2 & S2 & R2).
  assert (b1 = b2) as -> by congruence.
  assert (reread_tx tx1 = reread_tx tx2) as Er by congruence.
  destruct tx1 as [v1 i1 o1 l1]; destruct tx2 as [v2 i2 o2 l2].
  unfold reread_tx in Er. cbn [version inputs outputs locktime] in Er.
  injection Er as Ev Ei Eo El. subst.
  f_equal.
  unfold wf_tx in W1, W2. cbn [outputs] in W1, W2.
  apply (map_reread_output_inj CONTRACT_FLAG MAX_CONTRACT_TYPE); tauto.
Qed.

(** With the sample constants [CONTRACT_FLAG = 2^63] and
    [MAX_CONTRACT_TYPE = 2^63 + 3], a transaction of version [ver] with
    one input and one contract output of value [v] is well-formed. *)
Lemma wf_sample_tx (ver v : Z) :
  in_range (- 2 ^ 31) (2 ^ 31) ver ->
  in_range 0 (2 ^ 64) v ->
  wf_tx (2 ^ 63) (2 ^ 63 + 3)
    (mk_Tx ver [mk_TxInput (repeat x22 32) 0 [x51] 4294967295]
       [mk_TxOutput v [x6a]
          (Some (mk_TxContractOutput (2 ^ 63 + 1)
                   (mk_TxOutPoint (repeat x11 32) 7) 1000 2000 [x68; x69]))]
       0).
Proof.
  intros Hver Hv.
  unfold wf_tx. cbn [version inputs outputs locktime].
  split; [exact Hver|]. split; [in_range_now|].
  split.
  { constructor; [|constructor]. unfold wf_input.
    cbn [prev_hash prev_idx script sequence].
    split; [reflexivity|]. split; [in_range_now|].
    split; in_range_now. }
  split; [in_range_now|].
  split; [|in_range_now].
  constructor; [|constructor].
  unfold wf_output, wf_contract, wf_outpoint.
  cbn [contract value pk_script contract_type outpoint contract_value
       max_supply metadata hash index].
  split; [in_range_now|].
  split.
  { split; [in_range_now|]. split; [split; [reflexivity|in_range_now]|].
    split; [in_range_now|]. split; in_range_now. }
  split; [vm_compute; reflexivity|exact Hv].
Qed.

(** Two transactions that differ in the value of their contract output,
    [2^63] (read back as [-2^63]) and [0], have different bytes. *)
Lemma Tx_serialize_injective_witness :
  let c := mk_TxContractOutput (2 ^ 63 + 1) (mk_TxOutPoint (repeat x11 32) 7)
             1000 2000 [x68; x69] in
  let tx1 := mk_Tx 1 [mk_TxInput (repeat x22 32) 0 [x51] 4294967295]
               [mk_TxOutput (2 ^ 63) [x6a] (Some c)] 0 in
  let tx2 := mk_Tx 1 [mk_TxInput (repeat x22 32) 0 [x51] 4294967295]
               [mk_TxOutput 0 [x6a] (Some c)] 0 in
  tx1 <> tx2 /\ Tx_serialize tx1 <> Tx_serialize tx2.
Proof.
  intros c tx1 tx2.
  assert (tx1 <> tx2) as N
      by (intros E; injection E as E; vm_compute in E; discriminate E).
  split; [exact N|].
  apply (Tx_serialize_injective (2 ^ 63) (2 ^ 63 + 3) tx1 tx2).
  - apply wf_sample_tx; in_range_now.
  - apply wf_sample_tx; in_range_now.
  - exact N.
Defined.

(* ================================================================= *)
(** * [read_tx_and_hash] and [read_tx_block] on serialized transactions *)

(** [read_tx_serialize], anywhere in a buffer. *)
Lemma reads_tx (CONTRACT_FLAG MAX_CONTRACT_TYPE : Z) (tx : Tx) :
  wf_tx CONTRACT_FLAG MAX_CONTRACT_TYPE tx ->
  exists enc,
    Tx_serialize tx = Some enc /\ 1 <= len enc /\
    reads (read_tx CONTRACT_FLAG MAX_CONTRACT_TYPE) enc (reread_tx tx).
Proof.
  destruct tx as [v ins outs lt]. unfold wf_tx, in_range.
  cbn [version inputs outputs locktime].
  intros (Hv & Hni & Hi & Hno & Ho & Hl).
  destruct (reads_varint _ Hni) as (eni & Pni & _ & Rni).
  destruct (reads_varint _ Hno) as (eno & Pno & _ & Rno).
  destruct (reads_serialized_list wf_input TxInput_serialize _read_input
              (fun i => i) ins reads_input Hi) as (ei & Pi & Ri).
  rewrite map_id in Ri.
  destruct (reads_serialized_list (wf_output CONTRACT_FLAG MAX_CONTRACT_TYPE)
              TxOutput_serialize (_read_output CONTRACT_FLAG MAX_CONTRACT_TYPE)
              reread_output outs
              (reads_output CONTRACT_FLAG MAX_CONTRACT_TYPE) Ho)
    as (eo & Po & Ro).
  unfold Tx_serialize. cbn [version inputs outputs locktime].
  cbn [join]. unfold pack_le_int32, pack_le_uint32.
  rewrite pack_le_signed by (cbn; lia).
  rewrite pack_le_unsigned by (cbn; lia).
  rewrite Pni, Pno, Pi, Po. cbn [obind].
  eexists. split; [reflexivity|]. split.
  { rewrite len_app, len_le_encode.
    pose proof (len_nonneg (eni ++ ei ++ eno ++ eo ++ le_encode 4 lt ++ [])).
    lia. }
  unfold read_tx, reread_tx. cbn [version inputs outputs locktime].
  reads_next (reads_signed 4 v ltac:(lia) ltac:(cbn; lia)).
  rewrite (app_assoc eni ei).
  eapply reads_bind.
  { unfold _read_inputs. reads_next Rni. exact Ri. }
  cbv beta. rewrite (app_assoc eno eo).
  eapply reads_bind.
  { unfold _read_outputs. reads_next Rno. exact Ro. }
  cbv beta.
  reads_next (reads_unsigned 4 lt ltac:(cbn; lia)).
  apply reads_ret.
Qed.

(** Outside version 2, the hash is the [double_sha256] of the bytes of
    the transaction, wherever they are in the buffer. *)
Lemma reads_tx_and_hash (CONTRACT_FLAG MAX_CONTRACT_TYPE : Z)
    (sha256 double_sha256 : bytes -> bytes) (tx : Tx) :
  wf_tx CONTRACT_FLAG MAX_CONTRACT_TYPE tx ->
  version tx <> 2 ->
  exists enc,
    Tx_serialize tx = Some enc /\ 1 <= len enc /\
    reads (read_tx_and_hash CONTRACT_FLAG MAX_CONTRACT_TYPE sha256 double_sha256)
          enc (reread_tx tx, double_sha256 enc).
Proof.
  intros W V. destruct (reads_tx _ _ _ W) as (enc & S & L & R).
  exists enc. split; [exact S|]. split; [exact L|].
  intros pre post. unfold read_tx_and_hash.
  unfold rbind at 1. unfold get_cursor. unfold rbind at 1.
  rewrite (R pre post).
  assert (version (reread_tx tx) = version tx) as -> by reflexivity.
  destruct (Z.eqb_spec (version tx) 2); [contradiction|].
  unfold rbind, get_binary, get_cursor, ret.
  now rewrite slice_app_mid.
Qed.

(** X13: [read_tx_block] on the varint count of a list of well-formed
    transactions, none of version 2, followed by their serializations
    and by any excess data: it returns, for every transaction in turn,
    the transaction as [read_tx] reads it back and the [double_sha256]
    of its own bytes, and it leaves the cursor before the excess data,
    which it does not look at. *)
Theorem read_tx_block_reads (CONTRACT_FLAG MAX_CONTRACT_TYPE : Z)
    (sha256 double_sha256 : bytes -> bytes) (txs : list Tx) :
  in_range 0 (2 ^ 64) (len txs) ->
  Forall (fun tx => wf_tx CONTRACT_FLAG MAX_CONTRACT_TYPE tx /\ version tx <> 2)
         txs ->
  exists (count : bytes) (encs : list bytes),
    pack_varint (len txs) = Some count /\
    map Tx_serialize txs = map Some encs /\
    forall excess : bytes,
      deserialize
        (read_tx_block CONTRACT_FLAG MAX_CONTRACT_TYPE sha256 double_sha256)
        (count ++ concat encs ++ excess)
      = Done (map (fun p => (reread_tx (fst p), double_sha256 (snd p)))
                  (combine txs encs),
              len count + len (concat encs)).
Proof.
  intros Hn F.
  destruct (reads_varint _ Hn) as (count & Pc & _ & Rc).
  assert (exists encs,
            map Tx_serialize txs = map Some encs /\
            length encs = length txs /\
            Forall2 (fun e a =>
                       reads (read_tx_and_hash CONTRACT_FLAG MAX_CONTRACT_TYPE
                                sha256 double_sha256) e a)
                    encs
                    (map (fun p => (reread_tx (fst p), double_sha256 (snd p)))
                         (combine txs encs)) /\
            Forall (fun e => 1 <= len e) encs) as (encs & S & Le & R & N).
  { clear Hn Pc Rc. induction F as [|tx txs [W V] _ IH].
    - exists []. repeat split; constructor.
    - destruct (reads_tx_and_hash _ _ sha256 double_sha256 tx W V)
        as (e & Se & Ll & Re).
      destruct IH as (encs & S & Le & R & N).
      exists (e :: encs). cbn [map combine fst snd length].
      rewrite Se, S, Le.
      repeat split; constructor; assumption. }
  exists count, encs. split; [exact Pc|]. split; [exact S|].
  intros excess.
  set (results := map (fun p => (reread_tx (fst p), double_sha256 (snd p)))
                      (combine txs encs)) in *.
  assert (len results = len txs) as Lr.
  { unfold results, len. rewrite length_map, length_combine, Le. f_equal. lia. }
  assert (reads (read_tx_block CONTRACT_FLAG MAX_CONTRACT_TYPE
                   sha256 double_sha256)
                (count ++ concat encs) results) as Rb.
  { unfold read_tx_block. reads_next Rc. rewrite <- Lr.
    now apply reads_all. }
  specialize (Rb [] excess). cbn [app] in Rb.
  rewrite <- app_assoc in Rb. rewrite len_app in Rb.
  unfold deserialize. exact Rb.
Qed.

(** A block of two transactions followed by two bytes of excess data. *)
Lemma read_tx_block_reads_witness :
  let c := mk_TxContractOutput (2 ^ 63 + 1) (mk_TxOutPoint (repeat x11 32) 7)
             1000 2000 [x68; x69] in
  let tx (v : Z) := mk_Tx 1 [mk_TxInput (repeat x22 32) 0 [x51] 4294967295]
                      [mk_TxOutput v [x6a] (Some c)] 0 in
  let txs := [tx 5; tx 6] in
  exists (count : bytes) (encs : list bytes),
    pack_varint (len txs) = Some count /\
    map Tx_serialize txs = map Some encs /\
    deserialize (read_tx_block (2 ^ 63) (2 ^ 63 + 3) (fun b => b) (fun b => b))
                (count ++ concat encs ++ [xde; xad])
    = Done (map (fun p => (reread_tx (fst p), snd p)) (combine txs encs),
            len count + len (concat encs)).
Proof.
  intros c tx txs.
  destruct (read_tx_block_reads (2 ^ 63) (2 ^ 63 + 3) (fun b => b) (fun b => b)
              txs) as (count & encs & P & S & R).
  - in_range_now.
  - constructor; [|constructor; [|constructor]]; (split;
      [apply wf_sample_tx; in_range_now|intros E; discriminate E]).
  - exists count, encs. split; [exact P|]. split; [exact S|].
    exact (R [xde; xad]).
Defined.

(* ================================================================= *)
(** * [read_tx_and_hash] on transactions of version 2 *)

Lemma ebind_fold_err {A B : Type} (step : result exn B -> A -> result exn B)
    (l : list A) (e : exn) :
  (forall a, step (Err e) a = Err e) -> fold_left step l (Err e) = Err e.
Proof.
  intros H. induction l as [|a l IH]; cbn [fold_left]; [reflexivity|].
  now rewrite H.
Qed.

Lemma get_hashinputs_ok (sha256 : bytes -> bytes) (tx : Tx) :
  Forall wf_input (inputs tx) -> exists h, get_hashinputs sha256 tx = Ok h.
Proof.
  unfold get_hashinputs.
  match goal with |- context [fold_left ?f _ _] => set (step := f) end.
  assert (forall l acc, Forall wf_input l ->
                        exists b, fold_left step l (Ok acc) = Ok b) as K.
  { induction l as [|i l IH]; intros acc F; cbn [fold_left]; [eauto|].
    inversion F as [|? ? Wi Fl]; subst.
    destruct Wi as (_ & Hi & _ & Hq). unfold in_range in Hi, Hq.
    unfold step at 2. cbn [ebind join].
    unfold pack_le_uint32. rewrite !pack_le_unsigned by (cbn; lia).
    cbn [obind packed ebind]. apply IH, Fl. }
  intros F. destruct (K (inputs tx) [] F) as (b & ->).
  cbn [ebind]. eauto.
Qed.

Lemma as_int64_range (v : Z) :
  0 <= v < 2 ^ 64 -> - 2 ^ 63 <= as_int64 v < 2 ^ 63.
Proof.
  intros R. unfold as_int64. destruct (Z.leb_spec (2 ^ 63) v); lia.
Qed.

Lemma reread_output_value_range (CONTRACT_FLAG MAX_CONTRACT_TYPE : Z)
    (o : TxOutput) :
  wf_output CONTRACT_FLAG MAX_CONTRACT_TYPE o ->
  - 2 ^ 63 <= value (reread_output o) < 2 ^ 63 /\
  (value (reread_output o) < 0 <->
   match contract o with
   | Some _ => 2 ^ 63 <= value o
   | None => value o < 0
   end).
Proof.
  destruct o as [v pk [c|]]; unfold wf_output, reread_output, in_range;
    cbn [contract value pk_script].
  - intros (_ & _ & _ & Hv). split; [now apply as_int64_range|].
    unfold as_int64. destruct (Z.leb_spec (2 ^ 63) v); lia.
  - intros (_ & Hv & _). split; [exact Hv|reflexivity].
Qed.

(** [outputhash] on an output that [_read_output] has read: it raises
    [struct.error] when the value is negative, and returns otherwise. *)
Lemma outputhash_cases (CONTRACT_FLAG MAX_CONTRACT_TYPE : Z)
    (sha256 : bytes -> bytes) (o : TxOutput) :
  wf_output CONTRACT_FLAG MAX_CONTRACT_TYPE o ->
  (0 <= value (reread_output o) ->
   exists b, outputhash sha256 (reread_output o) = Ok b) /\
  (value (reread_output o) < 0 ->
   outputhash sha256 (reread_output o) = Err StructError).
Proof.
  intros W.
  destruct (reread_output_value_range _ _ _ W) as [R _].
  assert (exists pre,
            (match contract (reread_output o) with
             | Some c => packed (join [TxContractOutput_serialize c])
             | None => Ok []
             end) = Ok pre) as (pre & P).
  { destruct o as [v pk [c|]]; unfold wf_output in W; unfold reread_output;
      cbn [contract value pk_script] in *; [|eauto].
    destruct W as (_ & Hc & _).
    destruct (reads_contract_out c Hc) as (rest & Pc & _).
    cbn [join]. rewrite Pc. cbn [obind packed]. eauto. }
  unfold outputhash. rewrite P. cbn [ebind join].
  set (v := value (reread_output o)) in *.
  split.
  - intros Hv. unfold pack_le_uint64.
    rewrite pack_le_unsigned by (cbn; lia).
    cbn [obind packed ebind].
    destruct (get_state_cases (pk_script (reread_output o)))
      as [E|(pc & E & _)]; rewrite E; cbn [ebind truthy]; [eauto|].
    destruct (negb (pc =? 0)); eauto.
  - intros Hv. unfold pack_le_uint64, pack_le.
    destruct (Z.leb_spec 0 v); [lia|]. cbn [andb obind packed ebind].
    reflexivity.
Qed.

Lemma get_hashoutputs_cases (CONTRACT_FLAG MAX_CONTRACT_TYPE : Z)
    (sha256 : bytes -> bytes) (tx : Tx) :
  Forall (wf_output CONTRACT_FLAG MAX_CONTRACT_TYPE) (outputs tx) ->
  (Forall (fun o => 0 <= value (reread_output o)) (outputs tx) ->
   exists h, get_hashoutputs sha256 (reread_tx tx) = Ok h) /\
  (Exists (fun o => value (reread_output o) < 0) (outputs tx) ->
   get_hashoutputs sha256 (reread_tx tx) = Err StructError).
Proof.
  unfold get_hashoutputs, reread_tx. cbn [outputs].
  match goal with |- context [fold_left ?f _ _] => set (step := f) end.
  assert (forall l acc,
            Forall (wf_output CONTRACT_FLAG MAX_CONTRACT_TYPE) l ->
            (Forall (fun o => 0 <= value (reread_output o)) l ->
             exists b, fold_left step (map reread_output l) (Ok acc) = Ok b) /\
            (Exists (fun o => value (reread_output o) < 0) l ->
             fold_left step (map reread_output l) (Ok acc) = Err StructError))
    as K.
  { induction l as [|o l IH]; intros acc W; cbn [map fold_left].
    - split; [eauto|]. intros E. inversion E.
    - inversion W as [|? ? Wo Wl]; subst.
      destruct (outputhash_cases _ _ sha256 o Wo) as [Pos Neg].
      destruct (Z.lt_ge_cases (value (reread_output o)) 0) as [N|P].
      + assert (step (Ok acc) (reread_output o) = Err StructError) as ->
            by (unfold step; cbn [ebind]; now rewrite (Neg N)).
        split.
        * intros F. inversion F; subst. lia.
        * intros _. now apply ebind_fold_err.
      + destruct (Pos P) as (b & Eb).
        assert (step (Ok acc) (reread_output o) = Ok (acc ++ sha256 b)) as ->
            by (unfold step; cbn [ebind]; now rewrite Eb).
        destruct (IH (acc ++ sha256 b) Wl) as [I1 I2]. split.
        * intros F. inversion F; subst. now apply I1.
        * intros E. inversion E; subst; [lia|now apply I2]. }
  intros W. destruct (K (outputs tx) [] W) as [K1 K2]. split.
  - intros F. destruct (K1 F) as (b & ->). cbn [ebind]. eauto.
  - intros E. rewrite (K2 E). reflexivity.
Qed.

(** X14: [read_tx_and_hash] on the bytes of a well-formed transaction
    of version 2, with fewer than [2^31] inputs and outputs.  When some
    contract output has a value of [2^63] or more, or some ordinary
    output a negative value, it raises [struct.error]: the value comes
    back negative from [_read_le_int64] and [get_hashoutputs] packs it
    with [pack_le_uint64].  Otherwise it returns the transaction with
    the hash that [get_richtransaction] computes. *)
Theorem read_tx_and_hash_version_2 (CONTRACT_FLAG MAX_CONTRACT_TYPE : Z)
    (sha256 double_sha256 : bytes -> bytes) (tx : Tx) :
  wf_tx CONTRACT_FLAG MAX_CONTRACT_TYPE tx ->
  version tx = 2 ->
  len (inputs tx) < 2 ^ 31 ->
  len (outputs tx) < 2 ^ 31 ->
  exists enc,
    Tx_serialize tx = Some enc /\
    (Exists (fun o => match contract o with
                      | Some _ => 2 ^ 63 <= value o
                      | None => value o < 0
                      end) (outputs tx) ->
     forall pre post : bytes,
       read_tx_and_hash CONTRACT_FLAG MAX_CONTRACT_TYPE sha256 double_sha256
         (pre ++ enc ++ post) (len pre) = Raised StructError) /\
    (Forall (fun o => match contract o with
                      | Some _ => value o < 2 ^ 63
                      | None => 0 <= value o
                      end) (outputs tx) ->
     exists h,
       get_richtransaction sha256 double_sha256 (reread_tx tx) = Ok h /\
       reads (read_tx_and_hash CONTRACT_FLAG MAX_CONTRACT_TYPE
                sha256 double_sha256) enc (reread_tx tx, h)).
Proof.
  intros W V Li Lo.
  destruct (reads_tx _ _ _ W) as (enc & S & _ & R).
  exists enc. split; [exact S|].
  assert (forall pre post,
            read_tx_and_hash CONTRACT_FLAG MAX_CONTRACT_TYPE sha256 double_sha256
              (pre ++ enc ++ post) (len pre) =
            match get_richtransaction sha256 double_sha256 (reread_tx tx) with
            | Ok h => Done ((reread_tx tx, h), len pre + len enc)
            | Err e => Raised e
            end) as Rh.
  { intros pre post. unfold read_tx_and_hash.
    unfold rbind at 1. unfold get_cursor. unfold rbind at 1.
    rewrite (R pre post).
    assert (version (reread_tx tx) = version tx) as -> by reflexivity.
    rewrite V. change (2 =? 2) with true. cbv iota.
    unfold rbind, lift, ret.
    destruct (get_richtransaction sha256 double_sha256 (reread_tx tx));
      reflexivity. }
  destruct W as (Hv & Hni & Hi & Hno & Ho & Hl). unfold in_range in *.
  destruct (get_hashinputs_ok sha256 (reread_tx tx) Hi) as (hi & Ei).
  destruct (get_hashoutputs_cases _ _ sha256 tx Ho) as [Pos Neg].
  assert (forall o, In o (outputs tx) ->
                    (value (reread_output o) < 0 <->
                     match contract o with
                     | Some _ => 2 ^ 63 <= value o
                     | None => value o < 0
                     end)) as Sg.
  { intros o I. rewrite Forall_forall in Ho.
    exact (proj2 (reread_output_value_range _ _ _ (Ho o I))). }
  split.
  - intros E. intros pre post. rewrite Rh.
    unfold get_richtransaction. rewrite Ei. cbn [ebind].
    rewrite Neg; [reflexivity|].
    apply Exists_exists in E. destruct E as (o & I & N).
    apply Exists_exists. exists o. split; [exact I|]. now apply Sg.
  - intros F.
    assert (exists h, get_richtransaction sha256 double_sha256 (reread_tx tx)
                      = Ok h) as (h & Eh).
    { unfold get_richtransaction. rewrite Ei. cbn [ebind].
      destruct Pos as (ho & Eo).
      { rewrite Forall_forall in F |- *. intros o I.
        specialize (F o I). pose proof (Sg o I) as G.
        destruct (contract o); lia. }
      rewrite Eo. cbn [ebind join].
      unfold reread_tx. cbn [version inputs outputs locktime].
      assert (len (map reread_output (outputs tx)) = len (outputs tx)) as ->
          by (unfold len; now rewrite length_map).
      pose proof (len_nonneg (inputs tx)). pose proof (len_nonneg (outputs tx)).
      unfold pack_le_uint32, pack_le_int32.
      rewrite !pack_le_unsigned by (cbn; lia).
      rewrite !pack_le_signed by (cbn; lia).
      cbn [obind packed ebind]. eauto. }
    exists h. split; [exact Eh|].
    intros pre post. rewrite Rh, Eh. reflexivity.
Qed.

(** With the sample constants and the identity for the two hash
    functions: a transaction of version 2 whose contract output carries
    the value [2^63] serializes, and reading it back with its hash
    raises [struct.error]. *)
Lemma read_tx_and_hash_version_2_witness :
  let c := mk_TxContractOutput (2 ^ 63 + 1) (mk_TxOutPoint (repeat x11 32) 7)
             1000 2000 [x68; x69] in
  let tx := mk_Tx 2 [mk_TxInput (repeat x22 32) 0 [x51] 4294967295]
              [mk_TxOutput (2 ^ 63) [x6a] (Some c)] 0 in
  exists enc,
    Tx_serialize tx = Some enc /\
    deserialize (read_tx_and_hash (2 ^ 63) (2 ^ 63 + 3) (fun b => b) (fun b => b))
                enc = Raised StructError.
Proof.
  intros c tx.
  destruct (read_tx_and_hash_version_2 (2 ^ 63) (2 ^ 63 + 3)
              (fun b => b) (fun b => b) tx) as (enc & S & Neg & _).
  - apply wf_sample_tx; in_range_now.
  - reflexivity.
  - reflexivity.
  - reflexivity.
  - exists enc. split; [exact S|].
    assert (Exists (fun o => match contract o with
                             | Some _ => 2 ^ 63 <= value o
                             | None => value o < 0
                             end) (outputs tx)) as E.
    { constructor. cbn [contract value]. apply Z.le_refl. }
    specialize (Neg E [] []). cbn [app] in Neg.
    rewrite app_nil_r in Neg. exact Neg.
Defined.

(* ================================================================= *)
(** * [TxInput.is_generation] and the bytes of a coinbase input *)

Lemma app_eq_length_inv {A : Type} (a b c d : list A) :
  length a = length c -> a ++ b = c ++ d -> a = c /\ b = d.
Proof.
  revert c. induction a as [|x a IH]; intros [|y c] L E;
    try discriminate L.
  - now split.
  - cbn [app] in E. injection E as Ex Er. cbn [length] in L.
    destruct (IH c ltac:(lia) Er) as [-> ->]. now subst.
Qed.

(** X15: an input in the range of its formats is a generation input for
    [is_generation] exactly when the first 36 bytes of its
    serialization are 32 zero bytes followed by [ff ff ff ff]. *)
Theorem is_generation_wire (i : TxInput) (enc : bytes) :
  wf_input i ->
  TxInput_serialize i = Some enc ->
  (is_generation i = true <-> slice enc 0 36 = zero_bytes 32 ++ repeat xff 4).
Proof.
  destruct i as [h idx scr sq]. unfold wf_input, in_range.
  cbn [prev_hash prev_idx script sequence].
  intros (Hh & Hi & Hs & Hq).
  destruct (reads_varbytes scr Hs) as (es & Ps & _ & _).
  unfold TxInput_serialize. cbn [prev_hash prev_idx script sequence join].
  unfold pack_le_uint32. rewrite !pack_le_unsigned by (cbn; lia).
  rewrite Ps. cbn [obind]. intros E.
  assert (enc = h ++ le_encode 4 idx ++ es ++ le_encode 4 sq ++ []) as ->
      by congruence.
  clear E.
  assert (slice (h ++ le_encode 4 idx ++ es ++ le_encode 4 sq ++ []) 0 36
          = h ++ le_encode 4 idx) as ->.
  { rewrite app_assoc.
    replace 36 with (len (h ++ le_encode 4 idx));
      [apply slice_app_left|].
    rewrite len_app, (len_32 _ Hh), len_le_encode. reflexivity. }
  unfold is_generation. cbn [prev_idx prev_hash].
  rewrite andb_true_iff, Z.eqb_eq, bytes_eqb_eq. unfold MINUS_1, ZERO.
  split.
  - intros [-> ->]. reflexivity.
  - intros E. apply app_eq_length_inv in E; [|now rewrite Hh].
    destruct E as [-> E]. split; [|reflexivity].
    apply (f_equal le_decode) in E.
    rewrite le_decode_encode in E by (change (256 ^ Z.of_nat 4) with (2 ^ 32); lia).
    rewrite E. reflexivity.
Qed.

(** The coinbase input with script [51]. *)
Lemma is_generation_wire_witness :
  let i := mk_TxInput (zero_bytes 32) 4294967295 [x51] 0 in
  let enc := zero_bytes 32 ++ repeat xff 4 ++ [x01; x51] ++ repeat x00 4 in
  TxInput_serialize i = Some enc /\
  slice enc 0 36 = zero_bytes 32 ++ repeat xff 4.
Proof.
  intros i enc.
  assert (TxInput_serialize i = Some enc) as S by (vm_compute; reflexivity).
  split; [exact S|].
  apply (proj1 (is_generation_wire i enc
                  ltac:(unfold wf_input; cbn [prev_hash prev_idx script sequence];
                        split; [reflexivity|];
                        split; [in_range_now|]; split; in_range_now)
                  S)).
  reflexivity.
Defined.

(* ================================================================= *)
(** * [read_tx_and_vsize]: the size it reports *)

(** X16: [read_tx_and_vsize] on the bytes of a well-formed transaction
    that lie anywhere in a buffer returns the transaction as [read_tx]
    reads it back, together with the length of the whole buffer; the
    size reported is the size of the transaction exactly when the buffer
    holds nothing before or after it. *)
Theorem read_tx_and_vsize_buffer (CONTRACT_FLAG MAX_CONTRACT_TYPE : Z) (tx : Tx) :
  wf_tx CONTRACT_FLAG MAX_CONTRACT_TYPE tx ->
  exists enc,
    Tx_serialize tx = Some enc /\
    forall pre post : bytes,
      read_tx_and_vsize CONTRACT_FLAG MAX_CONTRACT_TYPE
        (pre ++ enc ++ post) (len pre)
      = Done ((reread_tx tx, len pre + len enc + len post), len pre + len enc) /\
      (len pre + len enc + len post = len enc <-> pre = [] /\ post = []).
Proof.
  intros W. destruct (reads_tx _ _ _ W) as (enc & S & _ & R).
  exists enc. split; [exact S|]. intros pre post. split.
  - unfold read_tx_and_vsize. unfold rbind at 1. rewrite (R pre post).
    unfold rbind, get_binary, ret. rewrite !len_app.
    f_equal. f_equal. f_equal. lia.
  - pose proof (len_nonneg pre). pose proof (len_nonneg post). split.
    + intros E.
      assert (len pre = 0) as Lp by lia. assert (len post = 0) as Lq by lia.
      unfold len in Lp, Lq.
      destruct pre; [|cbn [length] in Lp; lia].
      destruct post; [|cbn [length] in Lq; lia].
      now split.
    + intros [-> ->]. change (len (@nil byte)) with 0. lia.
Qed.

(** With the sample constants: behind one byte of other data, the size
    reported for a transaction is one more than its own. *)
Lemma read_tx_and_vsize_buffer_witness :
  let c := mk_TxContractOutput (2 ^ 63 + 1) (mk_TxOutPoint (repeat x11 32) 7)
             1000 2000 [x68; x69] in
  let tx := mk_Tx 1 [mk_TxInput (repeat x22 32) 0 [x51] 4294967295]
              [mk_TxOutput 5 [x6a] (Some c)] 0 in
  exists enc,
    Tx_serialize tx = Some enc /\
    read_tx_and_vsize (2 ^ 63) (2 ^ 63 + 3) ([xaa] ++ enc ++ []) (len [xaa])
    = Done ((reread_tx tx, len [xaa] + len enc + len (@nil byte)),
            len [xaa] + len enc).
Proof.
  intros c tx.
  destruct (read_tx_and_vsize_buffer (2 ^ 63) (2 ^ 63 + 3) tx) as (enc & S & R).
  - apply wf_sample_tx; in_range_now.
  - exists enc. split; [exact S|]. exact (proj1 (R [xaa] [])).
Defined.
